(** * DIPlib projection framework ([src/math/projection.cpp])

    A shallow embedding of [ProjectionScan], of the reducers plugged into it
    and of the public entry points built on top of it, followed by the
    properties of the framework.

    Conventions of the embedding:
    - [dip::uint] is [nat], [dip::sint] and sample addresses are [Z];
      [UnsignedArray], [IntegerArray] and [BooleanArray] are lists;
    - an image is its header (sizes, strides, tensor elements, data type and
      origin); the samples live in a memory that is passed next to the header
      ([Z -> V] for the input, [Z -> bin] for the mask);
    - the output is returned as the final header of [c_out] together with the
      ordered list of samples written through it;
    - [DIP_THROW] is the [Throw] constructor of [result]. *)

From Stdlib Require Import String.
From Stdlib Require Import ZArith List Bool Lia Permutation.
From Stdlib Require Import PrimFloat FloatOps FloatAxioms SpecFloat.
From Stdlib Require Import QArith Qreduction Qabs.
From Stdlib Require Import Reals Lra.
Import ListNotations.

Local Open Scope Z_scope.

(* ================================================================== *)
(** ** Exceptions *)

Inductive Exception : Type :=
| ARRAY_PARAMETER_WRONG_LENGTH
| DATA_TYPE_NOT_SUPPORTED
| LibraryError (what : nat).

Inductive result (A : Type) : Type :=
| Ok (a : A)
| Throw (e : Exception)
| OutOfFuel.

Arguments Ok {A} a.
Arguments Throw {A} e.
Arguments OutOfFuel {A}.

Definition bind {A B : Type} (r : result A) (k : A -> result B) : result B :=
  match r with
  | Ok a => k a
  | Throw e => Throw e
  | OutOfFuel => OutOfFuel
  end.

Notation "x <- r ;; k" := (bind r (fun x => k))
  (at level 61, r at next level, right associativity).

(* ================================================================== *)
(** ** Data types and image headers *)

(** Modelled from the spec: the element type tags of the array library
    ([diplib.h] is outside [projection.cpp]). *)
Inductive DataType : Type :=
| DT_BIN | DT_UINT8 | DT_SINT8 | DT_UINT16 | DT_SINT16 | DT_UINT32 | DT_SINT32
| DT_SFLOAT | DT_DFLOAT | DT_SCOMPLEX | DT_DCOMPLEX.

Definition DataType_eqb (a b : DataType) : bool :=
  match a, b with
  | DT_BIN, DT_BIN | DT_UINT8, DT_UINT8 | DT_SINT8, DT_SINT8
  | DT_UINT16, DT_UINT16 | DT_SINT16, DT_SINT16
  | DT_UINT32, DT_UINT32 | DT_SINT32, DT_SINT32
  | DT_SFLOAT, DT_SFLOAT | DT_DFLOAT, DT_DFLOAT
  | DT_SCOMPLEX, DT_SCOMPLEX | DT_DCOMPLEX, DT_DCOMPLEX => true
  | _, _ => false
  end.

Definition IsComplex (t : DataType) : bool :=
  match t with DT_SCOMPLEX | DT_DCOMPLEX => true | _ => false end.

Definition IsFloat (t : DataType) : bool :=
  match t with DT_SFLOAT | DT_DFLOAT => true | _ => false end.

Definition UnsignedArray := list nat.
Definition IntegerArray := list Z.
Definition BooleanArray := list bool.
Definition bin := bool.

(** Modelled from the spec: the array of spec section 3, "sizes per
    dimension, stride per dimension, element type tag, an optional channel
    (tensor) dimension count, and metadata", with the header operations of
    spec section 6 that [ProjectionScan] calls. *)
Record Image : Type := mkImage {
  DataType_ : DataType;
  Sizes : UnsignedArray;
  Strides : IntegerArray;
  TensorElements : nat;
  TensorStride : Z;
  ColorSpace : string;
  PixelSize : list Z;
  Origin : option Z          (* [None] is the null origin of a raw image *)
}.

(** The default-constructed image: raw, zero-dimensional, one sample per
    pixel. *)
Definition RawImage : Image :=
  mkImage DT_SFLOAT [] [] 1 1 EmptyString [] None.

Definition IsForged (img : Image) : bool :=
  match Origin img with Some _ => true | None => false end.

Definition QuickCopy (img : Image) : Image := img.

Definition SetSizes (img : Image) (sz : UnsignedArray) : Image :=
  mkImage (DataType_ img) sz (Strides img) (TensorElements img)
          (TensorStride img) (ColorSpace img) (PixelSize img) (Origin img).

Definition dip__SetOrigin (img : Image) (o : option Z) : Image :=
  mkImage (DataType_ img) (Sizes img) (Strides img) (TensorElements img)
          (TensorStride img) (ColorSpace img) (PixelSize img) o.

Definition dip__ShiftOrigin (img : Image) (shift : Z) : Image :=
  dip__SetOrigin img (option_map (fun o => o + shift) (Origin img)).

Definition SetPixelSize (img : Image) (ps : list Z) : Image :=
  mkImage (DataType_ img) (Sizes img) (Strides img) (TensorElements img)
          (TensorStride img) (ColorSpace img) ps (Origin img).

Definition SetColorSpace (img : Image) (cs : string) : Image :=
  mkImage (DataType_ img) (Sizes img) (Strides img) (TensorElements img)
          (TensorStride img) cs (PixelSize img) (Origin img).

(** [tmp.CopyProperties( src )]: everything but the data of [src], on a
    default-constructed [tmp]. *)
Definition CopyProperties (src : Image) : Image :=
  dip__SetOrigin src None.

Definition Strip (img : Image) : Image := dip__SetOrigin img None.

(** Modelled from the spec: [img.TensorToSpatial( 0 )], "the channel axis is
    logically inserted as dimension 0" (spec section 4.3). *)
Definition TensorToSpatial0 (img : Image) : Image :=
  mkImage (DataType_ img) (TensorElements img :: Sizes img)
          (TensorStride img :: Strides img) 1 1
          (ColorSpace img) (PixelSize img) (Origin img).

Fixpoint squeeze (sizes : UnsignedArray) (strides : IntegerArray)
  : UnsignedArray * IntegerArray :=
  match sizes, strides with
  | s :: ss, t :: ts =>
      let r := squeeze ss ts in
      if Nat.eqb s 1 then r else (s :: fst r, t :: snd r)
  | _, _ => ([], [])
  end.

(** Modelled from the spec: [img.Squeeze()], "removal of size-1 dimensions
    from a shape/stride description" (glossary). *)
Definition Squeeze (img : Image) : Image :=
  let r := squeeze (Sizes img) (Strides img) in
  mkImage (DataType_ img) (fst r) (snd r) (TensorElements img)
          (TensorStride img) (ColorSpace img) (PixelSize img) (Origin img).

Definition NumberOfPixels (img : Image) : nat :=
  fold_right Nat.mul 1%nat (Sizes img).

(* ================================================================== *)
(** ** Pixel iterators *)

(** Modelled from the spec: the element-wise iterators of spec section 6.
    Offsets of all pixels of a view relative to its origin, dimension 0
    varying fastest. *)
Fixpoint offsets (sizes : UnsignedArray) (strides : IntegerArray) : list Z :=
  match sizes, strides with
  | s :: ss, t :: ts =>
      flat_map (fun rest => map (fun i => Z.of_nat i * t + rest) (seq 0 s))
               (offsets ss ts)
  | _, _ => [0]
  end.

(** [ImageIterator< TPI > it( in )]: the addresses visited by the iterator. *)
Definition ImageIterator (img : Image) : list Z :=
  match Origin img with
  | Some o => map (fun d => o + d) (offsets (Sizes img) (Strides img))
  | None => []
  end.

(** [JointImageIterator< TPI, bin > it( in, mask )]: walks the coordinates of
    [in]; [it.In()] reads [in] and [it.Out()] reads [mask] at the same
    coordinates. *)
Definition JointImageIterator (img mask : Image) : list (Z * Z) :=
  match Origin img, Origin mask with
  | Some o, Some m =>
      combine (map (fun d => o + d) (offsets (Sizes img) (Strides img)))
              (map (fun d => m + d) (offsets (Sizes img) (Strides mask)))
  | _, _ => []
  end.

(* ================================================================== *)
(** ** Sample arithmetic and library collaborators *)

(** Arithmetic on samples. The reducers are templates over the sample type
    [TPI]; here one carrier [V] holds the samples of every type and the
    operations are kept abstract, so every result below holds for whatever
    arithmetic (integer, floating point, complex) instantiates them. *)
Class SampleOps (V : Type) : Type := {
  zero : V;
  add : V -> V -> V;
  (** [sum / static_cast< FloatType< TPI >>( n )] *)
  div_count : V -> nat -> V;
  (** [std::max], [std::min] *)
  smax : V -> V -> V;
  smin : V -> V -> V;
  (** [std::numeric_limits< TPI >::lowest()] and [::max()] *)
  numeric_lowest : DataType -> V;
  numeric_max : DataType -> V;
  (** [AngleToVector] and [std::arg] *)
  AngleToVector : V -> V;
  arg : V -> V;
  (** one sample converted by [CopyBuffer] from one data type to another *)
  CopyBuffer : DataType -> DataType -> V -> V
}.

(** Modelled from the spec: the array abstraction of spec section 6 lives
    outside [projection.cpp]. Mask validation, singleton expansion, the
    overlap test, output (re)allocation and the type-promotion rules are
    taken as an interface; the laws are the part of their contract the
    framework relies on (spec section 4.1, step 4: the output is allocated
    with the computed shape and the input's channel count; singleton
    expansion only rewrites the header). [ReForge] is called with
    [Option::AcceptDataTypeChange::DO_ALLOW]: the element type the output
    ends up with is the library's choice, and lines 123 and 186 compare it
    with the type the reducer produces. *)
Class ImageLibrary : Type := {
  CheckIsMask : Image -> UnsignedArray -> result unit;
  ExpandSingletonDimensions : Image -> UnsignedArray -> result Image;
  IsOverlappingView : Image -> Image -> bool;
  ReForge : Image -> UnsignedArray -> nat -> DataType -> Image;
  SuggestFlex : DataType -> DataType;
  SuggestFloat : DataType -> DataType;
  ExpandSingletonDimensions_Origin :
    forall img sz img',
      ExpandSingletonDimensions img sz = Ok img' -> Origin img' = Origin img;
  ReForge_Sizes : forall o sz te dt, Sizes (ReForge o sz te dt) = sz;
  ReForge_Strides :
    forall o sz te dt, length (Strides (ReForge o sz te dt)) = length sz;
  ReForge_TensorElements :
    forall o sz te dt, TensorElements (ReForge o sz te dt) = te;
  ReForge_IsForged : forall o sz te dt, IsForged (ReForge o sz te dt) = true
}.

(* ================================================================== *)
(** ** The projection framework *)

Section Framework.

Context {V : Type} {ops : SampleOps V} {lib : ImageLibrary}.

(** [ProjectionScanFunction]: the one virtual method, with the memories the
    two images point into made explicit. *)
Record ProjectionScanFunction : Type := {
  Project : (Z -> V) -> (Z -> bin) -> Image -> Image -> V
}.

(** What a call leaves behind: the header of [c_out] and the samples written
    through it, in program order. *)
Record Outcome : Type := mkOutcome {
  c_out_final : Image;
  written : list (Z * V)
}.

(** Lines 46-51. *)
Definition check_process (process : BooleanArray) (nDims : nat)
  : result BooleanArray :=
  if Nat.eqb (length process) 0 then Ok (repeat true nDims)
  else if negb (Nat.eqb (length process) nDims)
       then Throw ARRAY_PARAMETER_WRONG_LENGTH
       else Ok process.

(** Lines 63-72. The local [mask] is default-constructed and then assigned
    its own quick copy; [c_mask] is only asked whether it is forged. *)
Definition check_mask (c_mask : Image) (inSizes : UnsignedArray)
  : result (Image * bool) :=
  let mask := RawImage in
  if IsForged c_mask then
    let mask := QuickCopy mask in
    _ <- CheckIsMask mask inSizes ;;
    mask <- ExpandSingletonDimensions mask inSizes ;;
    Ok (mask, true)
  else Ok (mask, false).

(** Lines 75-86, one dimension per step: the (possibly cleared) process flag,
    the output size and the processing size of each dimension. *)
Fixpoint determine_sizes (inSizes : UnsignedArray) (process : BooleanArray)
  : BooleanArray * UnsignedArray * UnsignedArray :=
  match inSizes, process with
  | s :: ss, p :: ps =>
      let '(process', outSizes, procSizes) := determine_sizes ss ps in
      let p := if Nat.eqb s 1 then false else p in
      if p then (p :: process', 1%nat :: outSizes, s :: procSizes)
      else (p :: process', s :: outSizes, 1%nat :: procSizes)
  | _, _ => ([], [], [])
  end.

(** One surviving dimension of the compacted iteration space: lines 160-179
    keep [inStride], [maskStride], [outStride] and [outSizes] in lockstep. *)
Record Axis : Type := mkAxis {
  axSize : nat;
  axIn : Z;
  axMask : Z;
  axOut : Z
}.

(** Lines 166-179. Entry [ii] is moved down to [jj <= ii], so every read
    sees the original entry; the arrays are then cut to [jj] entries. The
    loop bound [nDims] is the one computed on line 43. *)
Definition compact (nDims : nat) (outSizes : UnsignedArray)
           (inStride maskStride outStride : IntegerArray) : list Axis :=
  flat_map (fun ii =>
              if Nat.ltb 1 (nth ii outSizes 0%nat)
              then [mkAxis (nth ii outSizes 0%nat) (nth ii inStride 0)
                           (nth ii maskStride 0) (nth ii outStride 0)]
              else [])
           (seq 0 nDims).

Record Cursor : Type := mkCursor {
  position : list nat;
  tempIn : Image;
  tempMask : Image;
  tempOut : Image
}.

(** Lines 208-228: advance to the next output pixel. The boolean is
    [dd == nDims] after the inner loop. *)
Fixpoint next_pixel (hasMask : bool) (axes : list Axis) (c : Cursor)
  : bool * Cursor :=
  match axes, position c with
  | a :: axes', p :: ps =>
      let p := S p in
      let tIn := dip__ShiftOrigin (tempIn c) (axIn a) in
      let tMask := if hasMask then dip__ShiftOrigin (tempMask c) (axMask a)
                   else tempMask c in
      let tOut := dip__ShiftOrigin (tempOut c) (axOut a) in
      if negb (Nat.eqb p (axSize a)) then
        (false, mkCursor (p :: ps) tIn tMask tOut)
      else
        let tIn := dip__ShiftOrigin tIn (- axIn a * Z.of_nat p) in
        let tMask := if hasMask
                     then dip__ShiftOrigin tMask (- axMask a * Z.of_nat p)
                     else tMask in
        let tOut := dip__ShiftOrigin tOut (- axOut a * Z.of_nat p) in
        let '(done, c') := next_pixel hasMask axes' (mkCursor ps tIn tMask tOut) in
        (done, mkCursor (0%nat :: position c') (tempIn c') (tempMask c') (tempOut c'))
  | _, _ => (true, c)
  end.

Definition origin_address (img : Image) : Z :=
  match Origin img with Some o => o | None => 0 end.

(** Lines 123-130 and 198-205: one call of the reducer and the store of its
    result, through the one-sample buffer when the output holds another type
    than the reducer produces. *)
Definition project_and_store (function : ProjectionScanFunction)
           (mem : Z -> V) (mmem : Z -> bin) (outImageType : DataType)
           (c : Cursor) : Z * V :=
  let v := Project function mem mmem (tempIn c) (tempMask c) in
  if negb (DataType_eqb (DataType_ (tempOut c)) outImageType)
  then (origin_address (tempOut c),
        CopyBuffer outImageType (DataType_ (tempOut c)) v)
  else (origin_address (tempOut c), v).

(** Lines 195-232: the [for( ;; )] loop over the output pixels. [visit] is
    the "do the thing" step at the top of the loop body. *)
Fixpoint scan_loop {W : Type} (fuel : nat) (visit : Cursor -> W)
         (hasMask : bool) (axes : list Axis) (c : Cursor)
  : option (list W) :=
  match fuel with
  | O => None
  | S fuel' =>
      let w := visit c in
      let '(done, c') := next_pixel hasMask axes c in
      if done then Some [w]
      else option_map (cons w) (scan_loop fuel' visit hasMask axes c')
  end.

Definition number_of_positions (axes : list Axis) : nat :=
  fold_right (fun a n => (axSize a * n)%nat) 1%nat axes.

(** Lines 96-105: the output is stripped when it overlaps an operand, then
    reforged to the output sizes, and receives the input's metadata.
    [ReshapeTensor] only restores the shape of the tensor, of which the
    header here keeps the number of elements. *)
Definition adjust_output (c_in c_out input mask : Image) (hasMask : bool)
           (outSizes : UnsignedArray) (outImageType : DataType) : Image :=
  let c_out :=
    if IsForged c_out
       && (IsOverlappingView c_out input
           || (hasMask && IsOverlappingView c_out mask))
    then Strip c_out else c_out in
  let c_out := ReForge c_out outSizes (TensorElements c_in) outImageType in
  let c_out := SetPixelSize c_out (PixelSize c_in) in
  SetColorSpace c_out (ColorSpace c_in).

(** The locals of [ProjectionScan] that the second half of the function
    works on. *)
Record Locals : Type := mkLocals {
  l_input : Image;
  l_mask : Image;
  l_output : Image;
  l_process : BooleanArray;
  l_outSizes : UnsignedArray;
  l_procSizes : UnsignedArray
}.

(** Lines 108-118. *)
Definition tensor_to_spatial (outTensor : nat) (hasMask : bool) (l : Locals)
  : Locals :=
  if Nat.ltb 1 outTensor then
    mkLocals (TensorToSpatial0 (l_input l))
             (if hasMask then TensorToSpatial0 (l_mask l) else l_mask l)
             (TensorToSpatial0 (l_output l))
             (false :: l_process l)
             (Sizes (TensorToSpatial0 (l_output l)))
             (1%nat :: l_procSizes l)
  else l.

(** Lines 141-182 and 194: the compacted axes and the cursor on the first
    output pixel. [nDims] is the value computed on line 43. *)
Definition scan_axes (nDims : nat) (hasMask : bool) (l : Locals) : list Axis :=
  let inStride := Strides (l_input l) in
  let maskStride := if hasMask then Strides (l_mask l) else repeat 0 nDims in
  let outStride := Strides (l_output l) in
  compact nDims (l_outSizes l) inStride maskStride outStride.

Definition scan_start (hasMask : bool) (l : Locals) (axes : list Axis)
  : Cursor :=
  let tempIn :=
    Squeeze (dip__SetOrigin (SetSizes (CopyProperties (l_input l)) (l_procSizes l))
                            (Origin (l_input l))) in
  let tempMask :=
    if hasMask then
      Squeeze (dip__SetOrigin (SetSizes (CopyProperties (l_mask l)) (l_procSizes l))
                              (Origin (l_mask l)))
    else RawImage in
  let tempOut :=
    dip__SetOrigin (SetSizes (CopyProperties (l_output l)) (map axSize axes))
                   (Origin (l_output l)) in
  let nDims := length axes in
  mkCursor (repeat 0%nat nDims) tempIn tempMask tempOut.

(** [ProjectionScan] with the reducer call abstracted into [visit]: the
    header [c_out] ends up with, and what [visit] produced at each output
    pixel, in program order. *)
Definition ProjectionScan_visit {W : Type} (visit : Cursor -> W)
           (c_in c_mask c_out : Image) (outImageType : DataType)
           (process : BooleanArray)
  : result (Image * list W) :=
  let inSizes := Sizes c_in in
  let nDims := length inSizes in
  (* Check inputs *)
  process <- check_process process nDims ;;
  let input := QuickCopy c_in in
  let outTensor := TensorElements c_in in
  (* Check mask, expand mask singleton dimensions if necessary *)
  mh <- check_mask c_mask inSizes ;;
  let '(mask, hasMask) := mh in
  (* Determine output sizes *)
  let '(process, outSizes, procSizes) := determine_sizes inSizes process in
  (* Is there anything to do? *)
  if negb (existsb (fun b => b) process) then
    Ok (c_in, [])
  else
    (* Adjust output if necessary (and possible) *)
    let c_out :=
      adjust_output c_in c_out input mask hasMask outSizes outImageType in
    let output := QuickCopy c_out in
    (* Do tensor to spatial dimension if necessary *)
    let l := tensor_to_spatial outTensor hasMask
               (mkLocals input mask output process outSizes procSizes) in
    (* Do we need to loop at all? *)
    if forallb (fun b => b) (l_process l) then
      Ok (c_out, [visit (mkCursor [] (l_input l) (l_mask l)
                                  (l_output l))])
    else
      let axes := scan_axes nDims hasMask l in
      (* Iterate over the pixels in the output image *)
      match scan_loop (number_of_positions axes) visit hasMask axes
                      (scan_start hasMask l axes) with
      | Some ws => Ok (c_out, ws)
      | None => OutOfFuel
      end.

(** Lines 34-235. *)
Definition ProjectionScan (mem : Z -> V) (mmem : Z -> bin)
           (c_in c_mask c_out : Image) (outImageType : DataType)
           (process : BooleanArray) (function : ProjectionScanFunction)
  : result Outcome :=
  r <- ProjectionScan_visit
         (project_and_store function mem mmem outImageType)
         c_in c_mask c_out outImageType process ;;
  Ok (mkOutcome (fst r) (snd r)).

(** The views handed to the reducer, one cursor per output pixel. *)
Definition ProjectionScan_views (c_in c_mask c_out : Image)
           (outImageType : DataType) (process : BooleanArray)
  : result (Image * list Cursor) :=
  ProjectionScan_visit (fun c => c) c_in c_mask c_out outImageType process.

End Framework.

(* ================================================================== *)
(** ** Reducers *)

Section Reducers.

Context {V : Type} {ops : SampleOps V}.

(** [ProjectionMean< TPI >]: lines 242-270. *)
Definition ProjectionMean_accumulate (mem : Z -> V) (mmem : Z -> bin)
           (img mask : Image) : V * nat :=
  if IsForged mask then
    fold_left (fun (acc : V * nat) (it : Z * Z) =>
                 if mmem (snd it)
                 then (add (fst acc) (mem (fst it)), S (snd acc))
                 else acc)
              (JointImageIterator img mask) (zero, 0%nat)
  else
    (fold_left (fun sum it => add sum (mem it)) (ImageIterator img) zero,
     NumberOfPixels img).

Definition ProjectionMean (computeMean : bool) : ProjectionScanFunction :=
  {| Project := fun mem mmem img mask =>
       let '(sum, n) := ProjectionMean_accumulate mem mmem img mask in
       if computeMean && Nat.ltb 0 n then div_count sum n else sum |}.

(** [ProjectionMeanDirectional< TPI >]: lines 277-297. *)
Definition ProjectionMeanDirectional : ProjectionScanFunction :=
  {| Project := fun mem mmem img mask =>
       let sum :=
         if IsForged mask then
           fold_left (fun sum (it : Z * Z) =>
                        if mmem (snd it)
                        then add sum (AngleToVector (mem (fst it)))
                        else sum)
                     (JointImageIterator img mask) zero
         else
           fold_left (fun sum it => add sum (AngleToVector (mem it)))
                     (ImageIterator img) zero in
       arg sum |}.

(** [ProjectionMaximum< TPI >]: lines 593-613. *)
Definition ProjectionMaximum (TPI : DataType) : ProjectionScanFunction :=
  {| Project := fun mem mmem img mask =>
       if IsForged mask then
         fold_left (fun max (it : Z * Z) =>
                      if mmem (snd it) then smax max (mem (fst it)) else max)
                   (JointImageIterator img mask) (numeric_lowest TPI)
       else
         fold_left (fun max it => smax max (mem it))
                   (ImageIterator img) (numeric_lowest TPI) |}.

(** [ProjectionMinimum< TPI >]: lines 630-650. *)
Definition ProjectionMinimum (TPI : DataType) : ProjectionScanFunction :=
  {| Project := fun mem mmem img mask =>
       if IsForged mask then
         fold_left (fun min (it : Z * Z) =>
                      if mmem (snd it) then smin min (mem (fst it)) else min)
                   (JointImageIterator img mask) (numeric_max TPI)
       else
         fold_left (fun min it => smin min (mem it))
                   (ImageIterator img) (numeric_max TPI) |}.

End Reducers.

(* ================================================================== *)
(** ** Public entry points *)

Section EntryPoints.

Context {V : Type} {ops : SampleOps V} {lib : ImageLibrary}.

Definition directional : string := "directional".

(** Modelled from the spec: the type dispatch macros of [overload.h], which
    "fail fast with UnsupportedType when the tag has no instantiation for
    the requested statistic" (spec section 9). [DIP_OVL_NEW_FLOAT] and
    [DIP_OVL_NEW_NONCOMPLEX] throw for a data type outside their family;
    [DIP_OVL_NEW_ALL] accepts every data type. *)
Definition DIP_OVL_NEW_FLOAT {A : Type} (f : A) (t : DataType) : result A :=
  if IsFloat t then Ok f else Throw DATA_TYPE_NOT_SUPPORTED.

Definition DIP_OVL_NEW_NONCOMPLEX {A : Type} (f : DataType -> A)
           (t : DataType) : result A :=
  if IsComplex t then Throw DATA_TYPE_NOT_SUPPORTED else Ok (f t).

Definition DIP_OVL_NEW_ALL {A : Type} (f : A) (t : DataType) : result A :=
  Ok f.

(** Lines 301-315. *)
Definition Mean (mem : Z -> V) (mmem : Z -> bin) (c_in mask out : Image)
           (mode : string) (process : BooleanArray) : result Outcome :=
  lineFilter <-
    (if String.eqb mode directional
     then DIP_OVL_NEW_FLOAT ProjectionMeanDirectional (DataType_ c_in)
     else DIP_OVL_NEW_ALL (ProjectionMean true) (DataType_ c_in)) ;;
  ProjectionScan mem mmem c_in mask out (SuggestFlex (DataType_ c_in))
                 process lineFilter.

(** Lines 317-326. *)
Definition Sum (mem : Z -> V) (mmem : Z -> bin) (c_in mask out : Image)
           (process : BooleanArray) : result Outcome :=
  lineFilter <- DIP_OVL_NEW_ALL (ProjectionMean false) (DataType_ c_in) ;;
  ProjectionScan mem mmem c_in mask out (SuggestFlex (DataType_ c_in))
                 process lineFilter.

(** Lines 617-626. *)
Definition Maximum (mem : Z -> V) (mmem : Z -> bin) (c_in mask out : Image)
           (process : BooleanArray) : result Outcome :=
  lineFilter <- DIP_OVL_NEW_NONCOMPLEX ProjectionMaximum (DataType_ c_in) ;;
  ProjectionScan mem mmem c_in mask out (DataType_ c_in) process lineFilter.

(** Lines 654-663. *)
Definition Minimum (mem : Z -> V) (mmem : Z -> bin) (c_in mask out : Image)
           (process : BooleanArray) : result Outcome :=
  lineFilter <- DIP_OVL_NEW_NONCOMPLEX ProjectionMinimum (DataType_ c_in) ;;
  ProjectionScan mem mmem c_in mask out (DataType_ c_in) process lineFilter.

(** Lines 665-679. [dfloat] is a binary64 float and [==] its IEEE
    comparison; the final [else] is empty, so [out] stays as it was. *)
Definition Percentile (mem : Z -> V) (mmem : Z -> bin) (c_in mask out : Image)
           (percentile : float) (process : BooleanArray) : result Outcome :=
  if PrimFloat.eqb percentile 0%float then
    Minimum mem mmem c_in mask out process
  else if PrimFloat.eqb percentile 100%float then
    Maximum mem mmem c_in mask out process
  else
    Ok (mkOutcome out []).

End EntryPoints.

(* ================================================================== *)
(** ** The other arithmetic reducers *)

(** The operations the product, absolute-value and square reducers need on
    top of [SampleOps]. *)
Class ArithmeticOps (V : Type) : Type := {
  (** [FlexType< TPI > product = 1.0] *)
  one : V;
  (** [product *= it.In()] *)
  mul : V -> V -> V;
  (** [std::abs] *)
  sabs : V -> V;
  (** [TPI v = it.In(); v * v], the product taken in the sample type *)
  square : DataType -> V -> V
}.

Section MoreReducers.

Context {V : Type} {ops : SampleOps V} {aops : ArithmeticOps V}.

(** [ProjectionProduct< TPI >]: lines 330-350. *)
Definition ProjectionProduct : ProjectionScanFunction :=
  {| Project := fun mem mmem img mask =>
       if IsForged mask then
         fold_left (fun product (it : Z * Z) =>
                      if mmem (snd it) then mul product (mem (fst it))
                      else product)
                   (JointImageIterator img mask) one
       else
         fold_left (fun product it => mul product (mem it))
                   (ImageIterator img) one |}.

(** [ProjectionMeanAbs< TPI >]: lines 367-395. *)
Definition ProjectionMeanAbs_accumulate (mem : Z -> V) (mmem : Z -> bin)
           (img mask : Image) : V * nat :=
  if IsForged mask then
    fold_left (fun (acc : V * nat) (it : Z * Z) =>
                 if mmem (snd it)
                 then (add (fst acc) (sabs (mem (fst it))), S (snd acc))
                 else acc)
              (JointImageIterator img mask) (zero, 0%nat)
  else
    (fold_left (fun sum it => add sum (sabs (mem it))) (ImageIterator img) zero,
     NumberOfPixels img).

Definition ProjectionMeanAbs (computeMean : bool) : ProjectionScanFunction :=
  {| Project := fun mem mmem img mask =>
       let '(sum, n) := ProjectionMeanAbs_accumulate mem mmem img mask in
       if computeMean && Nat.ltb 0 n then div_count sum n else sum |}.

(** [ProjectionMeanSquare< TPI >]: lines 431-461. *)
Definition ProjectionMeanSquare_accumulate (TPI : DataType)
           (mem : Z -> V) (mmem : Z -> bin) (img mask : Image) : V * nat :=
  if IsForged mask then
    fold_left (fun (acc : V * nat) (it : Z * Z) =>
                 if mmem (snd it)
                 then (let v := mem (fst it) in
                       (add (fst acc) (square TPI v), S (snd acc)))
                 else acc)
              (JointImageIterator img mask) (zero, 0%nat)
  else
    (fold_left (fun sum it => let v := mem it in add sum (square TPI v))
               (ImageIterator img) zero,
     NumberOfPixels img).

Definition ProjectionMeanSquare (computeMean : bool) (TPI : DataType)
  : ProjectionScanFunction :=
  {| Project := fun mem mmem img mask =>
       let '(sum, n) := ProjectionMeanSquare_accumulate TPI mem mmem img mask in
       if computeMean && Nat.ltb 0 n then div_count sum n else sum |}.

End MoreReducers.

Section MoreEntryPoints.

Context {V : Type} {ops : SampleOps V} {aops : ArithmeticOps V}
        {lib : ImageLibrary}.

Definition IsBinary (t : DataType) : bool :=
  match t with DT_BIN => true | _ => false end.

(** Modelled from the spec: the type dispatch macros of [overload.h] for
    the binary type and for every other type (spec section 9). *)
Definition DIP_OVL_NEW_BINARY {A : Type} (f : A) (t : DataType) : result A :=
  if IsBinary t then Ok f else Throw DATA_TYPE_NOT_SUPPORTED.

Definition DIP_OVL_NEW_NONBINARY {A : Type} (f : DataType -> A)
           (t : DataType) : result A :=
  if IsBinary t then Throw DATA_TYPE_NOT_SUPPORTED else Ok (f t).

(** Lines 354-363. *)
Definition Product (mem : Z -> V) (mmem : Z -> bin) (c_in mask out : Image)
           (process : BooleanArray) : result Outcome :=
  lineFilter <- DIP_OVL_NEW_ALL ProjectionProduct (DataType_ c_in) ;;
  ProjectionScan mem mmem c_in mask out (SuggestFlex (DataType_ c_in))
                 process lineFilter.

(** Lines 465-478. *)
Definition MeanSquare (mem : Z -> V) (mmem : Z -> bin) (c_in mask out : Image)
           (process : BooleanArray) : result Outcome :=
  lineFilter <-
    (if IsBinary (DataType_ c_in)
     then DIP_OVL_NEW_BINARY (ProjectionMean true) DT_BIN
     else DIP_OVL_NEW_NONBINARY (ProjectionMeanSquare true) (DataType_ c_in)) ;;
  ProjectionScan mem mmem c_in mask out (SuggestFlex (DataType_ c_in))
                 process lineFilter.

(** Lines 480-493. *)
Definition SumSquare (mem : Z -> V) (mmem : Z -> bin) (c_in mask out : Image)
           (process : BooleanArray) : result Outcome :=
  lineFilter <-
    (if IsBinary (DataType_ c_in)
     then DIP_OVL_NEW_BINARY (ProjectionMean false) DT_BIN
     else DIP_OVL_NEW_NONBINARY (ProjectionMeanSquare false) (DataType_ c_in)) ;;
  ProjectionScan mem mmem c_in mask out (SuggestFlex (DataType_ c_in))
                 process lineFilter.

End MoreEntryPoints.

(* ================================================================== *)
(** ** Directional dispersion over the reals *)

Module Directional.

Local Open Scope R_scope.

(** The source computes in binary floating point; here its operations are
    taken over the reals, without rounding, which is what the source
    computes at the inputs where they are exact, such as angles of 0 or an
    empty selection. *)

(** [std::log] and [std::sqrt] on the reals: [None] stands for a result that
    is not a finite real number (NaN or an infinity). *)
Definition std_log (x : R) : option R :=
  if Rlt_dec 0 x then Some (ln x) else None.

Definition std_sqrt (x : R) : option R :=
  if Rle_dec 0 x then Some (sqrt x) else None.

(** [AngleToVector]: lines 272-274. *)
Definition AngleToVector (v : R) : R * R := (cos v, sin v).

Definition cadd (a b : R * R) : R * R := (fst a + fst b, snd a + snd b).

(** [std::abs] of a complex number. *)
Definition cabs (c : R * R) : R := sqrt (fst c * fst c + snd c * snd c).

(** [ProjectionVarianceDirectional< TPI >::Project], lines 528-545: the
    vector sum and the count [n]. *)
Definition accumulate (mem : Z -> R) (mmem : Z -> bin) (img mask : Image)
  : (R * R) * nat :=
  if IsForged mask then
    fold_left (fun (acc : (R * R) * nat) (it : Z * Z) =>
                 if mmem (snd it)
                 then (cadd (fst acc) (AngleToVector (mem (fst it))),
                       S (snd acc))
                 else acc)
              (JointImageIterator img mask) ((0, 0), 0%nat)
  else
    (fold_left (fun sum it => cadd sum (AngleToVector (mem it)))
               (ImageIterator img) (0, 0),
     NumberOfPixels img).

(** Lines 546-549. *)
Definition Project (computeStD : bool) (mem : Z -> R) (mmem : Z -> bin)
           (img mask : Image) : option R :=
  let '(sum, n) := accumulate mem mmem img mask in
  let R := cabs sum in
  if computeStD then
    match std_log R with
    | Some l => std_sqrt (-2 * l)
    | None => None
    end
  else Some (1 - R).

(** The resultant length of spec section 4.2: [|sum| / n]. *)
Definition resultant_length (mem : Z -> R) (mmem : Z -> bin)
           (img mask : Image) : R :=
  let '(sum, n) := accumulate mem mmem img mask in
  cabs sum / INR n.

End Directional.

(* ================================================================== *)
(** ** A reference instance: exact rational samples, fresh outputs *)

Module Reference.

(** The limits of the integer sample types. *)
Definition integer_limits (t : DataType) : option (Z * Z) :=
  match t with
  | DT_UINT8 => Some (0, 255)
  | DT_SINT8 => Some (-128, 127)
  | DT_UINT16 => Some (0, 65535)
  | DT_SINT16 => Some (-32768, 32767)
  | DT_UINT32 => Some (0, 2 ^ 32 - 1)
  | DT_SINT32 => Some (- 2 ^ 31, 2 ^ 31 - 1)
  | _ => None
  end.

(** The largest finite [float] and [double]. *)
Definition FLT_MAX : Z := 2 ^ 128 - 2 ^ 104.
Definition DBL_MAX : Z := 2 ^ 1024 - 2 ^ 971.

Definition truncate (v : Q) : Z := Z.quot (Qnum v) (Zpos (Qden v)).

(** Modelled from the spec: the "single-value buffered copy/cast between
    two element types" of spec section 6. A cast to an integer type drops
    the fraction and saturates at the limits of the type, a cast to the
    binary type tells zero from non-zero, and a rational stands for a
    floating-point or complex sample as it is. *)
Definition clamp_cast (dst : DataType) (v : Q) : Q :=
  match dst with
  | DT_BIN => if Qeq_bool v 0 then 0%Q else 1%Q
  | _ =>
      match integer_limits dst with
      | Some (lo, hi) => inject_Z (Z.max lo (Z.min hi (truncate v)))
      | None => v
      end
  end.

(** Rational samples, kept in lowest terms, with exact sums and quotients:
    the instance computes what the code computes wherever the code's
    floating-point operations are exact. Rationals carry no angles: the two
    directional operations are inert here, and nothing below runs the
    directional mean on this instance. *)
#[export] Instance QOps : SampleOps Q := {|
  zero := 0%Q;
  add := fun a b => Qred (a + b);
  div_count := fun s n => Qred (s / inject_Z (Z.of_nat n));
  smax := fun a b => if Qle_bool a b then b else a;
  smin := fun a b => if Qle_bool a b then a else b;
  numeric_lowest := fun t =>
    match t with
    | DT_SFLOAT => inject_Z (- FLT_MAX)
    | DT_DFLOAT => inject_Z (- DBL_MAX)
    | _ =>
        match integer_limits t with
        | Some (lo, _) => inject_Z lo
        | None => 0%Q
        end
    end;
  numeric_max := fun t =>
    match t with
    | DT_BIN => 1%Q
    | DT_SFLOAT => inject_Z FLT_MAX
    | DT_DFLOAT => inject_Z DBL_MAX
    | _ =>
        match integer_limits t with
        | Some (_, hi) => inject_Z hi
        | None => 0%Q
        end
    end;
  AngleToVector := fun v => v;
  arg := fun v => v;
  CopyBuffer := fun _ dst v => clamp_cast dst v
|}.

Fixpoint normal_strides (s : Z) (sizes : UnsignedArray) : IntegerArray :=
  match sizes with
  | [] => []
  | n :: rest => s :: normal_strides (s * Z.of_nat n) rest
  end.

Lemma normal_strides_length z sizes :
  length (normal_strides z sizes) = length sizes.
Proof.
  revert z. induction sizes as [|n sizes IH]; intros z; simpl;
    [reflexivity|].
  rewrite IH. reflexivity.
Qed.

(** A freshly forged image: tensor stride 1, then the spatial strides. *)
Definition Forge (sz : UnsignedArray) (te : nat) (dt : DataType) : Image :=
  mkImage dt sz (normal_strides (Z.of_nat te) sz) te 1 EmptyString []
          (Some 0).

Fixpoint sizes_compatible (msz sz : UnsignedArray) : bool :=
  match msz, sz with
  | [], _ => true
  | m :: ms, s :: ss => (Nat.eqb m s || Nat.eqb m 1) && sizes_compatible ms ss
  | _ :: _, [] => false
  end.

Fixpoint expand_strides (msz : UnsignedArray) (mst : IntegerArray)
         (sz : UnsignedArray) : IntegerArray :=
  match sz with
  | [] => []
  | s :: ss =>
      match msz, mst with
      | m :: ms, t :: ts =>
          (if Nat.eqb m s then t else 0) :: expand_strides ms ts ss
      | _, _ => 0 :: expand_strides [] [] ss
      end
  end.

#[export] Instance Library : ImageLibrary.
Proof.
  refine {|
    CheckIsMask := fun img sz =>
      if negb (IsForged img) then Throw (LibraryError 0)
      else if negb (DataType_eqb (DataType_ img) DT_BIN)
           then Throw (LibraryError 1)
      else if negb (sizes_compatible (Sizes img) sz)
           then Throw (LibraryError 2)
      else Ok tt;
    ExpandSingletonDimensions := fun img sz =>
      if negb (IsForged img) then Throw (LibraryError 0)
      else Ok (mkImage (DataType_ img) sz
                       (expand_strides (Sizes img) (Strides img) sz)
                       (TensorElements img) (TensorStride img)
                       (ColorSpace img) (PixelSize img) (Origin img));
    IsOverlappingView := fun _ _ => false;
    ReForge := fun _ sz te dt => Forge sz te dt;
    SuggestFlex := fun t =>
      match t with
      | DT_DFLOAT | DT_UINT32 | DT_SINT32 => DT_DFLOAT
      | DT_SCOMPLEX => DT_SCOMPLEX
      | DT_DCOMPLEX => DT_DCOMPLEX
      | _ => DT_SFLOAT
      end;
    SuggestFloat := fun t =>
      match t with
      | DT_DFLOAT | DT_UINT32 | DT_SINT32 | DT_DCOMPLEX => DT_DFLOAT
      | _ => DT_SFLOAT
      end
  |}.
  - intros img sz img'. destruct (IsForged img); simpl; [|discriminate].
    intros H; injection H as <-; reflexivity.
  - reflexivity.
  - intros _ sz te dt. apply normal_strides_length.
  - reflexivity.
  - reflexivity.
Defined.

End Reference.


(* ================================================================== *)
(** ** The reference instance, continued *)

(** An order on the samples that [std::max] and [std::min] respect. *)
Class SampleOrder (V : Type) {ops : SampleOps V} : Type := {
  sle : V -> V -> Prop;
  sle_refl : forall a, sle a a;
  sle_trans : forall a b c, sle a b -> sle b c -> sle a c;
  smax_l : forall a b, sle a (smax a b);
  smax_r : forall a b, sle b (smax a b);
  smax_cases : forall a b, smax a b = a \/ smax a b = b;
  smin_l : forall a b, sle (smin a b) a;
  smin_r : forall a b, sle (smin a b) b;
  smin_cases : forall a b, smin a b = a \/ smin a b = b
}.

Module ReferenceArithmetic.

Import Reference.

(** An integer brought back into the range [lo .. hi] by wrapping around. *)
Definition wrap (lo hi : Z) (p : Q) : Q :=
  if Pos.eqb (Qden p) 1
  then inject_Z (lo + (Qnum p - lo) mod (hi - lo + 1))
  else p.

(** [square]: the product [v * v] is taken in [int] for the sample types
    narrower than [int] and in the sample type for the others. Where it
    leaves that type it wraps around, as unsigned arithmetic is defined to
    and as two's complement machines do for signed arithmetic. *)
#[export] Instance QArithmetic : ArithmeticOps Q := {|
  one := 1%Q;
  mul := fun a b => Qred (a * b);
  sabs := fun a => Qred (Qabs a);
  square := fun t v =>
    let p := Qred (v * v) in
    match t with
    | DT_UINT32 => wrap 0 (2 ^ 32 - 1) p
    | DT_UINT16 | DT_SINT32 => wrap (- 2 ^ 31) (2 ^ 31 - 1) p
    | _ => p
    end
|}.

#[export] Instance QOrder : SampleOrder Q.
Proof.
  refine {| sle := Qle |}; simpl.
  - apply Qle_refl.
  - apply Qle_trans.
  - intros a b. destruct (Qle_bool a b) eqn:E;
      [apply Qle_bool_iff; exact E|apply Qle_refl].
  - intros a b. destruct (Qle_bool a b) eqn:E; [apply Qle_refl|].
    apply Qlt_le_weak, Qnot_le_lt. intros H.
    apply Qle_bool_iff in H. congruence.
  - intros a b. destruct (Qle_bool a b); [right|left]; reflexivity.
  - intros a b. destruct (Qle_bool a b) eqn:E; [apply Qle_refl|].
    apply Qlt_le_weak, Qnot_le_lt. intros H.
    apply Qle_bool_iff in H. congruence.
  - intros a b. destruct (Qle_bool a b) eqn:E;
      [apply Qle_bool_iff; exact E|apply Qle_refl].
  - intros a b. destruct (Qle_bool a b); [left|right]; reflexivity.
Defined.

End ReferenceArithmetic.

(* ================================================================== *)
(** ** Vocabulary of the statements *)

(** The caller's request for dimension [i]: an empty selector asks for every
    dimension. *)
Definition selected (process : BooleanArray) (i : nat) : bool :=
  match process with
  | [] => true
  | _ => nth i process false
  end.

Definition valid_selector (process : BooleanArray) (c_in : Image) : Prop :=
  process = [] \/ length process = length (Sizes c_in).

(** The elements of a sub-view that take part in a reduction: those whose
    mask sample is true, or all of them when there is no mask. *)
Definition participating {V : Type} (mem : Z -> V) (mmem : Z -> bin)
           (img mask : Image) : list V :=
  if IsForged mask then
    map (fun it : Z * Z => mem (fst it))
        (filter (fun it : Z * Z => mmem (snd it)) (JointImageIterator img mask))
  else map mem (ImageIterator img).

Definition well_formed (img : Image) : Prop :=
  IsForged img = true /\ length (Strides img) = length (Sizes img).

(** The offset of a pixel: coordinates times strides. *)
Fixpoint dot (x : list nat) (strides : IntegerArray) : Z :=
  match x, strides with
  | xi :: x', s :: ss => Z.of_nat xi * s + dot x' ss
  | _, _ => 0
  end.

(** [x] is a coordinate vector inside an array of the given sizes. *)
Definition coords (x : list nat) (sizes : UnsignedArray) : Prop :=
  Forall2 (fun xi si => (xi < si)%nat) x sizes.

(** The addresses of the samples of channel [ch] of an image. *)
Definition channel_samples (img : Image) (ch : nat) : list Z :=
  map (fun d => origin_address img + Z.of_nat ch * TensorStride img + d)
      (offsets (Sizes img) (Strides img)).

(** A reducer is local when its result is a function of the samples of the
    view it is given. *)
Definition local_reducer {V : Type} (function : @ProjectionScanFunction V)
  : Prop :=
  forall (mem mem' : Z -> V) (mmem : Z -> bin) (vin vmask : Image),
    (forall a, In a (ImageIterator vin) -> mem' a = mem a) ->
    Project function mem' mmem vin vmask = Project function mem mmem vin vmask.

(** The number of elements folded into one output sample when there is no
    mask: the product of the sizes of the dimensions the selector collapses. *)
Fixpoint collapsed_pixels (sizes : UnsignedArray) (process : BooleanArray)
  : nat :=
  match sizes, process with
  | s :: ss, p :: ps => ((if p then s else 1) * collapsed_pixels ss ps)%nat
  | _, _ => 1%nat
  end.

Definition collapsed_count (process : BooleanArray) (c_in : Image) : nat :=
  collapsed_pixels (Sizes c_in)
                   (match process with
                    | [] => repeat true (length (Sizes c_in))
                    | _ => process
                    end).

(** Some dimension the selector asks for has more than one element: the
    projection has something to do. *)
Definition something_to_do (process : BooleanArray) (c_in : Image) : Prop :=
  exists i, (i < length (Sizes c_in))%nat
            /\ selected process i = true
            /\ nth i (Sizes c_in) 0%nat <> 1%nat.

(** What reaches the output sample when the reducer has produced [v] in the
    type [outImageType]: [v] itself when the output holds that type, its
    conversion by [CopyBuffer] through the one-sample buffer otherwise
    (lines 123-130 and 198-205). *)
Definition stored {V : Type} {ops : SampleOps V}
           (outImageType outType : DataType) (v : V) : V :=
  if DataType_eqb outType outImageType then v
  else CopyBuffer outImageType outType v.

(** The addresses of all the samples of an image, channel fastest. *)
Definition samples (img : Image) : list Z :=
  if Nat.ltb 1 (TensorElements img)
  then ImageIterator (TensorToSpatial0 img)
  else ImageIterator img.

(** The inputs on which the pixel loop steps along every dimension of the
    output: one channel, or a last dimension that is collapsed or has one
    element. *)
Definition fully_scanned (process : BooleanArray) (c_in : Image) : Prop :=
  (TensorElements c_in <= 1)%nat
  \/ selected process (length (Sizes c_in) - 1) = true
  \/ nth (length (Sizes c_in) - 1) (Sizes c_in) 0%nat = 1%nat.

(** Mixed-radix rank of a position, dimension 0 least significant. *)
Fixpoint rank (pos : list nat) (axes : list Axis) : nat :=
  match pos, axes with
  | p :: ps, a :: axes' => (p + axSize a * rank ps axes')%nat
  | _, _ => 0%nat
  end.

Definition valid_position (pos : list nat) (axes : list Axis) : Prop :=
  Forall2 (fun p a => (p < axSize a)%nat) pos axes.

(* ================================================================== *)
(** ** Concrete inputs on the reference instance *)

Module Runs.

Import Reference.

(** The 3x4x2, three-channel [uint8] image of the unit test: every pixel is
    (1,1,1) but the first, which is (2,3,4). *)
Definition img : Image :=
  mkImage DT_UINT8 [3; 4; 2]%nat [3; 9; 36] 3 1 EmptyString [] (Some 0).

Definition img_mem : Z -> Q :=
  fun a => if Z.eqb a 0 then 2%Q
           else if Z.eqb a 1 then 3%Q
           else if Z.eqb a 2 then 4%Q else 1%Q.

Definition no_mask : Image := RawImage.
Definition no_mask_mem : Z -> bin := fun _ => true.

(** A one-dimensional image holding 1, 2, 3 and a forged mask over it that
    selects the first element only. *)
Definition row : Image :=
  mkImage DT_SFLOAT [3]%nat [1] 1 1 EmptyString [] (Some 0).

Definition row_mem : Z -> Q := fun a => inject_Z (a + 1).

Definition first_only : Image :=
  mkImage DT_BIN [3]%nat [1] 1 1 EmptyString [] (Some 0).

Definition first_only_mem : Z -> bin := fun a => Z.eqb a 0.

(** A forged mask of the wrong shape: five elements for a row of three. *)
Definition too_long : Image :=
  mkImage DT_BIN [5]%nat [1] 1 1 EmptyString [] (Some 0).

(** A 1x3 image: dimension 0 is a singleton. *)
Definition flat : Image :=
  mkImage DT_SFLOAT [1; 3]%nat [1; 1] 1 1 EmptyString [] (Some 0).

(** Two equal angles. *)
Definition angles : Image :=
  mkImage DT_DFLOAT [2]%nat [1] 1 1 EmptyString [] (Some 0).

Definition angles_mem : Z -> R := fun _ => 0%R.

(** A library whose mask validation accepts whatever it is given; it shares
    everything else with the reference library. *)
Definition Lenient : ImageLibrary.
Proof.
  refine {|
    CheckIsMask := fun _ _ => Ok tt;
    ExpandSingletonDimensions := fun img sz => Ok (SetSizes img sz);
    IsOverlappingView := fun _ _ => false;
    ReForge := fun _ sz te dt => Forge sz te dt;
    SuggestFlex := @SuggestFlex Library;
    SuggestFloat := @SuggestFloat Library
  |}.
  - intros img sz img' H. injection H as <-. reflexivity.
  - reflexivity.
  - intros _ sz te dt. apply normal_strides_length.
  - reflexivity.
  - reflexivity.
Defined.

End Runs.

Module MoreRuns.

Import Reference.

(** A 2x3 single-channel image holding 1 .. 6, dimension 0 fastest. *)
Definition grid : Image :=
  mkImage DT_SFLOAT [2; 3]%nat [1; 2] 1 1 EmptyString [] (Some 0).

Definition grid_mem : Z -> Q := fun a => inject_Z (a + 1).

(** A forged mask of the shape of [Runs.flat]. *)
Definition flat_mask : Image :=
  mkImage DT_BIN [1; 3]%nat [1; 1] 1 1 EmptyString [] (Some 0).

(** Three bright samples, 200, 201 and 202, for [Runs.row]. *)
Definition bright_mem : Z -> Q := fun a => inject_Z (a + 200).

(** A forged one-pixel output of 8-bit unsigned samples. *)
Definition bytes : Image :=
  mkImage DT_UINT8 [1]%nat [1] 1 1 EmptyString [] (Some 0).

Fixpoint sizes_eqb (a b : UnsignedArray) : bool :=
  match a, b with
  | [], [] => true
  | x :: a', y :: b' => Nat.eqb x y && sizes_eqb a' b'
  | _, _ => false
  end.

Lemma sizes_eqb_eq a b : sizes_eqb a b = true -> a = b.
Proof.
  revert b. induction a as [|x a IH]; intros [|y b] H; simpl in H;
    try discriminate; [reflexivity|].
  apply andb_true_iff in H. destruct H as [Hx Hab].
  apply Nat.eqb_eq in Hx. f_equal; [exact Hx|apply IH; exact Hab].
Qed.

(** Whether [ReForge] finds the output as it is asked to make it, the
    element type aside. *)
Definition matches (o : Image) (sz : UnsignedArray) (te : nat) : bool :=
  IsForged o && sizes_eqb (Sizes o) sz && Nat.eqb (TensorElements o) te
  && Nat.eqb (length (Strides o)) (length sz).

(** A library whose output images are protected: a forged output that has
    the sizes and the channel count asked for is kept as it is, element
    type included, which [Option::AcceptDataTypeChange::DO_ALLOW] permits.
    It shares everything else with the reference library. *)
Definition Protecting : ImageLibrary.
Proof.
  refine {|
    CheckIsMask := @CheckIsMask Library;
    ExpandSingletonDimensions := @ExpandSingletonDimensions Library;
    IsOverlappingView := fun _ _ => false;
    ReForge := fun o sz te dt =>
      if matches o sz te then o else Forge sz te dt;
    SuggestFlex := @SuggestFlex Library;
    SuggestFloat := @SuggestFloat Library
  |}.
  - apply (@ExpandSingletonDimensions_Origin Library).
  - intros o sz te dt. unfold matches.
    destruct (IsForged o); [|reflexivity].
    destruct (sizes_eqb (Sizes o) sz) eqn:E; [|reflexivity].
    destruct (Nat.eqb (TensorElements o) te); [|reflexivity].
    destruct (Nat.eqb (length (Strides o)) (length sz)); [|reflexivity].
    apply sizes_eqb_eq. exact E.
  - intros o sz te dt. unfold matches.
    destruct (IsForged o); [|apply normal_strides_length].
    destruct (sizes_eqb (Sizes o) sz); [|apply normal_strides_length].
    destruct (Nat.eqb (TensorElements o) te); [|apply normal_strides_length].
    destruct (Nat.eqb (length (Strides o)) (length sz)) eqn:E;
      [|apply normal_strides_length].
    apply Nat.eqb_eq. exact E.
  - intros o sz te dt. unfold matches.
    destruct (IsForged o); [|reflexivity].
    destruct (sizes_eqb (Sizes o) sz); [|reflexivity].
    destruct (Nat.eqb (TensorElements o) te) eqn:E; [|reflexivity].
    destruct (Nat.eqb (length (Strides o)) (length sz)); [|reflexivity].
    apply Nat.eqb_eq. exact E.
  - intros o sz te dt. unfold matches.
    destruct (IsForged o) eqn:E; [|reflexivity].
    destruct (sizes_eqb (Sizes o) sz); [|reflexivity].
    destruct (Nat.eqb (TensorElements o) te); [|reflexivity].
    destruct (Nat.eqb (length (Strides o)) (length sz)); [|reflexivity].
    exact E.
Defined.

(** A forged mask over the two angles of [Runs.angles]. *)
Definition angles_mask : Image :=
  mkImage DT_BIN [2]%nat [1] 1 1 EmptyString [] (Some 0).

End MoreRuns.

Import Reference.
Import ReferenceArithmetic.

(* ================================================================== *)
(** * Properties *)

(** ** Percentile *)

Lemma float_ltb_eqb_false (x y : float) :
  PrimFloat.ltb x y = true -> PrimFloat.eqb x y = false.
Proof.
  rewrite FloatAxioms.ltb_spec, FloatAxioms.eqb_spec. unfold SFltb, SFeqb.
  destruct (SFcompare (Prim2SF x) (Prim2SF y)) as [[]|]; congruence.
Qed.

Lemma float_pos_eqb_zero_false (x : float) :
  PrimFloat.ltb 0%float x = true -> PrimFloat.eqb x 0%float = false.
Proof.
  rewrite FloatAxioms.ltb_spec, FloatAxioms.eqb_spec. unfold SFltb, SFeqb.
  replace (Prim2SF 0%float) with (S754_zero false) by reflexivity.
  destruct (Prim2SF x) as [s|s| |s m e]; simpl; try destruct s; congruence.
Qed.

Section PercentileProperties.

Context {V : Type} {ops : SampleOps V} {lib : ImageLibrary}.

(** C8. [Percentile] with percentile value 0 is [Minimum] and with percentile
    value 100 it is [Maximum], for every input array, mask and process
    selector: same header, same samples written, same exception. *)
Theorem Percentile_endpoints
        (mem : Z -> V) (mmem : Z -> bin) (c_in mask out : Image)
        (process : BooleanArray) :
  Percentile mem mmem c_in mask out 0%float process
    = Minimum mem mmem c_in mask out process
  /\ Percentile mem mmem c_in mask out 100%float process
    = Maximum mem mmem c_in mask out process.
Proof.
  split; reflexivity.
Qed.

(** C10. For a percentile value strictly between 0 and 100, [Percentile]
    returns normally, hands [out] back exactly as it was passed in and writes
    no sample. *)
Theorem Percentile_interior_leaves_out
        (mem : Z -> V) (mmem : Z -> bin) (c_in mask out : Image)
        (percentile : float) (process : BooleanArray) :
  PrimFloat.ltb 0%float percentile = true ->
  PrimFloat.ltb percentile 100%float = true ->
  Percentile mem mmem c_in mask out percentile process
    = Ok (mkOutcome out []).
Proof.
  intros Hlo Hhi. unfold Percentile.
  rewrite (float_pos_eqb_zero_false _ Hlo).
  rewrite (float_ltb_eqb_false _ _ Hhi).
  reflexivity.
Qed.

End PercentileProperties.

(* ================================================================== *)
(** ** The odometer *)

Section Odometer.

Lemma rank_lt pos axes :
  valid_position pos axes -> (rank pos axes < number_of_positions axes)%nat.
Proof.
  induction 1 as [|p a ps axes' Hp _ IH]; simpl; [lia|].
  fold (number_of_positions axes').
  pose proof (Nat.mul_le_mono_l _ _ (axSize a) IH) as Hm.
  rewrite Nat.mul_succ_r in Hm. lia.
Qed.

Lemma valid_position_zero axes :
  Forall (fun a => (0 < axSize a)%nat) axes ->
  valid_position (repeat 0%nat (length axes)) axes.
Proof.
  induction 1; simpl; constructor; auto.
Qed.

Lemma rank_zero axes : rank (repeat 0%nat (length axes)) axes = 0%nat.
Proof.
  induction axes as [|a axes IH]; simpl; [reflexivity|].
  rewrite IH. lia.
Qed.

(** One step of the odometer either moves to the position of the next rank
    or, from the last position, reports the end of the scan. *)
Lemma next_pixel_rank hasMask axes :
  forall c done c',
    valid_position (position c) axes ->
    next_pixel hasMask axes c = (done, c') ->
    (done = false ->
       valid_position (position c') axes
       /\ rank (position c') axes = S (rank (position c) axes))
    /\ (done = true ->
       S (rank (position c) axes) = number_of_positions axes).
Proof.
  induction axes as [|a axes IH]; intros c done c' Hv Hn.
  - simpl in Hn. injection Hn as <- <-. split; [discriminate|]. intros _.
    destruct (position c); reflexivity.
  - cbn [next_pixel] in Hn. unfold valid_position in Hv.
    destruct (position c) as [|p ps] eqn:Hpos; [inversion Hv|].
    apply Forall2_cons_iff in Hv. destruct Hv as [Hp Hps].
    destruct (Nat.eqb (S p) (axSize a)) eqn:E; cbn [negb] in Hn.
    + apply Nat.eqb_eq in E.
      destruct (next_pixel hasMask axes _) as [d c1] eqn:Hrec in Hn.
      apply IH in Hrec; [|exact Hps]. cbn [position] in Hrec.
      injection Hn as <- <-. cbn [position rank].
      destruct Hrec as [IHf IHt]. split.
      * intros ->. destruct (IHf eq_refl) as [Hv1 Hr1].
        split; [constructor; [lia|exact Hv1]|].
        rewrite Hr1. nia.
      * intros ->. specialize (IHt eq_refl).
        cbn [number_of_positions fold_right].
        fold (number_of_positions axes). nia.
    + apply Nat.eqb_neq in E.
      injection Hn as <- <-. cbn [position rank]. split; [|discriminate].
      intros _. split; [constructor; [lia|exact Hps]|lia].
Qed.

(** The scan terminates: one unit of fuel per output position is enough. *)
Lemma scan_loop_terminates {W : Type} (visit : Cursor -> W) hasMask axes :
  forall fuel c,
    valid_position (position c) axes ->
    (number_of_positions axes <= fuel + rank (position c) axes)%nat ->
    exists ws, scan_loop fuel visit hasMask axes c = Some ws.
Proof.
  induction fuel as [|fuel IH]; intros c Hv Hf.
  - pose proof (rank_lt _ _ Hv). lia.
  - simpl. destruct (next_pixel hasMask axes c) as [done c'] eqn:Hn.
    destruct (next_pixel_rank _ _ _ _ _ Hv Hn) as [Hfalse Htrue].
    destruct done.
    + eexists; reflexivity.
    + destruct (Hfalse eq_refl) as [Hv' Hr'].
      destruct (IH c' Hv') as [ws Hws]; [lia|].
      rewrite Hws. eexists; reflexivity.
Qed.

End Odometer.

(* ================================================================== *)
(** ** Validation and output shape *)

Section Prologue.

Context {V : Type} {ops : SampleOps V} {lib : ImageLibrary}.

Lemma check_process_Ok process nDims process' :
  check_process process nDims = Ok process' ->
  length process' = nDims
  /\ forall i, (i < nDims)%nat -> nth i process' false = selected process i.
Proof.
  unfold check_process. destruct process as [|b process]; simpl.
  - intros H; injection H as <-. split; [apply repeat_length|].
    intros i Hi. apply nth_repeat_lt. exact Hi.
  - destruct nDims as [|n]; simpl; [discriminate|].
    destruct (Nat.eqb (length process) n) eqn:E; simpl; [|discriminate].
    apply Nat.eqb_eq in E. intros H; injection H as <-.
    split; [simpl; congruence|reflexivity].
Qed.

Lemma check_process_valid process c_in :
  valid_selector process c_in ->
  exists process', check_process process (length (Sizes c_in)) = Ok process'.
Proof.
  unfold check_process. intros [-> | H]; simpl; [eexists; reflexivity|].
  destruct (Nat.eqb (length process) 0); [eexists; reflexivity|].
  rewrite H, Nat.eqb_refl. eexists; reflexivity.
Qed.

Lemma check_process_wrong_length process nDims :
  process <> [] -> length process <> nDims ->
  check_process process nDims = Throw ARRAY_PARAMETER_WRONG_LENGTH.
Proof.
  unfold check_process. intros Hne Hlen.
  destruct process as [|b process]; [congruence|]. simpl (Nat.eqb _ 0).
  apply Nat.eqb_neq in Hlen. rewrite Hlen. reflexivity.
Qed.

Lemma determine_sizes_spec :
  forall inSizes process,
    length process = length inSizes ->
    forall process' outSizes procSizes,
      determine_sizes inSizes process = (process', outSizes, procSizes) ->
      length process' = length inSizes
      /\ length outSizes = length inSizes
      /\ length procSizes = length inSizes
      /\ forall i, (i < length inSizes)%nat ->
           nth i process' false
             = (nth i process false && negb (Nat.eqb (nth i inSizes 0%nat) 1))
           /\ nth i outSizes 0%nat
                = (if nth i process' false then 1%nat else nth i inSizes 0%nat)
           /\ nth i procSizes 0%nat
                = (if nth i process' false then nth i inSizes 0%nat else 1%nat).
Proof.
  induction inSizes as [|s ss IH]; intros [|p ps] Hlen pr os qs Hd;
    simpl in Hlen; try discriminate.
  - simpl in Hd. injection Hd as <- <- <-. repeat split; simpl in *; lia.
  - simpl in Hd.
    destruct (determine_sizes ss ps) as [[pr1 os1] qs1] eqn:Hrec.
    injection Hlen as Hlen.
    destruct (IH ps Hlen _ _ _ Hrec) as (L1 & L2 & L3 & Hnth).
    destruct (Nat.eqb s 1) eqn:Es; [|destruct p];
      injection Hd as <- <- <-; simpl;
      (split; [congruence|]; split; [congruence|]; split; [congruence|];
       intros [|i] Hi; simpl; rewrite ?Es, ?andb_false_r;
       [repeat split; reflexivity | apply Hnth; lia]).
Qed.

Lemma existsb_id_false_nth (l : list bool) :
  existsb (fun b => b) l = false ->
  forall i, nth i l false = false.
Proof.
  induction l as [|b l IH]; simpl; intros H i.
  - destruct i; reflexivity.
  - apply orb_false_iff in H. destruct H as [-> H].
    destruct i; [reflexivity|]. apply IH. exact H.
Qed.

Lemma Sizes_adjust_output c_in c_out input mask hasMask outSizes t :
  Sizes (adjust_output c_in c_out input mask hasMask outSizes t) = outSizes.
Proof.
  unfold adjust_output, SetColorSpace, SetPixelSize. simpl.
  apply ReForge_Sizes.
Qed.

Lemma TensorElements_adjust_output c_in c_out input mask hasMask outSizes t :
  TensorElements (adjust_output c_in c_out input mask hasMask outSizes t)
    = TensorElements c_in.
Proof.
  unfold adjust_output, SetColorSpace, SetPixelSize. simpl.
  apply ReForge_TensorElements.
Qed.

Lemma compact_sizes nDims outSizes inStride maskStride outStride :
  Forall (fun a => (1 < axSize a)%nat)
         (compact nDims outSizes inStride maskStride outStride).
Proof.
  unfold compact. apply Forall_flat_map. apply Forall_forall. intros ii _.
  destruct (Nat.ltb 1 (nth ii outSizes 0%nat)) eqn:E; constructor; simpl.
  - apply Nat.ltb_lt. exact E.
  - constructor.
Qed.

(** With one unit of fuel per output position the pixel loop always runs to
    its end. *)
Lemma scan_loop_from_start {W : Type} (visit : Cursor -> W) nDims hasMask l :
  exists ws,
    scan_loop (number_of_positions (scan_axes nDims hasMask l)) visit hasMask
              (scan_axes nDims hasMask l)
              (scan_start hasMask l (scan_axes nDims hasMask l)) = Some ws.
Proof.
  apply scan_loop_terminates; unfold scan_start; cbn [position].
  - apply valid_position_zero.
    eapply Forall_impl; [|apply compact_sizes]. simpl. intros; lia.
  - rewrite rank_zero. lia.
Qed.

End Prologue.

Section Shape.

Context {V : Type} {ops : SampleOps V} {lib : ImageLibrary}.

(** Once both validations have passed, the scan returns: either the input
    itself when no dimension is left to process, or the reforged output and
    one visit per output pixel. *)
Lemma ProjectionScan_visit_returns {W : Type} (visit : Cursor -> W)
      c_in c_mask c_out t process process1 mask hasMask pr os qs :
  check_process process (length (Sizes c_in)) = Ok process1 ->
  check_mask c_mask (Sizes c_in) = Ok (mask, hasMask) ->
  determine_sizes (Sizes c_in) process1 = (pr, os, qs) ->
  (existsb (fun b => b) pr = false
   /\ ProjectionScan_visit visit c_in c_mask c_out t process = Ok (c_in, []))
  \/ (existsb (fun b => b) pr = true
      /\ exists ws,
          ProjectionScan_visit visit c_in c_mask c_out t process
            = Ok (adjust_output c_in c_out (QuickCopy c_in) mask hasMask os t,
                  ws)).
Proof.
  intros Hp Hm Hd. unfold ProjectionScan_visit.
  rewrite Hp. cbn [bind]. rewrite Hm. cbn [bind]. rewrite Hd.
  destruct (existsb (fun b => b) pr) eqn:E; cbn [negb].
  - right. split; [reflexivity|].
    match goal with
    | |- context [forallb _ ?p] => destruct (forallb (fun b => b) p)
    end.
    + eexists; reflexivity.
    + match goal with
      | |- context [scan_loop _ _ _ (scan_axes ?n ?h ?l) _] =>
          destruct (scan_loop_from_start visit n h l) as [ws Hws]
      end.
      rewrite Hws. eexists; reflexivity.
  - left. split; reflexivity.
Qed.

Lemma ProjectionScan_views_return c_in c_mask c_out t process mask hasMask :
  valid_selector process c_in ->
  check_mask c_mask (Sizes c_in) = Ok (mask, hasMask) ->
  exists out views,
    ProjectionScan_views c_in c_mask c_out t process = Ok (out, views).
Proof.
  intros Hsel Hm.
  destruct (check_process_valid _ _ Hsel) as [process1 Hp].
  destruct (determine_sizes (Sizes c_in) process1) as [[pr os] qs] eqn:Hd.
  unfold ProjectionScan_views.
  destruct (ProjectionScan_visit_returns (fun c => c) c_in c_mask c_out
              t process _ _ _ _ _ _ Hp Hm Hd)
    as [[_ ->] | [_ [ws ->]]]; eexists; eexists; reflexivity.
Qed.

(** C3. For a valid process selector (and a mask that passes validation),
    the projection returns an output of the input's dimensionality whose size
    is 1 in every dimension the selector collapses and the input's size in
    every other dimension. *)
Theorem ProjectionScan_output_shape
        (mem : Z -> V) (mmem : Z -> bin) (c_in c_mask c_out : Image)
        (outImageType : DataType) (process : BooleanArray)
        (function : ProjectionScanFunction) (mh : Image * bool) :
  valid_selector process c_in ->
  check_mask c_mask (Sizes c_in) = Ok mh ->
  exists o,
    ProjectionScan mem mmem c_in c_mask c_out outImageType process function
      = Ok o
    /\ length (Sizes (c_out_final o)) = length (Sizes c_in)
    /\ forall i, (i < length (Sizes c_in))%nat ->
         nth i (Sizes (c_out_final o)) 0%nat
           = if selected process i then 1%nat
             else nth i (Sizes c_in) 0%nat.
Proof.
  intros Hsel Hm. destruct mh as [mask hasMask].
  destruct (check_process_valid _ _ Hsel) as [process1 Hp].
  destruct (check_process_Ok _ _ _ Hp) as [Hlen Hreq].
  destruct (determine_sizes (Sizes c_in) process1) as [[pr os] qs] eqn:Hd.
  destruct (determine_sizes_spec _ _ Hlen _ _ _ Hd) as (_ & Los & _ & Hnth).
  unfold ProjectionScan.
  destruct (ProjectionScan_visit_returns
              (project_and_store function mem mmem outImageType)
              c_in c_mask c_out outImageType process _ _ _ _ _ _ Hp Hm Hd)
    as [[E ->] | [E [ws ->]]]; cbn [bind fst snd];
    eexists; (split; [reflexivity|]); cbn [c_out_final].
  - split; [reflexivity|]. intros i Hi.
    destruct (Hnth i Hi) as (Hpr & _ & _).
    rewrite (existsb_id_false_nth _ E), Hreq in Hpr by exact Hi.
    destruct (selected process i); [|reflexivity].
    simpl in Hpr. symmetry in Hpr. apply negb_false_iff, Nat.eqb_eq in Hpr.
    exact Hpr.
  - rewrite Sizes_adjust_output. split; [exact Los|]. intros i Hi.
    destruct (Hnth i Hi) as (Hpr & Hos & _).
    rewrite Hos, Hpr, Hreq by exact Hi.
    destruct (selected process i); simpl; [|reflexivity].
    destruct (Nat.eqb (nth i (Sizes c_in) 0%nat) 1) eqn:E1; simpl;
      [|reflexivity].
    apply Nat.eqb_eq in E1. exact E1.
Qed.

(** C4 (what the code does). When every dimension the selector asks for
    has size 1, nothing is left to process. Without a mask the projection
    hands the input back as the output, with no call of the reducer, no
    sample written and the output passed in left alone. With a mask it does
    so only after the validation of lines 65-72, which comes before the test
    of line 89 and is run on the raw local image of line 66: the supplied
    mask is not ignored, for its mere presence makes the outcome that of
    validating an image that is not forged, and where the library turns such
    an image down the call throws instead of returning the input. *)
Theorem ProjectionScan_nothing_to_do
        (mem : Z -> V) (mmem : Z -> bin) (c_in c_mask c_out : Image)
        (outImageType : DataType) (process : BooleanArray)
        (function : ProjectionScanFunction) :
  valid_selector process c_in ->
  (forall i, (i < length (Sizes c_in))%nat ->
             selected process i = true -> nth i (Sizes c_in) 0%nat = 1%nat) ->
  (IsForged c_mask = false ->
     ProjectionScan mem mmem c_in c_mask c_out outImageType process function
       = Ok (mkOutcome c_in []))
  /\ (IsForged c_mask = true ->
      ProjectionScan mem mmem c_in c_mask c_out outImageType process function
        = (_ <- CheckIsMask RawImage (Sizes c_in) ;;
           _ <- ExpandSingletonDimensions RawImage (Sizes c_in) ;;
           Ok (mkOutcome c_in []))
      /\ forall e,
           CheckIsMask RawImage (Sizes c_in) = Throw e ->
           ProjectionScan mem mmem c_in c_mask c_out outImageType process
                          function
             = Throw e).
Proof.
  intros Hsel Hone.
  destruct (check_process_valid _ _ Hsel) as [process1 Hp].
  destruct (check_process_Ok _ _ _ Hp) as [Hlen Hreq].
  destruct (determine_sizes (Sizes c_in) process1) as [[pr os] qs] eqn:Hd.
  destruct (determine_sizes_spec _ _ Hlen _ _ _ Hd) as (Lpr & _ & _ & Hnth).
  assert (E : existsb (fun b => b) pr = false).
  { destruct (existsb (fun b => b) pr) eqn:E; [|reflexivity].
    apply existsb_exists in E. destruct E as [b [Hin Hb]]. subst b.
    apply (In_nth _ _ false) in Hin. destruct Hin as [i [Hi Hi']].
    rewrite Lpr in Hi. destruct (Hnth i Hi) as (Hpr & _ & _).
    rewrite Hi', Hreq in Hpr by exact Hi.
    destruct (selected process i) eqn:Es; [|discriminate].
    rewrite (Hone i Hi Es) in Hpr. discriminate. }
  assert (Hscan :
            ProjectionScan mem mmem c_in c_mask c_out outImageType process
                           function
            = (_ <- check_mask c_mask (Sizes c_in) ;;
               Ok (mkOutcome c_in []))).
  { unfold ProjectionScan, ProjectionScan_visit.
    rewrite Hp. cbn [bind].
    destruct (check_mask c_mask (Sizes c_in)) as [[mask hasMask]|e|];
      cbn [bind]; try reflexivity.
    rewrite Hd, E. reflexivity. }
  rewrite Hscan. unfold check_mask, QuickCopy. split.
  - intros ->. reflexivity.
  - intros ->. split.
    + destruct (CheckIsMask RawImage (Sizes c_in)) as [[]|e|];
        cbn [bind]; try reflexivity.
      destruct (ExpandSingletonDimensions RawImage (Sizes c_in)) as [m|e|];
        reflexivity.
    + intros e ->. reflexivity.
Qed.

End Shape.

(* ================================================================== *)
(** ** What the pixel loop preserves *)

Section LoopInvariants.

(** A property of the cursor that every step of the odometer preserves holds
    at every visit. *)
Lemma scan_loop_Forall {W : Type} (visit : Cursor -> W)
      (Inv : Cursor -> Prop) (P : W -> Prop) hasMask axes :
  (forall c, Inv c -> P (visit c)) ->
  (forall c c', Inv c -> next_pixel hasMask axes c = (false, c') -> Inv c') ->
  forall fuel c ws,
    Inv c ->
    scan_loop fuel visit hasMask axes c = Some ws ->
    Forall P ws.
Proof.
  intros HP Hstep. induction fuel as [|fuel IH]; intros c ws Hc Hs.
  - discriminate.
  - cbn [scan_loop] in Hs.
    destruct (next_pixel hasMask axes c) as [[] c'] eqn:Hn.
    + injection Hs as <-. constructor; [apply HP; exact Hc|constructor].
    + destruct (scan_loop fuel visit hasMask axes c') as [ws'|] eqn:Hrec;
        [|discriminate].
      injection Hs as <-. constructor; [apply HP; exact Hc|].
      eapply IH; [|exact Hrec]. eapply Hstep; eassumption.
Qed.

(** The visits of two scans over the same cursors correspond one to one. *)
Lemma scan_loop_map {W : Type} (visit : Cursor -> W) hasMask axes :
  forall fuel c,
    scan_loop fuel visit hasMask axes c
      = option_map (map visit) (scan_loop fuel (fun c => c) hasMask axes c).
Proof.
  induction fuel as [|fuel IH]; intros c; [reflexivity|].
  cbn [scan_loop]. destruct (next_pixel hasMask axes c) as [[] c'].
  - reflexivity.
  - rewrite IH.
    destruct (scan_loop fuel (fun c0 => c0) hasMask axes c'); reflexivity.
Qed.

Lemma next_pixel_tempMask_raw hasMask axes :
  forall c done c',
    IsForged (tempMask c) = false ->
    next_pixel hasMask axes c = (done, c') ->
    IsForged (tempMask c') = false.
Proof.
  induction axes as [|a axes IH]; intros c done c' Hraw Hn.
  - cbn [next_pixel] in Hn. injection Hn as <- <-. exact Hraw.
  - cbn [next_pixel] in Hn.
    destruct (position c) as [|p ps]; [injection Hn as <- <-; exact Hraw|].
    assert (Hshift : forall img z,
               IsForged img = false -> IsForged (dip__ShiftOrigin img z) = false).
    { intros img z. unfold IsForged, dip__ShiftOrigin. simpl.
      destruct (Origin img); [discriminate|reflexivity]. }
    destruct (negb (Nat.eqb (S p) (axSize a))).
    + injection Hn as <- <-. cbn [tempMask].
      destruct hasMask; [apply Hshift|]; exact Hraw.
    + destruct (next_pixel hasMask axes _) as [d c1] eqn:Hrec in Hn.
      injection Hn as <- <-. cbn [tempMask].
      eapply IH; [|exact Hrec]. cbn [tempMask].
      destruct hasMask; [apply Hshift, Hshift|]; exact Hraw.
Qed.

End LoopInvariants.

(* ================================================================== *)
(** ** The mask *)

Section Mask.

Context {V : Type} {ops : SampleOps V} {lib : ImageLibrary}.

Lemma check_mask_raw c_mask inSizes mask hasMask :
  check_mask c_mask inSizes = Ok (mask, hasMask) ->
  IsForged mask = false.
Proof.
  unfold check_mask. destruct (IsForged c_mask).
  - unfold QuickCopy.
    destruct (CheckIsMask RawImage inSizes); cbn [bind]; try discriminate.
    destruct (ExpandSingletonDimensions RawImage inSizes) as [m| |] eqn:E;
      cbn [bind]; try discriminate.
    intros H; injection H as <- <-.
    apply ExpandSingletonDimensions_Origin in E.
    unfold IsForged. rewrite E. reflexivity.
  - intros H; injection H as <- <-. reflexivity.
Qed.

(** C1 (what the code does). Whatever mask the caller supplies, no reducer
    is ever handed a forged mask view: the local mask of [ProjectionScan] is
    a copy of a raw image, not of [c_mask], so every reducer runs its
    unmasked branch over all the elements of the sub-view. *)
Theorem ProjectionScan_mask_never_reaches_reducer
        (c_in c_mask c_out : Image) (outImageType : DataType)
        (process : BooleanArray) (out : Image) (views : list Cursor) :
  ProjectionScan_views c_in c_mask c_out outImageType process
    = Ok (out, views) ->
  Forall (fun c => IsForged (tempMask c) = false) views.
Proof.
  unfold ProjectionScan_views, ProjectionScan_visit.
  destruct (check_process process (length (Sizes c_in))) as [process1| |];
    cbn [bind]; try discriminate.
  destruct (check_mask c_mask (Sizes c_in)) as [[mask hasMask]| |] eqn:Hm;
    cbn [bind]; try discriminate.
  apply check_mask_raw in Hm.
  destruct (determine_sizes (Sizes c_in) process1) as [[pr os] qs].
  destruct (negb (existsb (fun b => b) pr)).
  { intros H; injection H as <- <-. constructor. }
  set (l := tensor_to_spatial _ _ _).
  assert (Hl : IsForged (l_mask l) = false).
  { subst l. unfold tensor_to_spatial.
    destruct (Nat.ltb 1 (TensorElements c_in)); cbn [l_mask]; [|exact Hm].
    destruct hasMask; exact Hm. }
  destruct (forallb (fun b => b) (l_process l)).
  { intros H; injection H as <- <-. constructor; [exact Hl|constructor]. }
  destruct (scan_loop _ _ _ _ _) as [ws|] eqn:Hs; [|discriminate].
  intros H; injection H as <- <-.
  eapply scan_loop_Forall with (Inv := fun c => IsForged (tempMask c) = false);
    [| |  |exact Hs].
  - intros c Hc. exact Hc.
  - intros c c' Hc Hn. eapply next_pixel_tempMask_raw; eassumption.
  - unfold scan_start. cbn [tempMask].
    destruct hasMask; [|reflexivity].
    unfold IsForged in *. simpl. destruct (Origin (l_mask l)); congruence.
Qed.

(** C6 (what the code does). A process selector of the wrong length is
    rejected with [E::ARRAY_PARAMETER_WRONG_LENGTH]; the shape of a supplied
    mask, however, plays no part: two forged masks of any shapes lead to
    the same result. *)
Theorem ProjectionScan_validation
        (mem : Z -> V) (mmem : Z -> bin) (c_in c_out : Image)
        (outImageType : DataType) (process : BooleanArray)
        (function : ProjectionScanFunction) :
  (forall c_mask,
      process <> [] -> length process <> length (Sizes c_in) ->
      ProjectionScan mem mmem c_in c_mask c_out outImageType process function
        = Throw ARRAY_PARAMETER_WRONG_LENGTH)
  /\ (forall mask1 mask2,
         IsForged mask1 = true -> IsForged mask2 = true ->
         ProjectionScan mem mmem c_in mask1 c_out outImageType process function
           = ProjectionScan mem mmem c_in mask2 c_out outImageType process
                            function).
Proof.
  split.
  - intros c_mask Hne Hlen. unfold ProjectionScan, ProjectionScan_visit.
    rewrite (check_process_wrong_length _ _ Hne Hlen). reflexivity.
  - intros mask1 mask2 H1 H2. unfold ProjectionScan, ProjectionScan_visit.
    assert (Hm : check_mask mask1 (Sizes c_in) = check_mask mask2 (Sizes c_in)).
    { unfold check_mask. rewrite H1, H2. reflexivity. }
    rewrite Hm. reflexivity.
Qed.

End Mask.

(* ================================================================== *)
(** ** The mean reducer *)

Section MeanReducer.

Context {V : Type} {ops : SampleOps V}.

Lemma length_offsets :
  forall sizes strides,
    length strides = length sizes ->
    length (offsets sizes strides) = fold_right Nat.mul 1%nat sizes.
Proof.
  induction sizes as [|s ss IH]; intros [|t ts] Hlen; simpl in Hlen;
    try discriminate; [reflexivity|].
  injection Hlen as Hlen. cbn [offsets fold_right]. rewrite <- (IH ts Hlen).
  generalize (offsets ss ts). intros l.
  induction l as [|r l IHl]; simpl; [lia|].
  rewrite length_app, length_map, length_seq, IHl. lia.
Qed.

Lemma length_ImageIterator img :
  well_formed img -> length (ImageIterator img) = NumberOfPixels img.
Proof.
  intros [Hf Hlen]. unfold ImageIterator, NumberOfPixels, IsForged in *.
  destruct (Origin img); [|discriminate].
  rewrite length_map. apply length_offsets. exact Hlen.
Qed.

Lemma masked_accumulate (mem : Z -> V) (mmem : Z -> bin) :
  forall (its : list (Z * Z)) (sum : V) (n : nat),
    fold_left (fun (acc : V * nat) (it : Z * Z) =>
                 if mmem (snd it)
                 then (add (fst acc) (mem (fst it)), S (snd acc))
                 else acc) its (sum, n)
    = (fold_left add
         (map (fun it : Z * Z => mem (fst it))
              (filter (fun it : Z * Z => mmem (snd it)) its)) sum,
       (n + length (filter (fun it : Z * Z => mmem (snd it)) its))%nat).
Proof.
  induction its as [|it its IH]; intros sum n; simpl.
  - f_equal. lia.
  - destruct (mmem (snd it)); simpl; rewrite IH; f_equal; lia.
Qed.

(** The running sum and the count of [ProjectionMean] are the sum and the
    number of the participating elements. *)
Lemma ProjectionMean_accumulate_spec mem mmem img mask :
  well_formed img ->
  ProjectionMean_accumulate mem mmem img mask
    = (fold_left add (participating mem mmem img mask) zero,
       length (participating mem mmem img mask)).
Proof.
  intros Hwf. unfold ProjectionMean_accumulate, participating.
  destruct (IsForged mask).
  - rewrite masked_accumulate, length_map. reflexivity.
  - rewrite length_map, (length_ImageIterator _ Hwf). f_equal.
    generalize (ImageIterator img) (@zero V ops).
    induction l as [|a l IH]; intros z; simpl; [reflexivity|apply IH].
Qed.

(** C5. The Mean reducer writes the running sum divided by the number [n] of
    participating elements when [n > 0], and the untouched running sum, which
    is then 0, when no element participates. *)
Theorem ProjectionMean_Project_mean
        (mem : Z -> V) (mmem : Z -> bin) (img mask : Image) :
  well_formed img ->
  let xs := participating mem mmem img mask in
  ((0 < length xs)%nat ->
     Project (ProjectionMean true) mem mmem img mask
       = div_count (fold_left add xs zero) (length xs))
  /\ (length xs = 0%nat ->
        Project (ProjectionMean true) mem mmem img mask = zero).
Proof.
  intros Hwf xs. cbn [Project ProjectionMean].
  rewrite (ProjectionMean_accumulate_spec _ _ _ _ Hwf). fold xs.
  cbn [andb]. split.
  - intros Hn. apply Nat.ltb_lt in Hn. rewrite Hn. reflexivity.
  - intros Hn. rewrite Hn. cbn [Nat.ltb Nat.leb].
    destruct xs; [reflexivity|discriminate].
Qed.

End MeanReducer.

(* ================================================================== *)
(** ** The views handed to the reducer *)

Section Views.

Context {V : Type} {ops : SampleOps V} {lib : ImageLibrary}.

(** The scan is the list of its views with the reducer applied to each. *)
Lemma ProjectionScan_as_views mem mmem c_in c_mask c_out t process function :
  ProjectionScan mem mmem c_in c_mask c_out t process function
    = (r <- ProjectionScan_views c_in c_mask c_out t process ;;
       Ok (mkOutcome (fst r)
                     (map (project_and_store function mem mmem t) (snd r)))).
Proof.
  unfold ProjectionScan, ProjectionScan_views, ProjectionScan_visit.
  destruct (check_process process (length (Sizes c_in))) as [process1| |];
    cbn [bind]; try reflexivity.
  destruct (check_mask c_mask (Sizes c_in)) as [[mask hasMask]| |];
    cbn [bind]; try reflexivity.
  destruct (determine_sizes (Sizes c_in) process1) as [[pr os] qs].
  destruct (negb (existsb (fun b => b) pr)); [reflexivity|].
  destruct (forallb _ _); [reflexivity|].
  rewrite scan_loop_map.
  destruct (scan_loop _ (fun c => c) _ _ _); reflexivity.
Qed.

(** The three ways [ProjectionScan] can return. *)
Lemma ProjectionScan_views_inv c_in c_mask c_out t process out views :
  ProjectionScan_views c_in c_mask c_out t process = Ok (out, views) ->
  exists process1 mask hasMask pr os qs,
    check_process process (length (Sizes c_in)) = Ok process1
    /\ check_mask c_mask (Sizes c_in) = Ok (mask, hasMask)
    /\ determine_sizes (Sizes c_in) process1 = (pr, os, qs)
    /\ ((existsb (fun b => b) pr = false /\ out = c_in /\ views = [])
        \/ (existsb (fun b => b) pr = true
            /\ out = adjust_output c_in c_out c_in mask hasMask os t
            /\ let l := tensor_to_spatial (TensorElements c_in) hasMask
                          (mkLocals c_in mask out pr os qs) in
               let axes := scan_axes (length (Sizes c_in)) hasMask l in
               (forallb (fun b => b) (l_process l) = true
                /\ views = [mkCursor [] (l_input l) (l_mask l) (l_output l)])
               \/ (forallb (fun b => b) (l_process l) = false
                   /\ scan_loop (number_of_positions axes) (fun c => c)
                                hasMask axes (scan_start hasMask l axes)
                      = Some views))).
Proof.
  unfold ProjectionScan_views, ProjectionScan_visit, QuickCopy.
  destruct (check_process process (length (Sizes c_in))) as [process1| |]
    eqn:Hp; cbn [bind]; try discriminate.
  destruct (check_mask c_mask (Sizes c_in)) as [[mask hasMask]| |] eqn:Hm;
    cbn [bind]; try discriminate.
  destruct (determine_sizes (Sizes c_in) process1) as [[pr os] qs] eqn:Hd.
  intros H. exists process1, mask, hasMask, pr, os, qs.
  do 3 (split; [first [reflexivity | eassumption]|]).
  destruct (existsb (fun b => b) pr); cbn [negb] in H.
  - right. split; [reflexivity|].
    destruct (forallb _ _) eqn:Eall.
    + injection H as <- <-. split; [reflexivity|]. cbv zeta. left.
      split; [exact Eall|reflexivity].
    + destruct (scan_loop _ _ _ _ _) as [ws|] eqn:Hs; [|discriminate].
      injection H as <- <-. split; [reflexivity|]. cbv zeta. right.
      split; [exact Eall|exact Hs].
  - left. injection H as <- <-. repeat split.
Qed.

End Views.

(* ================================================================== *)
(** ** Where the cursor points *)

Section CursorOrigins.

Lemma ShiftOrigin_ShiftOrigin img a b :
  dip__ShiftOrigin (dip__ShiftOrigin img a) b = dip__ShiftOrigin img (a + b).
Proof.
  unfold dip__ShiftOrigin, dip__SetOrigin. simpl.
  destruct (Origin img); simpl; [|reflexivity].
  do 2 f_equal. lia.
Qed.

Lemma ShiftOrigin_0 img : dip__ShiftOrigin img 0 = img.
Proof.
  destruct img as [dt sz st te ts cs ps [o|]];
    unfold dip__ShiftOrigin, dip__SetOrigin; simpl; [|reflexivity].
  rewrite Z.add_0_r. reflexivity.
Qed.

Lemma dot_zeros n strides : dot (repeat 0%nat n) strides = 0.
Proof.
  revert strides. induction n as [|n IH]; intros [|s ss]; simpl;
    try reflexivity.
  apply IH.
Qed.

(** Every step keeps the input and output views at the base view shifted by
    the position along the compacted strides. *)
Lemma next_pixel_origins hasMask (Ti To : Image) axes :
  forall c c',
    tempIn c = dip__ShiftOrigin Ti (dot (position c) (map axIn axes)) ->
    tempOut c = dip__ShiftOrigin To (dot (position c) (map axOut axes)) ->
    next_pixel hasMask axes c = (false, c') ->
    tempIn c' = dip__ShiftOrigin Ti (dot (position c') (map axIn axes))
    /\ tempOut c' = dip__ShiftOrigin To (dot (position c') (map axOut axes)).
Proof.
  induction axes as [|a axes IH]; intros c c' Hi Ho Hn.
  - cbn [next_pixel] in Hn. discriminate.
  - cbn [next_pixel] in Hn.
    destruct (position c) as [|p ps] eqn:Hpos; [discriminate|].
    cbn [map dot] in Hi, Ho.
    destruct (negb (Nat.eqb (S p) (axSize a))).
    + injection Hn as <-. cbn [position tempIn tempOut map dot].
      rewrite Hi, Ho, !ShiftOrigin_ShiftOrigin.
      split; f_equal; lia.
    + destruct (next_pixel hasMask axes _) as [d c1] eqn:Hrec in Hn.
      injection Hn as -> <-. cbn [position tempIn tempOut map dot].
      apply IH in Hrec; cbn [position tempIn tempOut].
      * destruct Hrec as [-> ->]. split; f_equal; lia.
      * rewrite Hi, !ShiftOrigin_ShiftOrigin. f_equal. lia.
      * rewrite Ho, !ShiftOrigin_ShiftOrigin. f_equal. lia.
Qed.

(** What holds at every visit of a scan started on the first pixel. *)
Lemma scan_loop_views hasMask axes Ti Tm To :
  Forall (fun a => (0 < axSize a)%nat) axes ->
  forall fuel views,
    scan_loop fuel (fun c => c) hasMask axes
              (mkCursor (repeat 0%nat (length axes)) Ti Tm To) = Some views ->
    Forall (fun c =>
              valid_position (position c) axes
              /\ tempIn c
                 = dip__ShiftOrigin Ti (dot (position c) (map axIn axes))
              /\ tempOut c
                 = dip__ShiftOrigin To (dot (position c) (map axOut axes)))
           views.
Proof.
  intros Hpos fuel views Hs.
  eapply scan_loop_Forall with (visit := fun c : Cursor => c); [| | |exact Hs].
  - intros c Hc. exact Hc.
  - intros c c' (Hv & Hi & Ho) Hn.
    destruct (next_pixel_rank _ _ _ _ _ Hv Hn) as [Hf _].
    destruct (Hf eq_refl) as [Hv' _].
    destruct (next_pixel_origins _ _ _ _ _ _ Hi Ho Hn) as [Hi' Ho'].
    repeat split; assumption.
  - cbn [position tempIn tempOut]. rewrite !dot_zeros, !ShiftOrigin_0.
    split; [apply valid_position_zero; exact Hpos|split; reflexivity].
Qed.

End CursorOrigins.

(* ================================================================== *)
(** ** The store of a result *)

Section Store.

Context {V : Type} {ops : SampleOps V} {lib : ImageLibrary}.

Lemma squeeze_length sizes strides :
  length (snd (squeeze sizes strides)) = length (fst (squeeze sizes strides)).
Proof.
  revert strides. induction sizes as [|s ss IH]; intros [|t ts]; simpl;
    try reflexivity.
  destruct (Nat.eqb s 1); simpl; [apply IH|f_equal; apply IH].
Qed.

Lemma well_formed_ShiftOrigin img z :
  well_formed img -> well_formed (dip__ShiftOrigin img z).
Proof.
  unfold well_formed, IsForged, dip__ShiftOrigin. simpl.
  destruct (Origin img); simpl; intros [H1 H2]; split; congruence.
Qed.

Lemma tensor_to_spatial_input te hasMask l :
  well_formed (l_input l) ->
  well_formed (l_input (tensor_to_spatial te hasMask l)).
Proof.
  unfold tensor_to_spatial. destruct (Nat.ltb 1 te); [|exact (fun H => H)].
  unfold well_formed, IsForged. simpl. intros [H1 H2]. split; congruence.
Qed.

Lemma tensor_to_spatial_output_DataType te hasMask l :
  DataType_ (l_output (tensor_to_spatial te hasMask l)) = DataType_ (l_output l).
Proof.
  unfold tensor_to_spatial. destruct (Nat.ltb 1 te); reflexivity.
Qed.

(** Every view the reducer receives is a forged view of the input, and the
    output sample it fills has the element type of the output image. *)
Lemma views_well_formed c_in c_mask c_out t process out views :
  well_formed c_in ->
  ProjectionScan_views c_in c_mask c_out t process = Ok (out, views) ->
  Forall (fun c => well_formed (tempIn c)
                   /\ DataType_ (tempOut c) = DataType_ out) views.
Proof.
  intros Hwf H.
  destruct (ProjectionScan_views_inv _ _ _ _ _ _ _ H)
    as (process1 & mask & hasMask & pr & os & qs & _ & _ & _ & Hcases).
  destruct Hcases as [(_ & _ & ->) | (_ & Hout & Hloop)]; [constructor|].
  cbv zeta in Hloop.
  set (l := tensor_to_spatial _ _ _) in Hloop.
  assert (Hin : well_formed (l_input l))
    by (apply tensor_to_spatial_input; exact Hwf).
  assert (Hdt : DataType_ (l_output l) = DataType_ out).
  { subst l. rewrite tensor_to_spatial_output_DataType. reflexivity. }
  destruct Hloop as [(_ & ->) | (_ & Hs)].
  - constructor; [|constructor]. split; assumption.
  - unfold scan_start in Hs. cbv zeta in Hs.
    apply scan_loop_views in Hs.
    + eapply Forall_impl; [|exact Hs]. intros c (_ & -> & ->). split.
      * apply well_formed_ShiftOrigin. destruct Hin as [Hf _].
        split; [exact Hf|]. cbn [Squeeze Strides Sizes].
        apply squeeze_length.
      * exact Hdt.
    + eapply Forall_impl; [|apply compact_sizes]. simpl. intros; lia.
Qed.

(** The store of lines 123-130 and 198-205, in one formula. *)
Lemma project_and_store_stored function mem mmem t c :
  project_and_store function mem mmem t c
    = (origin_address (tempOut c),
       stored t (DataType_ (tempOut c))
              (Project function mem mmem (tempIn c) (tempMask c))).
Proof.
  unfold project_and_store, stored.
  destruct (DataType_eqb (DataType_ (tempOut c)) t); reflexivity.
Qed.

Lemma DataType_eqb_refl t : DataType_eqb t t = true.
Proof. destruct t; reflexivity. Qed.

Lemma stored_same t (v : V) : stored t t v = v.
Proof. unfold stored. rewrite DataType_eqb_refl. reflexivity. Qed.

End Store.

(* ================================================================== *)
(** ** Directional dispersion *)

Section DirectionalDispersion.

Local Open Scope R_scope.

Lemma directional_sum_identical (mem : Z -> R) (theta : R) :
  forall (its : list Z) (sum : R * R),
    (forall a, In a its -> mem a = theta) ->
    fold_left (fun sum it =>
                 Directional.cadd sum (Directional.AngleToVector (mem it)))
              its sum
    = (fst sum + INR (length its) * cos theta,
       snd sum + INR (length its) * sin theta).
Proof.
  induction its as [|a its IH]; intros [x y] Hmem.
  - simpl. f_equal; ring.
  - cbn [fold_left]. rewrite IH by (intros b Hb; apply Hmem; right; exact Hb).
    rewrite (Hmem a) by (left; reflexivity).
    cbn [length]. rewrite S_INR.
    unfold Directional.cadd, Directional.AngleToVector. cbn [fst snd].
    f_equal; ring.
Qed.

Lemma cabs_scaled_unit (r theta : R) :
  0 <= r -> Directional.cabs (0 + r * cos theta, 0 + r * sin theta) = r.
Proof.
  intros Hr. unfold Directional.cabs. cbn [fst snd].
  replace ((0 + r * cos theta) * (0 + r * cos theta)
           + (0 + r * sin theta) * (0 + r * sin theta))
    with (r * r * (Rsqr (sin theta) + Rsqr (cos theta)))
    by (unfold Rsqr; ring).
  rewrite sin2_cos2, Rmult_1_r. apply sqrt_square. exact Hr.
Qed.

(** C2 (what the code does). The count [n] is accumulated but never used:
    the code takes [R = |sum|], not [|sum| / n]. Over [n] identical angles
    the resultant has length [n], so the directional variance comes out as
    [1 - n], and for [n > 1] the standard deviation is the square root of a
    negative number, where the resultant length of the specification is 1
    and both dispersions are 0. *)
Theorem directional_variance_identical_angles
        (mem : Z -> R) (mmem : Z -> bin) (img : Image) (theta : R) :
  well_formed img ->
  (forall a, In a (ImageIterator img) -> mem a = theta) ->
  Directional.Project false mem mmem img RawImage
    = Some (1 - INR (NumberOfPixels img))
  /\ ((2 <= NumberOfPixels img)%nat ->
      Directional.Project true mem mmem img RawImage = None)
  /\ ((0 < NumberOfPixels img)%nat ->
      Directional.resultant_length mem mmem img RawImage = 1).
Proof.
  intros Hwf Hmem.
  unfold Directional.Project, Directional.resultant_length,
    Directional.accumulate.
  cbn [IsForged RawImage Origin].
  rewrite (directional_sum_identical mem theta _ _ Hmem). cbn [fst snd].
  rewrite (length_ImageIterator _ Hwf).
  rewrite cabs_scaled_unit by apply pos_INR.
  split; [reflexivity|]. split.
  - intros Hn. apply le_INR in Hn. simpl in Hn.
    unfold Directional.std_log, Directional.std_sqrt.
    destruct (Rlt_dec 0 (INR (NumberOfPixels img))) as [Hpos|Hpos]; [|lra].
    assert (Hln : 0 < ln (INR (NumberOfPixels img))).
    { rewrite <- ln_1. apply ln_increasing; lra. }
    destruct (Rle_dec 0 (-2 * ln (INR (NumberOfPixels img)))); [lra|].
    reflexivity.
  - intros Hn. field. apply not_0_INR. lia.
Qed.

End DirectionalDispersion.

(* ================================================================== *)
(** ** Coordinates and offsets *)

Section Coordinates.

(** The offsets of a view are the coordinate vectors within its sizes,
    multiplied by its strides. *)
Lemma In_offsets :
  forall sizes strides,
    length strides = length sizes ->
    forall d, In d (offsets sizes strides)
              <-> exists x, coords x sizes /\ d = dot x strides.
Proof.
  induction sizes as [|s ss IH]; intros [|t ts] Hlen d; simpl in Hlen;
    try discriminate.
  - simpl. split.
    + intros [<-|[]]. exists []. split; [constructor|reflexivity].
    + intros (x & Hx & ->). inversion Hx. left. reflexivity.
  - injection Hlen as Hlen. cbn [offsets]. rewrite in_flat_map. split.
    + intros (rest & Hrest & Hd). apply in_map_iff in Hd.
      destruct Hd as (i & <- & Hi). apply in_seq in Hi.
      apply (IH ts Hlen) in Hrest. destruct Hrest as (x & Hx & ->).
      exists (i :: x). split; [constructor; [lia|exact Hx]|reflexivity].
    + intros (x & Hx & ->). inversion Hx as [|xi si x' ss' Hxi Hx']; subst.
      exists (dot x' ts). split.
      * apply (IH ts Hlen). exists x'. split; [exact Hx'|reflexivity].
      * apply in_map_iff. exists xi. split; [reflexivity|].
        apply in_seq. lia.
Qed.

Lemma coords_zeros sizes :
  Forall (fun s => (1 <= s)%nat) sizes ->
  coords (repeat 0%nat (length sizes)) sizes.
Proof.
  induction 1; simpl; constructor; [lia|assumption].
Qed.

(** Coordinates in a squeezed view are coordinates in the view itself, with
    0 along the dropped singleton dimensions. *)
Lemma coords_squeeze :
  forall sizes strides x,
    length strides = length sizes ->
    coords x (fst (squeeze sizes strides)) ->
    exists x', coords x' sizes
               /\ dot x' strides = dot x (snd (squeeze sizes strides)).
Proof.
  induction sizes as [|s ss IH]; intros [|t ts] x Hlen Hx; simpl in Hlen;
    try discriminate.
  - simpl in Hx. inversion Hx. exists []. split; [constructor|reflexivity].
  - injection Hlen as Hlen. cbn [squeeze] in Hx |- *.
    destruct (Nat.eqb s 1) eqn:Es.
    + apply Nat.eqb_eq in Es. destruct (IH ts x Hlen Hx) as (x' & Hx' & Hd).
      exists (0%nat :: x'). split; [constructor; [lia|exact Hx']|].
      cbn [dot]. rewrite Hd. lia.
    + cbn [fst snd] in Hx |- *.
      inversion Hx as [|xi si x0 ss' Hxi Hx0]; subst.
      destruct (IH ts x0 Hlen Hx0) as (x' & Hx' & Hd).
      exists (xi :: x'). split; [constructor; assumption|].
      cbn [dot]. rewrite Hd. reflexivity.
Qed.

Lemma flat_map_map {A B C : Type} (f : B -> list C) (g : A -> B) l :
  flat_map f (map g l) = flat_map (fun a => f (g a)) l.
Proof.
  induction l as [|a l IH]; simpl; [reflexivity|]. rewrite IH. reflexivity.
Qed.

Lemma nth_S_tl {A : Type} i (l : list A) d : nth (S i) l d = nth i (tl l) d.
Proof.
  destruct l; [destruct i|]; reflexivity.
Qed.

(** One round of the compaction loop. *)
Lemma compact_S n sizes ains amask aout :
  compact (S n) sizes ains amask aout
    = (if Nat.ltb 1 (hd 0%nat sizes)
       then [mkAxis (hd 0%nat sizes) (hd 0 ains) (hd 0 amask) (hd 0 aout)]
       else [])
      ++ compact n (tl sizes) (tl ains) (tl amask) (tl aout).
Proof.
  unfold compact. rewrite <- cons_seq, <- seq_shift. cbn [flat_map].
  rewrite flat_map_map. f_equal.
  - destruct sizes, ains, amask, aout; reflexivity.
  - apply flat_map_ext. intros i. rewrite !nth_S_tl. reflexivity.
Qed.

Lemma compact_nil n ains amask aout : compact n [] ains amask aout = [].
Proof.
  unfold compact. generalize (seq 0 n). intros l.
  induction l as [|i l IH]; cbn [flat_map]; [reflexivity|].
  rewrite IH. destruct i; reflexivity.
Qed.

(** A position of the compacted iteration space is a coordinate vector of
    the output, with 0 along the dimensions the compaction left out; the
    shifts of the input and output views are its offsets. *)
Lemma compact_coords :
  forall sizes n ains amask aout pos,
    Forall (fun s => (1 <= s)%nat) sizes ->
    length ains = length sizes ->
    length aout = length sizes ->
    valid_position pos (compact n sizes ains amask aout) ->
    exists x,
      coords x sizes
      /\ dot x ains = dot pos (map axIn (compact n sizes ains amask aout))
      /\ dot x aout = dot pos (map axOut (compact n sizes ains amask aout)).
Proof.
  induction sizes as [|s ss IH]; intros n ains amask aout pos Hge Hla Hlo Hv.
  - rewrite compact_nil in *. inversion Hv; subst.
    exists []. repeat split; constructor.
  - destruct ains as [|a ains]; [discriminate|].
    destruct aout as [|o aout]; [discriminate|].
    injection Hla as Hla. injection Hlo as Hlo.
    inversion Hge as [|s' ss' Hs Hge']; subst.
    destruct n as [|n].
    + unfold compact in *. cbn [seq flat_map map] in *. inversion Hv; subst.
      exists (repeat 0%nat (length (s :: ss))).
      split; [apply coords_zeros; exact Hge|].
      rewrite !dot_zeros. split; reflexivity.
    + rewrite compact_S in *. cbn [hd tl] in *.
      destruct (Nat.ltb 1 s) eqn:E1; cbn [app map] in *.
      * inversion Hv as [|p ax ps axes' Hp Hps]; subst. cbn [axSize] in Hp.
        destruct (IH n ains (tl amask) aout ps Hge' Hla Hlo Hps)
          as (x & Hx & Hdi & Hdo).
        exists (p :: x). split; [constructor; assumption|].
        cbn [dot axIn axOut]. rewrite Hdi, Hdo. split; reflexivity.
      * destruct (IH n ains (tl amask) aout pos Hge' Hla Hlo Hv)
          as (x & Hx & Hdi & Hdo).
        exists (0%nat :: x). split; [constructor; [lia|exact Hx]|].
        cbn [dot]. rewrite Hdi, Hdo. split; lia.
Qed.

(** The output sizes and the processing sizes split the dimensions of the
    input: coordinates over the one and over the other add up to
    coordinates of the input. *)
Lemma determine_sizes_coords :
  forall inSizes process pr os qs,
    length process = length inSizes ->
    Forall (fun s => (1 <= s)%nat) inSizes ->
    determine_sizes inSizes process = (pr, os, qs) ->
    Forall (fun s => (1 <= s)%nat) os
    /\ length os = length inSizes
    /\ length qs = length inSizes
    /\ forall x y strides,
         coords x os -> coords y qs ->
         exists z, coords z inSizes
                   /\ dot z strides = dot x strides + dot y strides.
Proof.
  induction inSizes as [|s ss IH]; intros [|p ps] pr os qs Hlen Hge Hd;
    simpl in Hlen; try discriminate.
  - simpl in Hd. injection Hd as <- <- <-.
    split; [constructor|]. split; [reflexivity|]. split; [reflexivity|].
    intros x y strides Hx Hy. inversion Hx; inversion Hy; subst.
    exists []. split; [constructor|reflexivity].
  - injection Hlen as Hlen. inversion Hge as [|s' ss' Hs Hge']; subst.
    cbn [determine_sizes] in Hd.
    destruct (determine_sizes ss ps) as [[pr1 os1] qs1] eqn:Hrec.
    destruct (IH ps _ _ _ Hlen Hge' Hrec) as (Hos & Lo & Lq & Hmerge).
    assert (Hcase :
              (os = 1%nat :: os1 /\ qs = s :: qs1)
              \/ (os = s :: os1 /\ qs = 1%nat :: qs1)).
    { destruct (if Nat.eqb s 1 then false else p);
        injection Hd as <- <- <-; [left|right]; split; reflexivity. }
    assert (Hadd : forall x y x0 y0 strides,
               coords x os1 -> coords y qs1 ->
               ((x0 < s)%nat /\ y0 = 0%nat \/ x0 = 0%nat /\ (y0 < s)%nat) ->
               exists z, coords z (s :: ss)
                         /\ dot z strides
                            = dot (x0 :: x) strides + dot (y0 :: y) strides).
    { intros x y x0 y0 strides Hx Hy Hxy.
      destruct strides as [|t ts].
      - destruct (Hmerge x y [] Hx Hy) as (z & Hz & _).
        exists ((x0 + y0)%nat :: z).
        split; [constructor; [lia|exact Hz]|reflexivity].
      - destruct (Hmerge x y ts Hx Hy) as (z & Hz & Hdz).
        exists ((x0 + y0)%nat :: z).
        split; [constructor; [lia|exact Hz]|].
        cbn [dot]. rewrite Hdz. lia. }
    destruct Hcase as [[-> ->] | [-> ->]].
    + split; [constructor; [lia|exact Hos]|].
      split; [simpl; congruence|]. split; [simpl; congruence|].
      intros x y strides Hx Hy.
      inversion Hx as [|x0 ? x' ? Hx0 Hx']; subst.
      inversion Hy as [|y0 ? y' ? Hy0 Hy']; subst.
      apply Hadd; try assumption. right. split; [lia|exact Hy0].
    + split; [constructor; [exact Hs|exact Hos]|].
      split; [simpl; congruence|]. split; [simpl; congruence|].
      intros x y strides Hx Hy.
      inversion Hx as [|x0 ? x' ? Hx0 Hx']; subst.
      inversion Hy as [|y0 ? y' ? Hy0 Hy']; subst.
      apply Hadd; try assumption. left. split; [exact Hx0|lia].
Qed.

End Coordinates.

(* ================================================================== *)
(** ** Channels *)

Section Channels.

Context {V : Type} {ops : SampleOps V} {lib : ImageLibrary}.

Lemma IsForged_adjust_output c_in c_out input mask hasMask outSizes t :
  IsForged (adjust_output c_in c_out input mask hasMask outSizes t) = true.
Proof.
  unfold adjust_output, SetColorSpace, SetPixelSize, IsForged. simpl.
  apply ReForge_IsForged.
Qed.

Lemma Strides_adjust_output c_in c_out input mask hasMask outSizes t :
  length (Strides (adjust_output c_in c_out input mask hasMask outSizes t))
    = length outSizes.
Proof.
  unfold adjust_output, SetColorSpace, SetPixelSize. simpl.
  apply ReForge_Strides.
Qed.

(** The sub-view of channel [ch] at the output coordinates [x] only reads
    samples of channel [ch] of the input. *)
Lemma view_reads_channel c_in os qs x ch a :
  well_formed c_in ->
  length qs = length (Sizes c_in) ->
  (forall x y strides,
      coords x os -> coords y qs ->
      exists z, coords z (Sizes c_in)
                /\ dot z strides = dot x strides + dot y strides) ->
  coords x os ->
  In a (ImageIterator
          (dip__ShiftOrigin
             (Squeeze (dip__SetOrigin
                         (SetSizes (CopyProperties (TensorToSpatial0 c_in))
                                   (1%nat :: qs))
                         (Origin (TensorToSpatial0 c_in))))
             (Z.of_nat ch * TensorStride c_in + dot x (Strides c_in)))) ->
  In a (channel_samples c_in ch).
Proof.
  intros [Hf Hlen] Hq Hmerge Hx.
  unfold ImageIterator, channel_samples, origin_address, IsForged in *.
  cbn [dip__ShiftOrigin dip__SetOrigin Squeeze SetSizes CopyProperties
       TensorToSpatial0 Origin Sizes Strides squeeze Nat.eqb].
  destruct (Origin c_in) as [o|]; [|discriminate]. cbn [option_map].
  intros Ha. apply in_map_iff in Ha. destruct Ha as (d & <- & Hd).
  apply In_offsets in Hd; [|apply squeeze_length].
  destruct Hd as (y' & Hy' & ->).
  destruct (coords_squeeze qs (Strides c_in) y') as (y & Hy & Hdy);
    [congruence|exact Hy'|].
  destruct (Hmerge x y (Strides c_in) Hx Hy) as (z & Hz & Hdz).
  apply in_map_iff. exists (dot z (Strides c_in)). split.
  - rewrite Hdz, Hdy. lia.
  - apply In_offsets; [exact Hlen|]. exists z. split; [exact Hz|reflexivity].
Qed.

(** The output sample of channel [ch] at coordinates [x] is a sample of
    channel [ch] of the output. *)
Lemma view_writes_channel out To x ch :
  IsForged out = true ->
  length (Strides out) = length (Sizes out) ->
  Origin To = Origin out ->
  coords x (Sizes out) ->
  In (origin_address
        (dip__ShiftOrigin To
           (Z.of_nat ch * TensorStride out + dot x (Strides out))))
     (channel_samples out ch).
Proof.
  intros Hf Hlen Ho Hx.
  unfold channel_samples, origin_address, IsForged in *.
  cbn [dip__ShiftOrigin dip__SetOrigin Origin]. rewrite Ho.
  destruct (Origin out) as [o|]; [|discriminate]. cbn [option_map].
  apply in_map_iff. exists (dot x (Strides out)). split; [lia|].
  apply In_offsets; [exact Hlen|]. exists x. split; [exact Hx|reflexivity].
Qed.

(** With more than one channel, every call of the reducer belongs to one
    channel: the first coordinate of the cursor. The view it receives lies
    within that channel of the input and the sample it fills within that
    channel of the output. *)
Lemma views_stay_in_channel c_in c_mask c_out t process out views :
  well_formed c_in ->
  Forall (fun s => (1 <= s)%nat) (Sizes c_in) ->
  (1 < TensorElements c_in)%nat ->
  ProjectionScan_views c_in c_mask c_out t process = Ok (out, views) ->
  TensorElements out = TensorElements c_in
  /\ Forall (fun c =>
               exists ch rest,
                 position c = ch :: rest
                 /\ (ch < TensorElements c_in)%nat
                 /\ In (origin_address (tempOut c)) (channel_samples out ch)
                 /\ forall a, In a (ImageIterator (tempIn c)) ->
                              In a (channel_samples c_in ch))
            views.
Proof.
  intros Hwf Hge HT H.
  destruct (ProjectionScan_views_inv _ _ _ _ _ _ _ H)
    as (process1 & mask & hasMask & pr & os & qs & Hp & _ & Hd & Hcases).
  destruct Hcases as [(_ & -> & ->) | (Hex & Hout & Hloop)];
    [split; [reflexivity|constructor]|].
  assert (HTout : TensorElements out = TensorElements c_in)
    by (rewrite Hout; apply TensorElements_adjust_output).
  split; [exact HTout|].
  destruct (check_process_Ok _ _ _ Hp) as [Hlen _].
  destruct (determine_sizes_spec _ _ Hlen _ _ _ Hd) as (Lpr & _ & _ & _).
  destruct (determine_sizes_coords _ _ _ _ _ Hlen Hge Hd)
    as (Hos & Lo & Lq & Hmerge).
  assert (Hso : Sizes out = os) by (rewrite Hout; apply Sizes_adjust_output).
  assert (Hfo : IsForged out = true)
    by (rewrite Hout; apply IsForged_adjust_output).
  assert (Hlo : length (Strides out) = length (Sizes out)).
  { rewrite Hso, Hout. apply Strides_adjust_output. }
  (* at least one dimension, since one is processed *)
  destruct (Sizes c_in) as [|s0 ss] eqn:Hsz.
  { destruct pr; [discriminate|discriminate]. }
  cbv zeta in Hloop. unfold tensor_to_spatial in Hloop.
  apply Nat.ltb_lt in HT. rewrite HT in Hloop.
  cbn [l_process l_input l_mask l_output l_outSizes l_procSizes forallb]
    in Hloop.
  destruct Hloop as [(Hall & _) | (_ & Hs)]; [discriminate|].
  unfold scan_start, scan_axes in Hs.
  cbn [l_process l_input l_mask l_output l_outSizes l_procSizes] in Hs.
  cbv zeta in Hs. cbn [length] in Hs.
  match type of Hs with
  | context [compact _ _ _ ?m _] => set (ms := m) in Hs; clearbody ms
  end.
  rewrite compact_S in Hs.
  cbn [hd tl TensorToSpatial0 Sizes Strides] in Hs.
  rewrite HTout, HT in Hs. cbn [app] in Hs.
  apply scan_loop_views in Hs.
  2:{ constructor; [simpl; apply Nat.ltb_lt in HT; lia|].
      eapply Forall_impl; [|apply compact_sizes]. simpl. intros; lia. }
  eapply Forall_impl; [|exact Hs]. clear Hs.
  intros c (Hv & Hi & Ho).
  inversion Hv as [|ch ax rest axes' Hch Hrest Hpos]; subst ax axes'.
  cbn [axSize] in Hch. exists ch, rest. split; [reflexivity|].
  split; [apply Nat.ltb_lt in HT; exact Hch|].
  rewrite <- Hpos in Hi, Ho. cbn [map dot axIn axOut] in Hi, Ho.
  rewrite Hso in Hrest.
  destruct (compact_coords os _ _ _ _ rest Hos
              ltac:(rewrite Lo; destruct Hwf as [_ Hw]; rewrite Hw, Hsz;
                    reflexivity)
              ltac:(rewrite Hlo, Hso; reflexivity) Hrest)
    as (x & Hx & Hdi & Hdo).
  rewrite Hso in Hi, Ho. rewrite <- Hdi in Hi. rewrite <- Hdo in Ho.
  split.
  - rewrite Ho. apply view_writes_channel;
      [exact Hfo|exact Hlo|reflexivity|rewrite Hso; exact Hx].
  - intros a Ha. rewrite Hi in Ha.
    eapply view_reads_channel with (os := os) (qs := qs) (x := x);
      [exact Hwf|rewrite Hsz; exact Lq|rewrite Hsz; exact Hmerge|exact Hx|].
    exact Ha.
Qed.

End Channels.

(* ================================================================== *)
(** ** Reducers are local *)

Section Locality.

Context {V : Type} {ops : SampleOps V}.

Lemma fold_left_ext_In {A B : Type} (f g : A -> B -> A) (l : list B) :
  (forall acc x, In x l -> f acc x = g acc x) ->
  forall a, fold_left f l a = fold_left g l a.
Proof.
  induction l as [|x l IH]; intros Hfg a; [reflexivity|].
  cbn [fold_left]. rewrite (Hfg a x) by (left; reflexivity).
  apply IH. intros acc y Hy. apply Hfg. right. exact Hy.
Qed.

Lemma JointImageIterator_In vin vmask it :
  In it (JointImageIterator vin vmask) -> In (fst it) (ImageIterator vin).
Proof.
  unfold JointImageIterator, ImageIterator.
  destruct (Origin vin); [|intros []].
  destruct (Origin vmask); [|intros []].
  destruct it as [a m]. intros H. apply in_combine_l in H. exact H.
Qed.

(** Two folds over the pixels of a view agree when the memories agree on
    the view. *)
Ltac same_fold Hagree :=
  apply fold_left_ext_In; intros ? ? ?;
  first [ rewrite (Hagree _ (JointImageIterator_In _ _ _ ltac:(eassumption)))
        | rewrite (Hagree _ ltac:(eassumption)) ];
  reflexivity.

Lemma local_ProjectionMean computeMean :
  local_reducer (ProjectionMean computeMean).
Proof.
  intros mem mem' mmem vin vmask Hagree. cbn [Project ProjectionMean].
  replace (ProjectionMean_accumulate mem' mmem vin vmask)
    with (ProjectionMean_accumulate mem mmem vin vmask); [reflexivity|].
  unfold ProjectionMean_accumulate.
  destruct (IsForged vmask); [|f_equal]; same_fold Hagree.
Qed.

Lemma local_ProjectionMeanDirectional :
  local_reducer ProjectionMeanDirectional.
Proof.
  intros mem mem' mmem vin vmask Hagree.
  cbn [Project ProjectionMeanDirectional]. f_equal.
  destruct (IsForged vmask); same_fold Hagree.
Qed.

Lemma local_ProjectionMaximum TPI : local_reducer (ProjectionMaximum TPI).
Proof.
  intros mem mem' mmem vin vmask Hagree. cbn [Project ProjectionMaximum].
  destruct (IsForged vmask); same_fold Hagree.
Qed.

Lemma local_ProjectionMinimum TPI : local_reducer (ProjectionMinimum TPI).
Proof.
  intros mem mem' mmem vin vmask Hagree. cbn [Project ProjectionMinimum].
  destruct (IsForged vmask); same_fold Hagree.
Qed.

End Locality.

Section ChannelIndependence.

Context {V : Type} {ops : SampleOps V} {lib : ImageLibrary}.

Lemma fst_project_and_store function (mem : Z -> V) mmem t c :
  fst (project_and_store function mem mmem t c) = origin_address (tempOut c).
Proof.
  unfold project_and_store.
  destruct (negb (DataType_eqb (DataType_ (tempOut c)) t)); reflexivity.
Qed.

(** C7. With more than one channel the channel axis is dimension 0 of the
    iteration and is never processed: the output keeps the input's channel
    count, every call of the reducer belongs to one channel [ch], fills a
    sample of channel [ch] of the output, and what it writes there is the
    same for every input that has the same samples in channel [ch]. *)
Theorem channels_reduced_independently
        (mem : Z -> V) (mmem : Z -> bin) (c_in c_mask c_out : Image)
        (outImageType : DataType) (process : BooleanArray)
        (function : ProjectionScanFunction) (mh : Image * bool) :
  local_reducer function ->
  well_formed c_in ->
  Forall (fun s => (1 <= s)%nat) (Sizes c_in) ->
  (1 < TensorElements c_in)%nat ->
  valid_selector process c_in ->
  check_mask c_mask (Sizes c_in) = Ok mh ->
  exists o views,
    ProjectionScan mem mmem c_in c_mask c_out outImageType process function
      = Ok o
    /\ ProjectionScan_views c_in c_mask c_out outImageType process
       = Ok (c_out_final o, views)
    /\ TensorElements (c_out_final o) = TensorElements c_in
    /\ length (written o) = length views
    /\ forall k c,
         nth_error views k = Some c ->
         exists ch v,
           hd_error (position c) = Some ch
           /\ (ch < TensorElements c_in)%nat
           /\ nth_error (written o) k = Some (origin_address (tempOut c), v)
           /\ In (origin_address (tempOut c))
                 (channel_samples (c_out_final o) ch)
           /\ forall mem' : Z -> V,
                (forall a, In a (channel_samples c_in ch) -> mem' a = mem a) ->
                exists o',
                  ProjectionScan mem' mmem c_in c_mask c_out outImageType
                                 process function = Ok o'
                  /\ nth_error (written o') k
                     = Some (origin_address (tempOut c), v).
Proof.
  intros Hlocal Hwf Hge HT Hsel Hm. destruct mh as [mask hasMask].
  destruct (ProjectionScan_views_return c_in c_mask c_out outImageType
              process _ _ Hsel Hm) as (out & views & Hv).
  destruct (views_stay_in_channel _ _ _ _ _ _ _ Hwf Hge HT Hv)
    as [HTout Hviews].
  rewrite Forall_forall in Hviews.
  eexists. exists views.
  rewrite ProjectionScan_as_views, Hv. cbn [bind fst snd].
  split; [reflexivity|]. cbn [c_out_final written].
  split; [reflexivity|]. split; [exact HTout|].
  split; [apply length_map|].
  intros k c Hk.
  destruct (Hviews c (nth_error_In _ _ Hk))
    as (ch & rest & Hpos & Hch & Hwrite & Hread).
  exists ch, (snd (project_and_store function mem mmem outImageType c)).
  split; [rewrite Hpos; reflexivity|]. split; [exact Hch|].
  assert (Hstore : forall m : Z -> V,
             Some (project_and_store function m mmem outImageType c)
             = Some (origin_address (tempOut c),
                     snd (project_and_store function m mmem outImageType c))).
  { intros m. rewrite <- (fst_project_and_store function m mmem outImageType c).
    destruct (project_and_store function m mmem outImageType c); reflexivity. }
  split; [rewrite nth_error_map, Hk; apply Hstore|].
  split; [exact Hwrite|].
  intros mem' Hagree. eexists.
  rewrite ProjectionScan_as_views, Hv. cbn [bind fst snd].
  split; [reflexivity|]. cbn [written].
  rewrite nth_error_map, Hk. cbn [option_map]. rewrite Hstore.
  do 3 f_equal. unfold project_and_store.
  rewrite (Hlocal mem mem' mmem (tempIn c) (tempMask c))
    by (intros a Ha; apply Hagree, Hread, Ha).
  reflexivity.
Qed.

End ChannelIndependence.

(* ================================================================== *)
(** * The theorems on concrete inputs *)

Lemma Percentile_interior_leaves_out_witness :
  PrimFloat.ltb 0%float 50%float = true
  /\ PrimFloat.ltb 50%float 100%float = true
  /\ Percentile Runs.img_mem Runs.no_mask_mem Runs.img Runs.no_mask Runs.img
                50%float []
     = Ok (mkOutcome Runs.img []).
Proof.
  split; [reflexivity|]. split; [reflexivity|].
  apply Percentile_interior_leaves_out; reflexivity.
Defined.

Lemma ProjectionScan_output_shape_witness :
  valid_selector [false; true; true] Runs.img
  /\ exists o,
       ProjectionScan Runs.img_mem Runs.no_mask_mem Runs.img Runs.no_mask
                      RawImage DT_UINT8 [false; true; true]
                      (ProjectionMaximum DT_UINT8) = Ok o
       /\ length (Sizes (c_out_final o)) = length (Sizes Runs.img)
       /\ forall i, (i < length (Sizes Runs.img))%nat ->
            nth i (Sizes (c_out_final o)) 0%nat
              = if selected [false; true; true] i then 1%nat
                else nth i (Sizes Runs.img) 0%nat.
Proof.
  split; [right; reflexivity|].
  apply (ProjectionScan_output_shape Runs.img_mem Runs.no_mask_mem Runs.img
           Runs.no_mask RawImage DT_UINT8 [false; true; true]
           (ProjectionMaximum DT_UINT8) (RawImage, false)).
  - right. reflexivity.
  - reflexivity.
Defined.

(** Dimension 0 of the 1x3 image is selected and has size 1. Without a
    mask the input comes back; with a forged mask of the input's shape the
    call throws, the reference library refusing the raw image it is asked
    to validate. *)
Lemma ProjectionScan_nothing_to_do_witness :
  valid_selector [true; false] Runs.flat
  /\ ProjectionScan Runs.row_mem Runs.no_mask_mem Runs.flat Runs.no_mask
                    RawImage DT_SFLOAT [true; false] (ProjectionMean true)
     = Ok (mkOutcome Runs.flat [])
  /\ ProjectionScan Runs.row_mem Runs.first_only_mem Runs.flat
                    MoreRuns.flat_mask RawImage DT_SFLOAT [true; false]
                    (ProjectionMean true)
     = Throw (LibraryError 0).
Proof.
  assert (Hsel : valid_selector [true; false] Runs.flat)
    by (right; reflexivity).
  assert (Hone : forall i, (i < length (Sizes Runs.flat))%nat ->
                           selected [true; false] i = true ->
                           nth i (Sizes Runs.flat) 0%nat = 1%nat).
  { intros [|[|i]] Hi Hs; simpl in *; try reflexivity; try discriminate.
    lia. }
  split; [exact Hsel|]. split.
  - apply (proj1 (ProjectionScan_nothing_to_do Runs.row_mem Runs.no_mask_mem
                    Runs.flat Runs.no_mask RawImage DT_SFLOAT [true; false]
                    (ProjectionMean true) Hsel Hone)).
    reflexivity.
  - apply (proj2 (ProjectionScan_nothing_to_do Runs.row_mem
                    Runs.first_only_mem Runs.flat MoreRuns.flat_mask RawImage
                    DT_SFLOAT [true; false] (ProjectionMean true) Hsel Hone)).
    + reflexivity.
    + reflexivity.
Defined.

Lemma ProjectionMean_Project_mean_witness :
  well_formed Runs.row
  /\ Project (ProjectionMean true) Runs.row_mem Runs.first_only_mem
             Runs.row Runs.first_only = 1%Q
  /\ Project (ProjectionMean true) Runs.row_mem (fun _ => false)
             Runs.row Runs.first_only = 0%Q.
Proof.
  assert (Hwf : well_formed Runs.row) by (split; reflexivity).
  split; [exact Hwf|]. split.
  - rewrite (proj1 (ProjectionMean_Project_mean Runs.row_mem
                      Runs.first_only_mem Runs.row Runs.first_only Hwf));
      [reflexivity|vm_compute; lia].
  - rewrite (proj2 (ProjectionMean_Project_mean Runs.row_mem
                      (fun _ => false) Runs.row Runs.first_only Hwf));
      reflexivity.
Defined.

Lemma channels_reduced_independently_witness :
  exists o views,
    ProjectionScan Runs.img_mem Runs.no_mask_mem Runs.img Runs.no_mask
                   RawImage DT_UINT8 [false; true; true]
                   (ProjectionMaximum DT_UINT8) = Ok o
    /\ ProjectionScan_views Runs.img Runs.no_mask RawImage DT_UINT8
                            [false; true; true]
       = Ok (c_out_final o, views)
    /\ TensorElements (c_out_final o) = TensorElements Runs.img
    /\ length (written o) = length views
    /\ forall k c,
         nth_error views k = Some c ->
         exists ch v,
           hd_error (position c) = Some ch
           /\ (ch < TensorElements Runs.img)%nat
           /\ nth_error (written o) k = Some (origin_address (tempOut c), v)
           /\ In (origin_address (tempOut c))
                 (channel_samples (c_out_final o) ch)
           /\ forall mem' : Z -> Q,
                (forall a, In a (channel_samples Runs.img ch) ->
                           mem' a = Runs.img_mem a) ->
                exists o',
                  ProjectionScan mem' Runs.no_mask_mem Runs.img Runs.no_mask
                                 RawImage DT_UINT8 [false; true; true]
                                 (ProjectionMaximum DT_UINT8) = Ok o'
                  /\ nth_error (written o') k
                     = Some (origin_address (tempOut c), v).
Proof.
  apply (channels_reduced_independently Runs.img_mem Runs.no_mask_mem
           Runs.img Runs.no_mask RawImage DT_UINT8 [false; true; true]
           (ProjectionMaximum DT_UINT8) (RawImage, false)).
  - apply local_ProjectionMaximum.
  - split; reflexivity.
  - repeat constructor.
  - simpl. lia.
  - right. reflexivity.
  - reflexivity.
Defined.

(** A forged mask that selects the first of 1, 2, 3: under a validation
    that lets the raw local mask through, [Sum] still adds up all three. *)
Lemma ProjectionScan_mask_never_reaches_reducer_witness :
  Sum (lib := Runs.Lenient) Runs.row_mem Runs.first_only_mem Runs.row
      Runs.first_only RawImage []
    = Ok (mkOutcome (Forge [1]%nat 1 DT_SFLOAT) [(0, 6%Q)])
  /\ exists out views,
       ProjectionScan_views (lib := Runs.Lenient) Runs.row Runs.first_only
                            RawImage DT_SFLOAT [] = Ok (out, views)
       /\ Forall (fun c => IsForged (tempMask c) = false) views.
Proof.
  split; [reflexivity|].
  eexists. eexists. split; [reflexivity|].
  eapply (ProjectionScan_mask_never_reaches_reducer (lib := Runs.Lenient)
            Runs.row Runs.first_only RawImage DT_SFLOAT []).
  reflexivity.
Defined.

(** On the reference library a well-shaped mask and a mask of the wrong
    shape are both turned down, for the same reason: the image that is
    validated is the raw local one. *)
Lemma ProjectionScan_validation_witness :
  ProjectionScan Runs.row_mem Runs.first_only_mem Runs.row Runs.no_mask
                 RawImage DT_SFLOAT [true; true] (ProjectionMean false)
    = Throw ARRAY_PARAMETER_WRONG_LENGTH
  /\ ProjectionScan Runs.row_mem Runs.first_only_mem Runs.row Runs.first_only
                    RawImage DT_SFLOAT [] (ProjectionMean false)
     = ProjectionScan Runs.row_mem Runs.first_only_mem Runs.row Runs.too_long
                      RawImage DT_SFLOAT [] (ProjectionMean false)
  /\ ProjectionScan Runs.row_mem Runs.first_only_mem Runs.row Runs.first_only
                    RawImage DT_SFLOAT [] (ProjectionMean false)
     = Throw (LibraryError 0).
Proof.
  split; [|split].
  - apply (proj1 (ProjectionScan_validation Runs.row_mem Runs.first_only_mem
                    Runs.row RawImage DT_SFLOAT [true; true]
                    (ProjectionMean false)) Runs.no_mask).
    + discriminate.
    + simpl. lia.
  - apply (proj2 (ProjectionScan_validation Runs.row_mem Runs.first_only_mem
                    Runs.row RawImage DT_SFLOAT [] (ProjectionMean false))
                 Runs.first_only Runs.too_long); reflexivity.
  - reflexivity.
Defined.

Lemma directional_variance_identical_angles_witness :
  Directional.Project false Runs.angles_mem Runs.no_mask_mem Runs.angles
                      RawImage = Some (1 - INR 2)%R
  /\ Directional.Project true Runs.angles_mem Runs.no_mask_mem Runs.angles
                         RawImage = None
  /\ Directional.resultant_length Runs.angles_mem Runs.no_mask_mem
                                  Runs.angles RawImage = 1%R.
Proof.
  destruct (directional_variance_identical_angles Runs.angles_mem
              Runs.no_mask_mem Runs.angles 0%R)
    as (Hvar & Hstd & Hlen).
  - split; reflexivity.
  - intros a _. reflexivity.
  - split; [exact Hvar|]. split.
    + apply Hstd. apply Nat.leb_le. reflexivity.
    + apply Hlen. apply Nat.ltb_lt. reflexivity.
Defined.

(** The loop over the output pixels is bounded by the dimensionality read
    before the channel axis was inserted, so with several channels the last
    spatial dimension is never stepped along: of the six samples of this
    1x1x2, three-channel output only the three of the first pixel are
    written. *)
Example last_dimension_left_out :
  exists o,
    Maximum Runs.img_mem Runs.no_mask_mem Runs.img Runs.no_mask RawImage
            [true; true; false] = Ok o
    /\ Sizes (c_out_final o) = [1; 1; 2]%nat
    /\ TensorElements (c_out_final o) = 3%nat
    /\ written o = [(0, 2%Q); (1, 3%Q); (2, 4%Q)].
Proof.
  eexists. split; [reflexivity|]. repeat split.
Qed.

(* ================================================================== *)
(** * Further properties *)

(** ** What each reducer folds *)

Section ReducerFolds.

Context {V : Type} {ops : SampleOps V} {aops : ArithmeticOps V}.

Lemma masked_fold {A : Type} (f : A -> V -> A) (mem : Z -> V)
      (mmem : Z -> bin) :
  forall (its : list (Z * Z)) (a : A),
    fold_left (fun acc (it : Z * Z) =>
                 if mmem (snd it) then f acc (mem (fst it)) else acc) its a
    = fold_left f
        (map (fun it : Z * Z => mem (fst it))
             (filter (fun it : Z * Z => mmem (snd it)) its)) a.
Proof.
  induction its as [|it its IH]; intros a; simpl; [reflexivity|].
  destruct (mmem (snd it)); simpl; apply IH.
Qed.

Lemma unmasked_fold {A : Type} (f : A -> V -> A) (mem : Z -> V) :
  forall (its : list Z) (a : A),
    fold_left (fun acc it => f acc (mem it)) its a
    = fold_left f (map mem its) a.
Proof.
  induction its as [|it its IH]; intros a; simpl; [reflexivity|apply IH].
Qed.

Lemma fold_left_map {A B C : Type} (f : A -> C -> A) (g : B -> C) :
  forall (l : list B) (a : A),
    fold_left f (map g l) a = fold_left (fun acc x => f acc (g x)) l a.
Proof.
  induction l as [|x l IH]; intros a; simpl; [reflexivity|apply IH].
Qed.

(** A reducer written as the two loops of the source, over the joint
    iterator under the mask or over the plain iterator, folds its step over
    the participating elements. *)
Lemma reducer_fold {A : Type} (f : A -> V -> A) (mem : Z -> V)
      (mmem : Z -> bin) img mask (a : A) :
  (if IsForged mask then
     fold_left (fun acc (it : Z * Z) =>
                  if mmem (snd it) then f acc (mem (fst it)) else acc)
               (JointImageIterator img mask) a
   else fold_left (fun acc it => f acc (mem it)) (ImageIterator img) a)
  = fold_left f (participating mem mmem img mask) a.
Proof.
  unfold participating. destruct (IsForged mask);
    [apply masked_fold|apply unmasked_fold].
Qed.

Lemma masked_pair_fold (g : V -> V) (mem : Z -> V) (mmem : Z -> bin) :
  forall (its : list (Z * Z)) (sum : V) (n : nat),
    fold_left (fun (acc : V * nat) (it : Z * Z) =>
                 if mmem (snd it)
                 then (add (fst acc) (g (mem (fst it))), S (snd acc))
                 else acc) its (sum, n)
    = (fold_left add
         (map g (map (fun it : Z * Z => mem (fst it))
                     (filter (fun it : Z * Z => mmem (snd it)) its))) sum,
       (n + length (filter (fun it : Z * Z => mmem (snd it)) its))%nat).
Proof.
  induction its as [|it its IH]; intros sum n; simpl.
  - f_equal. lia.
  - destruct (mmem (snd it)); simpl; rewrite IH; f_equal; lia.
Qed.

Lemma unmasked_sum (g : V -> V) (mem : Z -> V) :
  forall (its : list Z) (sum : V),
    fold_left (fun sum it => add sum (g (mem it))) its sum
    = fold_left add (map g (map mem its)) sum.
Proof.
  induction its as [|it its IH]; intros sum; simpl; [reflexivity|apply IH].
Qed.

(** The sum and the count kept by the absolute-value and square reducers. *)
Lemma accumulate_spec (g : V -> V) (mem : Z -> V) (mmem : Z -> bin)
      img mask :
  (if IsForged mask then
     fold_left (fun (acc : V * nat) (it : Z * Z) =>
                  if mmem (snd it)
                  then (add (fst acc) (g (mem (fst it))), S (snd acc))
                  else acc)
               (JointImageIterator img mask) (zero, 0%nat)
   else
     (fold_left (fun sum it => add sum (g (mem it))) (ImageIterator img) zero,
      NumberOfPixels img))
  = (fold_left add (map g (participating mem mmem img mask)) zero,
     if IsForged mask then length (participating mem mmem img mask)
     else NumberOfPixels img).
Proof.
  unfold participating. destruct (IsForged mask).
  - rewrite masked_pair_fold, !length_map. reflexivity.
  - rewrite unmasked_sum. reflexivity.
Qed.

Lemma count_spec (mem : Z -> V) (mmem : Z -> bin) img mask :
  well_formed img ->
  (if IsForged mask then length (participating mem mmem img mask)
   else NumberOfPixels img)
  = length (participating mem mmem img mask).
Proof.
  intros Hwf. unfold participating. destruct (IsForged mask); [reflexivity|].
  rewrite length_map. symmetry. apply length_ImageIterator. exact Hwf.
Qed.

Lemma ProjectionSum_fold (mem : Z -> V) (mmem : Z -> bin) img mask :
  Project (ProjectionMean false) mem mmem img mask
    = fold_left add (participating mem mmem img mask) zero.
Proof.
  cbn [Project ProjectionMean andb]. unfold ProjectionMean_accumulate.
  unfold participating. destruct (IsForged mask).
  - rewrite masked_accumulate. reflexivity.
  - rewrite unmasked_fold. reflexivity.
Qed.

(** X1. Given a mask view, each reducer combines exactly the elements whose
    mask sample is true, in iterator order, starting from its seed; given no
    mask view it combines all the elements of the view. *)
Theorem reducers_fold_participating
        (mem : Z -> V) (mmem : Z -> bin) (img mask : Image) (TPI : DataType) :
  let xs := participating mem mmem img mask in
  Project (ProjectionMean false) mem mmem img mask = fold_left add xs zero
  /\ Project ProjectionProduct mem mmem img mask = fold_left mul xs one
  /\ Project (ProjectionMaximum TPI) mem mmem img mask
     = fold_left smax xs (numeric_lowest TPI)
  /\ Project (ProjectionMinimum TPI) mem mmem img mask
     = fold_left smin xs (numeric_max TPI)
  /\ Project (ProjectionMeanAbs false) mem mmem img mask
     = fold_left add (map sabs xs) zero
  /\ Project (ProjectionMeanSquare false TPI) mem mmem img mask
     = fold_left add (map (square TPI) xs) zero.
Proof.
  intros xs. subst xs. repeat split.
  - apply ProjectionSum_fold.
  - cbn [Project ProjectionProduct]. apply (reducer_fold mul).
  - cbn [Project ProjectionMaximum]. apply (reducer_fold smax).
  - cbn [Project ProjectionMinimum]. apply (reducer_fold smin).
  - cbn [Project ProjectionMeanAbs andb].
    unfold ProjectionMeanAbs_accumulate. rewrite accumulate_spec.
    reflexivity.
  - cbn [Project ProjectionMeanSquare andb].
    unfold ProjectionMeanSquare_accumulate. cbv zeta.
    rewrite (accumulate_spec (square TPI)). reflexivity.
Qed.

(** X2. The mean of absolute values and the mean of squares divide their sum
    by the number of participating elements, and hand out the untouched sum
    0 when no element participates. *)
Theorem mean_variants_divide_by_count
        (mem : Z -> V) (mmem : Z -> bin) (img mask : Image) (TPI : DataType) :
  well_formed img ->
  let xs := participating mem mmem img mask in
  ((0 < length xs)%nat ->
     Project (ProjectionMeanAbs true) mem mmem img mask
       = div_count (fold_left add (map sabs xs) zero) (length xs)
     /\ Project (ProjectionMeanSquare true TPI) mem mmem img mask
        = div_count (fold_left add (map (square TPI) xs) zero) (length xs))
  /\ (length xs = 0%nat ->
        Project (ProjectionMeanAbs true) mem mmem img mask = zero
        /\ Project (ProjectionMeanSquare true TPI) mem mmem img mask = zero).
Proof.
  intros Hwf xs.
  cbn [Project ProjectionMeanAbs ProjectionMeanSquare andb].
  unfold ProjectionMeanAbs_accumulate, ProjectionMeanSquare_accumulate.
  cbv zeta.
  rewrite (accumulate_spec sabs), (accumulate_spec (square TPI)),
    (count_spec _ _ _ _ Hwf).
  fold xs. split.
  - intros Hn. apply Nat.ltb_lt in Hn. rewrite Hn. split; reflexivity.
  - intros Hn. rewrite Hn. cbn [Nat.ltb Nat.leb].
    destruct xs; [split; reflexivity|discriminate].
Qed.

(** X3. With a mask view that selects nothing, every reducer hands out its
    seed: [Sum] 0, [Product] 1, [Maximum] the lowest and [Minimum] the
    highest value of the sample type. *)
Theorem reducers_on_empty_selection
        (mem : Z -> V) (mmem : Z -> bin) (img mask : Image) (TPI : DataType) :
  IsForged mask = true ->
  (forall it, In it (JointImageIterator img mask) -> mmem (snd it) = false) ->
  Project (ProjectionMean false) mem mmem img mask = zero
  /\ Project ProjectionProduct mem mmem img mask = one
  /\ Project (ProjectionMaximum TPI) mem mmem img mask = numeric_lowest TPI
  /\ Project (ProjectionMinimum TPI) mem mmem img mask = numeric_max TPI.
Proof.
  intros Hf Hall.
  assert (Hxs : participating mem mmem img mask = []).
  { unfold participating. rewrite Hf.
    induction (JointImageIterator img mask) as [|it its IH]; [reflexivity|].
    simpl. rewrite (Hall it) by (left; reflexivity).
    apply IH. intros it' Hit. apply Hall. right. exact Hit. }
  split; [rewrite ProjectionSum_fold, Hxs; reflexivity|].
  cbn [Project ProjectionProduct ProjectionMaximum ProjectionMinimum].
  rewrite (reducer_fold mul), (reducer_fold smax), (reducer_fold smin), Hxs.
  repeat split.
Qed.

End ReducerFolds.

(* ================================================================== *)
(** ** The sub-views *)

Section SubViews.

Context {V : Type} {ops : SampleOps V} {lib : ImageLibrary}.

Lemma check_process_normal process nDims process' :
  check_process process nDims = Ok process' ->
  process' = match process with [] => repeat true nDims | _ => process end.
Proof.
  unfold check_process. destruct process as [|b process]; simpl.
  - intros H; injection H as <-. reflexivity.
  - destruct (negb _); [discriminate|]. intros H; injection H as <-.
    reflexivity.
Qed.

(** The processing sizes: their product, and what they are when every
    dimension is processed. *)
Lemma determine_sizes_procSizes :
  forall inSizes process pr os qs,
    length process = length inSizes ->
    determine_sizes inSizes process = (pr, os, qs) ->
    fold_right Nat.mul 1%nat qs = collapsed_pixels inSizes process
    /\ (fold_right Nat.mul 1%nat os * fold_right Nat.mul 1%nat qs
        = fold_right Nat.mul 1%nat inSizes)%nat
    /\ (forallb (fun b => b) pr = true -> qs = inSizes)
    /\ (Forall (fun s => (1 <= s)%nat) inSizes ->
        Forall (fun s => (1 <= s)%nat) qs).
Proof.
  induction inSizes as [|s ss IH]; intros [|p ps] pr os qs Hlen Hd;
    simpl in Hlen; try discriminate.
  - simpl in Hd. injection Hd as <- <- <-. repeat split; auto.
  - injection Hlen as Hlen. cbn [determine_sizes] in Hd.
    destruct (determine_sizes ss ps) as [[pr1 os1] qs1] eqn:Hrec.
    destruct (IH ps _ _ _ Hlen Hrec) as (Hprod & Hsplit & Hall & Hpos).
    cbn [collapsed_pixels].
    destruct (Nat.eqb s 1) eqn:Es; [apply Nat.eqb_eq in Es|destruct p];
      injection Hd as <- <- <-; cbn [fold_right forallb andb].
    + subst s. split; [destruct p; lia|]. split; [lia|].
      split; [discriminate|]. intros Hge. inversion Hge; subst.
      constructor; [lia|auto].
    + split; [lia|]. split; [lia|].
      split; [intros H; f_equal; auto|]. intros Hge. inversion Hge; subst.
      constructor; auto.
    + split; [lia|]. split; [lia|].
      split; [discriminate|]. intros Hge. inversion Hge; subst.
      constructor; [lia|auto].
Qed.

Lemma squeeze_product :
  forall sizes strides,
    length strides = length sizes ->
    fold_right Nat.mul 1%nat (fst (squeeze sizes strides))
      = fold_right Nat.mul 1%nat sizes.
Proof.
  induction sizes as [|s ss IH]; intros [|t ts] Hlen; simpl in Hlen;
    try discriminate; [reflexivity|].
  injection Hlen as Hlen. cbn [squeeze].
  destruct (Nat.eqb s 1) eqn:Es; cbn [fst fold_right]; rewrite (IH ts Hlen).
  - apply Nat.eqb_eq in Es. lia.
  - reflexivity.
Qed.

Lemma NumberOfPixels_ShiftOrigin img z :
  NumberOfPixels (dip__ShiftOrigin img z) = NumberOfPixels img.
Proof. reflexivity. Qed.

(** Every sub-view handed to the reducer spans the collapsed dimensions:
    it holds as many pixels as the product of their sizes. *)
Lemma views_pixel_count c_in c_mask c_out t process out views :
  well_formed c_in ->
  ProjectionScan_views c_in c_mask c_out t process = Ok (out, views) ->
  Forall (fun c => NumberOfPixels (tempIn c) = collapsed_count process c_in)
         views.
Proof.
  intros Hwf H.
  destruct (ProjectionScan_views_inv _ _ _ _ _ _ _ H)
    as (process1 & mask & hasMask & pr & os & qs & Hp & _ & Hd & Hcases).
  destruct Hcases as [(_ & _ & ->) | (_ & Hout & Hloop)]; [constructor|].
  destruct (check_process_Ok _ _ _ Hp) as [Hlen _].
  destruct (determine_sizes_procSizes _ _ _ _ _ Hlen Hd)
    as (Hprod & _ & Hall & _).
  destruct (determine_sizes_spec _ _ Hlen _ _ _ Hd) as (_ & _ & Lq & _).
  unfold collapsed_count. rewrite <- (check_process_normal _ _ _ Hp), <- Hprod.
  cbv zeta in Hloop. unfold tensor_to_spatial in Hloop.
  destruct Hwf as [Hf Hst].
  destruct (Nat.ltb 1 (TensorElements c_in));
    cbn [l_process l_input l_mask l_output l_outSizes l_procSizes forallb]
      in Hloop.
  - destruct Hloop as [(Hfalse & _) | (_ & Hs)]; [discriminate|].
    unfold scan_start in Hs. cbv zeta in Hs.
    cbn [l_process l_input l_mask l_output l_outSizes l_procSizes] in Hs.
    apply scan_loop_views in Hs;
      [|eapply Forall_impl; [|apply compact_sizes]; simpl; intros; lia].
    eapply Forall_impl; [|exact Hs]. intros c (_ & -> & _).
    rewrite NumberOfPixels_ShiftOrigin. unfold NumberOfPixels.
    cbn [Squeeze Sizes Strides dip__SetOrigin SetSizes CopyProperties
         TensorToSpatial0 squeeze Nat.eqb].
    apply squeeze_product. congruence.
  - destruct Hloop as [(Hall' & ->) | (_ & Hs)].
    + constructor; [|constructor]. cbn [tempIn]. unfold NumberOfPixels.
      rewrite (Hall Hall'). reflexivity.
    + unfold scan_start in Hs. cbv zeta in Hs.
      cbn [l_process l_input l_mask l_output l_outSizes l_procSizes] in Hs.
      apply scan_loop_views in Hs;
        [|eapply Forall_impl; [|apply compact_sizes]; simpl; intros; lia].
      eapply Forall_impl; [|exact Hs]. intros c (_ & -> & _).
      rewrite NumberOfPixels_ShiftOrigin. unfold NumberOfPixels.
      cbn [Squeeze Sizes Strides dip__SetOrigin SetSizes CopyProperties].
      apply squeeze_product. congruence.
Qed.

(** As [next_pixel] only shifts origins, a mask view that starts raw stays
    raw; and the local mask of [ProjectionScan] is always raw. *)
Lemma views_mask_raw c_in c_mask c_out t process out views :
  ProjectionScan_views c_in c_mask c_out t process = Ok (out, views) ->
  Forall (fun c => IsForged (tempMask c) = false) views.
Proof.
  intros H.
  destruct (ProjectionScan_views_inv _ _ _ _ _ _ _ H)
    as (process1 & mask & hasMask & pr & os & qs & _ & Hm & _ & Hcases).
  apply check_mask_raw in Hm.
  destruct Hcases as [(_ & _ & ->) | (_ & Hout & Hloop)]; [constructor|].
  cbv zeta in Hloop.
  set (l := tensor_to_spatial _ _ _) in Hloop.
  assert (Hl : IsForged (l_mask l) = false).
  { subst l. unfold tensor_to_spatial.
    destruct (Nat.ltb 1 (TensorElements c_in)); cbn [l_mask]; [|exact Hm].
    destruct hasMask; exact Hm. }
  destruct Hloop as [(_ & ->) | (_ & Hs)].
  - constructor; [exact Hl|constructor].
  - eapply scan_loop_Forall
      with (Inv := fun c => IsForged (tempMask c) = false); [| | |exact Hs].
    + intros c Hc. exact Hc.
    + intros c c' Hc Hn. eapply next_pixel_tempMask_raw; eassumption.
    + unfold scan_start. cbn [tempMask]. destruct hasMask; [|reflexivity].
      unfold IsForged in *. simpl. destruct (Origin (l_mask l)); congruence.
Qed.

(** The samples [ProjectionScan] writes: one per view, the reducer's value
    on that view as it is stored in an output of the output's element type,
    at the origin of the output view. *)
Lemma ProjectionScan_stored (mem : Z -> V) (mmem : Z -> bin)
      c_in c_mask c_out t process function out views :
  well_formed c_in ->
  ProjectionScan_views c_in c_mask c_out t process = Ok (out, views) ->
  ProjectionScan mem mmem c_in c_mask c_out t process function
    = Ok (mkOutcome out
            (map (fun c =>
                    (origin_address (tempOut c),
                     stored t (DataType_ out)
                            (Project function mem mmem (tempIn c)
                                     (tempMask c))))
                 views)).
Proof.
  intros Hwf Hv. rewrite ProjectionScan_as_views, Hv. cbn [bind fst snd].
  do 2 f_equal. apply map_ext_in. intros c Hc.
  pose proof (views_well_formed _ _ _ _ _ _ _ Hwf Hv) as Hviews.
  rewrite Forall_forall in Hviews. destruct (Hviews c Hc) as [_ Hdt].
  rewrite project_and_store_stored, Hdt. reflexivity.
Qed.

End SubViews.

(* ================================================================== *)
(** ** The order of the scan *)

Section ScanOrder.

(** The visits of a scan come in the order of their rank. *)
Lemma scan_loop_ranks hasMask axes :
  forall fuel c views,
    valid_position (position c) axes ->
    scan_loop fuel (fun c => c) hasMask axes c = Some views ->
    map (fun c => rank (position c) axes) views
      = seq (rank (position c) axes)
            (number_of_positions axes - rank (position c) axes).
Proof.
  induction fuel as [|fuel IH]; intros c views Hv Hs; [discriminate|].
  cbn [scan_loop] in Hs.
  destruct (next_pixel hasMask axes c) as [done c'] eqn:Hn.
  destruct (next_pixel_rank _ _ _ _ _ Hv Hn) as [Hfalse Htrue].
  pose proof (rank_lt _ _ Hv) as Hlt.
  destruct done.
  - injection Hs as <-. specialize (Htrue eq_refl).
    replace (number_of_positions axes - rank (position c) axes)%nat
      with 1%nat by lia.
    reflexivity.
  - destruct (Hfalse eq_refl) as [Hv' Hr'].
    destruct (scan_loop fuel _ hasMask axes c') as [ws|] eqn:Hrec;
      [|discriminate].
    injection Hs as <-. cbn [map]. rewrite (IH c' ws Hv' Hrec), Hr'.
    replace (number_of_positions axes - rank (position c) axes)%nat
      with (S (number_of_positions axes - S (rank (position c) axes)))
      by lia.
    reflexivity.
Qed.

Lemma nth_flat_map_blocks {A B : Type} (f : A -> list B) (s : nat)
      (da : A) (db : B) :
  (forall x, length (f x) = s) ->
  forall l r p,
    (p < s)%nat -> (r < length l)%nat ->
    nth (p + s * r) (flat_map f l) db = nth p (f (nth r l da)) db.
Proof.
  intros Hlen. induction l as [|a l IH]; intros r p Hp Hr; simpl in Hr;
    [lia|].
  cbn [flat_map]. destruct r as [|r].
  - rewrite Nat.mul_0_r, Nat.add_0_r. apply app_nth1. rewrite Hlen. exact Hp.
  - rewrite app_nth2 by (rewrite Hlen; lia). rewrite Hlen.
    replace (p + s * S r - s)%nat with (p + s * r)%nat by lia.
    cbn [nth]. apply IH; lia.
Qed.

Lemma nth_map_seq {B : Type} (g : nat -> B) (s p : nat) (d : B) :
  (p < s)%nat -> nth p (map g (seq 0 s)) d = g p.
Proof.
  intros Hp. rewrite (nth_indep _ d (g 0%nat))
    by (rewrite length_map, length_seq; exact Hp).
  rewrite map_nth, seq_nth by exact Hp. reflexivity.
Qed.

Lemma number_of_positions_product axes :
  number_of_positions axes = fold_right Nat.mul 1%nat (map axSize axes).
Proof.
  unfold number_of_positions.
  induction axes as [|a axes IH]; cbn [fold_right map]; [reflexivity|].
  rewrite IH. reflexivity.
Qed.

(** The offset at a position is the entry of [offsets] at its rank. *)
Lemma nth_offsets :
  forall axes strides pos,
    length strides = length axes ->
    valid_position pos axes ->
    nth (rank pos axes) (offsets (map axSize axes) strides) 0
      = dot pos strides.
Proof.
  induction axes as [|a axes IH]; intros [|t ts] pos Hlen Hv;
    simpl in Hlen; try discriminate.
  - inversion Hv; subst. reflexivity.
  - injection Hlen as Hlen.
    inversion Hv as [|p a' ps axes' Hp Hps]; subst.
    cbn [map offsets rank dot].
    rewrite (nth_flat_map_blocks _ (axSize a) 0 0).
    + rewrite (IH ts ps Hlen Hps). cbv beta.
      apply (nth_map_seq (fun i => Z.of_nat i * t + dot ps ts)). exact Hp.
    + intros x. rewrite length_map, length_seq. reflexivity.
    + exact Hp.
    + rewrite length_offsets by (rewrite length_map; exact Hlen).
      apply rank_lt in Hps. rewrite number_of_positions_product in Hps.
      exact Hps.
Qed.

Lemma map_nth_seq {A : Type} (l : list A) (d : A) :
  map (fun i => nth i l d) (seq 0 (length l)) = l.
Proof.
  induction l as [|a l IH]; [reflexivity|].
  cbn [length seq map nth]. f_equal.
  rewrite <- seq_shift, map_map. exact IH.
Qed.

(** A scan started on the first pixel visits the positions of the
    compacted iteration space one after the other, each once: the shifts of
    its views are the offsets of an image with the compacted sizes. *)
Lemma scan_loop_offsets hasMask axes Ti Tm To strides :
  Forall (fun a => (0 < axSize a)%nat) axes ->
  length strides = length axes ->
  forall fuel views,
    scan_loop fuel (fun c => c) hasMask axes
              (mkCursor (repeat 0%nat (length axes)) Ti Tm To) = Some views ->
    map (fun c => dot (position c) strides) views
      = offsets (map axSize axes) strides.
Proof.
  intros Hpos Hlen fuel views Hs.
  pose proof (scan_loop_views _ _ _ _ _ Hpos _ _ Hs) as Hviews.
  pose proof (scan_loop_ranks _ _ _ _ _
                (valid_position_zero _ Hpos : valid_position
                   (position (mkCursor _ Ti Tm To)) axes) Hs) as Hranks.
  cbn [position] in Hranks. rewrite rank_zero, Nat.sub_0_r in Hranks.
  rewrite <- (map_nth_seq (offsets (map axSize axes) strides) 0).
  rewrite length_offsets by (rewrite length_map; exact Hlen).
  rewrite <- number_of_positions_product, <- Hranks, map_map.
  apply map_ext_in. intros c Hc. rewrite Forall_forall in Hviews.
  destruct (Hviews c Hc) as (Hv & _). symmetry.
  apply nth_offsets; assumption.
Qed.

Lemma flat_map_singleton {A B : Type} (f : A -> B) (l : list A) :
  flat_map (fun x => [f x]) l = map f l.
Proof.
  induction l as [|a l IH]; simpl; [reflexivity|]. rewrite IH. reflexivity.
Qed.

(** Dropping the singleton dimensions of an image does not change the
    offsets of its pixels. *)
Lemma offsets_compact_out :
  forall sizes ains amask aout,
    Forall (fun s => (1 <= s)%nat) sizes ->
    length aout = length sizes ->
    let axes := compact (length sizes) sizes ains amask aout in
    offsets (map axSize axes) (map axOut axes) = offsets sizes aout.
Proof.
  induction sizes as [|s ss IH]; intros ains amask aout Hge Hlo.
  - destruct aout; try discriminate. reflexivity.
  - destruct aout as [|o aout]; [discriminate|]. injection Hlo as Hlo.
    inversion Hge as [|s' ss' Hs Hge']; subst.
    cbn [length]. cbv zeta. rewrite compact_S. cbn [hd tl].
    pose proof (IH (tl ains) (tl amask) aout Hge' Hlo) as Ho.
    cbv zeta in Ho.
    destruct (Nat.ltb 1 s) eqn:E1; cbn [app map offsets axSize axOut].
    + rewrite Ho. reflexivity.
    + apply Nat.ltb_ge in E1. assert (s = 1%nat) as -> by lia.
      rewrite Ho. cbn [seq map].
      rewrite flat_map_singleton. symmetry. apply map_id.
Qed.

Lemma offsets_compact_in :
  forall sizes ains amask aout,
    Forall (fun s => (1 <= s)%nat) sizes ->
    length ains = length sizes ->
    let axes := compact (length sizes) sizes ains amask aout in
    offsets (map axSize axes) (map axIn axes) = offsets sizes ains.
Proof.
  induction sizes as [|s ss IH]; intros ains amask aout Hge Hla.
  - destruct ains; try discriminate. reflexivity.
  - destruct ains as [|a ains]; [discriminate|]. injection Hla as Hla.
    inversion Hge as [|s' ss' Hs Hge']; subst.
    cbn [length]. cbv zeta. rewrite compact_S. cbn [hd tl].
    pose proof (IH ains (tl amask) (tl aout) Hge' Hla) as Hi.
    cbv zeta in Hi.
    destruct (Nat.ltb 1 s) eqn:E1; cbn [app map offsets axSize axIn].
    + rewrite Hi. reflexivity.
    + apply Nat.ltb_ge in E1. assert (s = 1%nat) as -> by lia.
      rewrite Hi. cbn [seq map].
      rewrite flat_map_singleton. symmetry. apply map_id.
Qed.

Lemma offsets_ones sizes strides :
  Forall (fun s => s = 1%nat) sizes -> offsets sizes strides = [0].
Proof.
  intros H. revert strides.
  induction H as [|s ss -> _ IH]; intros [|t ts]; try reflexivity.
  cbn [offsets]. rewrite IH. reflexivity.
Qed.

(** The loop that ends one entry early finds the same axes when the last
    entry is a singleton. *)
Lemma compact_last :
  forall n sizes ains amask aout,
    length sizes = S n ->
    nth n sizes 0%nat = 1%nat ->
    compact n sizes ains amask aout = compact (S n) sizes ains amask aout.
Proof.
  induction n as [|n IH]; intros [|s ss] ains amask aout Hlen Hlast;
    simpl in Hlen; try discriminate.
  - destruct ss; [|discriminate]. simpl in Hlast. subst s. reflexivity.
  - injection Hlen as Hlen. rewrite (compact_S (S n)), compact_S.
    cbn [hd tl nth] in *. f_equal. apply IH; assumption.
Qed.

End ScanOrder.

(* ================================================================== *)
(** ** Which output samples are written *)

Section Coverage.

Context {V : Type} {ops : SampleOps V} {lib : ImageLibrary}.

Lemma something_to_do_existsb process c_in process1 pr os qs :
  check_process process (length (Sizes c_in)) = Ok process1 ->
  determine_sizes (Sizes c_in) process1 = (pr, os, qs) ->
  something_to_do process c_in ->
  existsb (fun b => b) pr = true.
Proof.
  intros Hp Hd (i & Hi & Hsel & Hne).
  destruct (check_process_Ok _ _ _ Hp) as [Hlen Hreq].
  destruct (determine_sizes_spec _ _ Hlen _ _ _ Hd) as (Lpr & _ & _ & Hnth).
  destruct (Hnth i Hi) as (Hpr & _ & _).
  rewrite Hreq, Hsel in Hpr by exact Hi.
  apply Nat.eqb_neq in Hne. rewrite Hne in Hpr. simpl in Hpr.
  apply existsb_exists. exists true. split; [|reflexivity].
  rewrite <- Hpr. apply nth_In. rewrite Lpr. exact Hi.
Qed.

Lemma existsb_something_to_do process c_in process1 pr os qs :
  check_process process (length (Sizes c_in)) = Ok process1 ->
  determine_sizes (Sizes c_in) process1 = (pr, os, qs) ->
  existsb (fun b => b) pr = true ->
  something_to_do process c_in.
Proof.
  intros Hp Hd E.
  destruct (check_process_Ok _ _ _ Hp) as [Hlen Hreq].
  destruct (determine_sizes_spec _ _ Hlen _ _ _ Hd) as (Lpr & _ & _ & Hnth).
  apply existsb_exists in E. destruct E as [b [Hin Hb]]. subst b.
  apply (In_nth _ _ false) in Hin. destruct Hin as [i [Hi Hi']].
  rewrite Lpr in Hi. destruct (Hnth i Hi) as (Hpr & _ & _).
  rewrite Hi', Hreq in Hpr by exact Hi.
  symmetry in Hpr. apply andb_true_iff in Hpr. destruct Hpr as [Hs Hn].
  exists i. split; [exact Hi|]. split; [exact Hs|].
  apply negb_true_iff, Nat.eqb_neq in Hn. exact Hn.
Qed.

Lemma determine_sizes_all_processed :
  forall inSizes process pr os qs,
    determine_sizes inSizes process = (pr, os, qs) ->
    forallb (fun b => b) pr = true ->
    Forall (fun s => s = 1%nat) os.
Proof.
  induction inSizes as [|s ss IH]; intros [|p ps] pr os qs Hd Hall;
    simpl in Hd; try (injection Hd as <- <- <-; constructor).
  destruct (determine_sizes ss ps) as [[pr1 os1] qs1] eqn:Hrec.
  destruct (if Nat.eqb s 1 then false else p);
    injection Hd as <- <- <-; cbn [forallb andb] in Hall; [|discriminate].
  constructor; [reflexivity|]. eapply IH; eassumption.
Qed.

Lemma origin_address_ShiftOrigin img o z :
  Origin img = Some o -> origin_address (dip__ShiftOrigin img z) = o + z.
Proof.
  intros H. unfold origin_address, dip__ShiftOrigin. simpl. rewrite H.
  reflexivity.
Qed.

(** The output addresses of the views of a single-channel scan are the
    pixels of the output, in iterator order. *)
Lemma views_cover_output c_in c_mask c_out t process out views :
  (TensorElements c_in <= 1)%nat ->
  Forall (fun s => (1 <= s)%nat) (Sizes c_in) ->
  something_to_do process c_in ->
  ProjectionScan_views c_in c_mask c_out t process = Ok (out, views) ->
  map (fun c => origin_address (tempOut c)) views = ImageIterator out.
Proof.
  intros HT Hge Hdo H.
  destruct (ProjectionScan_views_inv _ _ _ _ _ _ _ H)
    as (process1 & mask & hasMask & pr & os & qs & Hp & _ & Hd & Hcases).
  pose proof (something_to_do_existsb _ _ _ _ _ _ Hp Hd Hdo) as Hex.
  destruct Hcases as [(Hno & _) | (_ & Hout & Hloop)]; [congruence|].
  destruct (check_process_Ok _ _ _ Hp) as [Hlen _].
  destruct (determine_sizes_coords _ _ _ _ _ Hlen Hge Hd) as (Hos & Lo & _).
  assert (Hso : Sizes out = os) by (rewrite Hout; apply Sizes_adjust_output).
  assert (Hfo : IsForged out = true)
    by (rewrite Hout; apply IsForged_adjust_output).
  assert (Hlo : length (Strides out) = length os).
  { rewrite Hout. apply Strides_adjust_output. }
  unfold IsForged in Hfo. destruct (Origin out) as [o|] eqn:Ho;
    [|discriminate].
  unfold ImageIterator. rewrite Ho, Hso.
  cbv zeta in Hloop. unfold tensor_to_spatial in Hloop.
  apply Nat.ltb_ge in HT. rewrite HT in Hloop.
  cbn [l_process l_input l_mask l_output l_outSizes l_procSizes] in Hloop.
  destruct Hloop as [(Hall & ->) | (_ & Hs)].
  - cbn [map tempOut]. unfold origin_address. rewrite Ho.
    rewrite (offsets_ones os)
      by (eapply determine_sizes_all_processed; eassumption).
    cbn [map]. rewrite Z.add_0_r. reflexivity.
  - unfold scan_start, scan_axes in Hs. cbv zeta in Hs.
    cbn [l_process l_input l_mask l_output l_outSizes l_procSizes] in Hs.
    rewrite <- Lo in Hs.
    match type of Hs with
    | context [compact _ _ ?a ?m _] =>
        set (ains := a) in Hs; set (ms := m) in Hs
    end.
    set (axes := compact (length os) os ains ms (Strides out)) in Hs.
    assert (Hax : Forall (fun a => (0 < axSize a)%nat) axes).
    { eapply Forall_impl; [|apply compact_sizes]. simpl. intros; lia. }
    pose proof (scan_loop_views _ _ _ _ _ Hax _ _ Hs) as Hviews.
    pose proof (scan_loop_offsets _ _ _ _ _ (map axOut axes) Hax
                  (length_map _ _) _ _ Hs) as Hoff.
    pose proof (offsets_compact_out os ains ms (Strides out) Hos Hlo) as Hcomp.
    cbv zeta in Hcomp. fold axes in Hcomp. rewrite Hcomp in Hoff.
    rewrite <- Hoff, map_map. apply map_ext_in. intros c Hc.
    rewrite Forall_forall in Hviews. destruct (Hviews c Hc) as (_ & _ & ->).
    apply origin_address_ShiftOrigin. exact Ho.
Qed.

(** X4. A projection of a single-channel image that has something to do
    writes every pixel of the output exactly once, in the order of the
    pixel iterator (dimension 0 fastest). *)
Theorem output_pixels_written_once
        (mem : Z -> V) (mmem : Z -> bin) (c_in c_mask c_out : Image)
        (outImageType : DataType) (process : BooleanArray)
        (function : ProjectionScanFunction) (mh : Image * bool) :
  (TensorElements c_in <= 1)%nat ->
  Forall (fun s => (1 <= s)%nat) (Sizes c_in) ->
  valid_selector process c_in ->
  something_to_do process c_in ->
  check_mask c_mask (Sizes c_in) = Ok mh ->
  exists o,
    ProjectionScan mem mmem c_in c_mask c_out outImageType process function
      = Ok o
    /\ map fst (written o) = ImageIterator (c_out_final o).
Proof.
  intros HT Hge Hsel Hdo Hm. destruct mh as [mask hasMask].
  destruct (ProjectionScan_views_return c_in c_mask c_out outImageType
              process _ _ Hsel Hm) as (out & views & Hv).
  eexists. rewrite ProjectionScan_as_views, Hv. cbn [bind fst snd].
  split; [reflexivity|]. cbn [written c_out_final].
  rewrite map_map.
  rewrite <- (views_cover_output _ _ _ _ _ _ _ HT Hge Hdo Hv).
  apply map_ext. intros c. apply fst_project_and_store.
Qed.

(** With several channels the same holds for the samples of the output,
    provided the last dimension is collapsed or a singleton. *)
Lemma views_cover_output_channels c_in c_mask c_out t process out views :
  (1 < TensorElements c_in)%nat ->
  Forall (fun s => (1 <= s)%nat) (Sizes c_in) ->
  something_to_do process c_in ->
  selected process (length (Sizes c_in) - 1) = true
  \/ nth (length (Sizes c_in) - 1) (Sizes c_in) 0%nat = 1%nat ->
  ProjectionScan_views c_in c_mask c_out t process = Ok (out, views) ->
  map (fun c => origin_address (tempOut c)) views
    = ImageIterator (TensorToSpatial0 out).
Proof.
  intros HT Hge Hdo Hlast H.
  destruct (ProjectionScan_views_inv _ _ _ _ _ _ _ H)
    as (process1 & mask & hasMask & pr & os & qs & Hp & _ & Hd & Hcases).
  pose proof (something_to_do_existsb _ _ _ _ _ _ Hp Hd Hdo) as Hex.
  destruct Hcases as [(Hno & _) | (_ & Hout & Hloop)]; [congruence|].
  destruct (check_process_Ok _ _ _ Hp) as [Hlen Hreq].
  destruct (determine_sizes_coords _ _ _ _ _ Hlen Hge Hd) as (Hos & Lo & _).
  destruct (determine_sizes_spec _ _ Hlen _ _ _ Hd) as (_ & _ & _ & Hnth).
  assert (Hso : Sizes out = os) by (rewrite Hout; apply Sizes_adjust_output).
  assert (HTout : TensorElements out = TensorElements c_in)
    by (rewrite Hout; apply TensorElements_adjust_output).
  assert (Hfo : IsForged out = true)
    by (rewrite Hout; apply IsForged_adjust_output).
  assert (Hlo : length (Strides out) = length os).
  { rewrite Hout. apply Strides_adjust_output. }
  unfold IsForged in Hfo. destruct (Origin out) as [o|] eqn:Ho;
    [|discriminate].
  unfold ImageIterator. cbn [TensorToSpatial0 Origin Sizes Strides].
  rewrite Ho, Hso, HTout.
  (* the last output size is 1 *)
  destruct Hdo as (i0 & Hi0 & _).
  destruct (Sizes c_in) as [|s0 ss] eqn:Hsz; [simpl in Hi0; lia|].
  cbn [length] in *.
  replace (S (length ss) - 1)%nat with (length ss) in Hlast by lia.
  assert (Hone : nth (length ss) os 0%nat = 1%nat).
  { destruct (Hnth (length ss) ltac:(lia)) as (Hpr & Hos1 & _).
    rewrite Hos1, Hpr, Hreq by lia.
    destruct Hlast as [Hl | Hl]; rewrite Hl.
    - destruct (Nat.eqb (nth (length ss) (s0 :: ss) 0%nat) 1) eqn:E1;
        simpl; [apply Nat.eqb_eq in E1; exact E1|reflexivity].
    - cbn [Nat.eqb negb]. rewrite andb_false_r. reflexivity. }
  cbv zeta in Hloop. unfold tensor_to_spatial in Hloop.
  apply Nat.ltb_lt in HT. rewrite HT in Hloop.
  cbn [l_process l_input l_mask l_output l_outSizes l_procSizes forallb]
    in Hloop.
  destruct Hloop as [(Hall & _) | (_ & Hs)]; [discriminate|].
  unfold scan_start, scan_axes in Hs. cbv zeta in Hs.
  cbn [l_process l_input l_mask l_output l_outSizes l_procSizes] in Hs.
  match type of Hs with
  | context [compact _ _ _ ?m _] => set (ms := m) in Hs; clearbody ms
  end.
  rewrite compact_S in Hs.
  cbn [hd tl TensorToSpatial0 Sizes Strides] in Hs.
  rewrite HTout, HT, Hso in Hs. cbn [app] in Hs.
  rewrite (compact_last (length ss) os) in Hs by (assumption || lia).
  rewrite <- Lo in Hs.
  set (rest := compact (length os) os (Strides c_in) (tl ms) (Strides out))
    in Hs.
  set (ax0 := mkAxis _ _ _ _) in Hs.
  assert (Hax : Forall (fun a => (0 < axSize a)%nat) (ax0 :: rest)).
  { constructor; [simpl; apply Nat.ltb_lt in HT; lia|].
    eapply Forall_impl; [|apply compact_sizes]. simpl. intros; lia. }
  pose proof (scan_loop_views _ _ _ _ _ Hax _ _ Hs) as Hviews.
  pose proof (scan_loop_offsets _ _ _ _ _ (map axOut (ax0 :: rest)) Hax
                (length_map _ _) _ _ Hs) as Hoff.
  pose proof (offsets_compact_out os (Strides c_in) (tl ms) (Strides out)
                Hos Hlo) as Hcomp.
  cbv zeta in Hcomp. fold rest in Hcomp.
  cbn [map offsets axSize axOut] in Hoff. rewrite Hcomp in Hoff.
  cbn [offsets]. subst ax0. cbn [axSize axOut] in Hoff.
  rewrite <- Hoff, map_map. apply map_ext_in. intros c Hc.
  rewrite Forall_forall in Hviews. destruct (Hviews c Hc) as (_ & _ & ->).
  apply origin_address_ShiftOrigin. exact Ho.
Qed.

(** X5. With several channels, when the last dimension is collapsed or has
    size 1, a projection that has something to do writes every sample of
    the output exactly once, channel fastest. *)
Theorem output_samples_written_once
        (mem : Z -> V) (mmem : Z -> bin) (c_in c_mask c_out : Image)
        (outImageType : DataType) (process : BooleanArray)
        (function : ProjectionScanFunction) (mh : Image * bool) :
  (1 < TensorElements c_in)%nat ->
  Forall (fun s => (1 <= s)%nat) (Sizes c_in) ->
  valid_selector process c_in ->
  something_to_do process c_in ->
  selected process (length (Sizes c_in) - 1) = true
  \/ nth (length (Sizes c_in) - 1) (Sizes c_in) 0%nat = 1%nat ->
  check_mask c_mask (Sizes c_in) = Ok mh ->
  exists o,
    ProjectionScan mem mmem c_in c_mask c_out outImageType process function
      = Ok o
    /\ map fst (written o) = ImageIterator (TensorToSpatial0 (c_out_final o)).
Proof.
  intros HT Hge Hsel Hdo Hlast Hm. destruct mh as [mask hasMask].
  destruct (ProjectionScan_views_return c_in c_mask c_out outImageType
              process _ _ Hsel Hm) as (out & views & Hv).
  eexists. rewrite ProjectionScan_as_views, Hv. cbn [bind fst snd].
  split; [reflexivity|]. cbn [written c_out_final].
  rewrite map_map.
  rewrite <- (views_cover_output_channels _ _ _ _ _ _ _ HT Hge Hdo Hlast Hv).
  apply map_ext. intros c. apply fst_project_and_store.
Qed.

End Coverage.

(* ================================================================== *)
(** ** The selector *)

Section Selector.

Context {V : Type} {ops : SampleOps V} {lib : ImageLibrary}.

Lemma determine_sizes_ext :
  forall inSizes process1 process2,
    length process1 = length inSizes ->
    length process2 = length inSizes ->
    (forall i, (i < length inSizes)%nat ->
               nth i inSizes 0%nat <> 1%nat ->
               nth i process1 false = nth i process2 false) ->
    determine_sizes inSizes process1 = determine_sizes inSizes process2.
Proof.
  induction inSizes as [|s ss IH]; intros [|p1 ps1] [|p2 ps2] H1 H2 Hsame;
    simpl in H1, H2; try discriminate; [reflexivity|].
  injection H1 as H1. injection H2 as H2. cbn [determine_sizes].
  rewrite (IH ps1 ps2 H1 H2)
    by (intros i Hi Hne; apply (Hsame (S i)); simpl; [lia|exact Hne]).
  destruct (Nat.eqb s 1) eqn:Es; [reflexivity|].
  apply Nat.eqb_neq in Es.
  rewrite (Hsame 0%nat ltac:(simpl; lia) Es : p1 = p2). reflexivity.
Qed.

(** X6. Only the flags of the dimensions with more than one element count:
    two valid selectors that agree on those dimensions give the same
    result. In particular the empty selector stands for "every dimension",
    and a flag on a singleton dimension is ignored. *)
Theorem selectors_agreeing_on_proper_dimensions
        (mem : Z -> V) (mmem : Z -> bin) (c_in c_mask c_out : Image)
        (outImageType : DataType) (process1 process2 : BooleanArray)
        (function : ProjectionScanFunction) :
  valid_selector process1 c_in ->
  valid_selector process2 c_in ->
  (forall i, (i < length (Sizes c_in))%nat ->
             nth i (Sizes c_in) 0%nat <> 1%nat ->
             selected process1 i = selected process2 i) ->
  ProjectionScan mem mmem c_in c_mask c_out outImageType process1 function
    = ProjectionScan mem mmem c_in c_mask c_out outImageType process2 function.
Proof.
  intros Hv1 Hv2 Hsame.
  destruct (check_process_valid _ _ Hv1) as [q1 Hq1].
  destruct (check_process_valid _ _ Hv2) as [q2 Hq2].
  destruct (check_process_Ok _ _ _ Hq1) as [L1 R1].
  destruct (check_process_Ok _ _ _ Hq2) as [L2 R2].
  assert (Hd : determine_sizes (Sizes c_in) q1
               = determine_sizes (Sizes c_in) q2).
  { apply determine_sizes_ext; try assumption.
    intros i Hi Hne. rewrite R1, R2 by exact Hi. apply Hsame; assumption. }
  unfold ProjectionScan, ProjectionScan_visit.
  rewrite Hq1, Hq2. cbn [bind]. rewrite Hd. reflexivity.
Qed.

(** The selected dimensions of a result are singletons. *)
Lemma result_sizes c_in c_mask c_out t process out views :
  ProjectionScan_views c_in c_mask c_out t process = Ok (out, views) ->
  length (Sizes out) = length (Sizes c_in)
  /\ forall i, (i < length (Sizes c_in))%nat ->
               selected process i = true -> nth i (Sizes out) 0%nat = 1%nat.
Proof.
  intros H.
  destruct (ProjectionScan_views_inv _ _ _ _ _ _ _ H)
    as (process1 & mask & hasMask & pr & os & qs & Hp & _ & Hd & Hcases).
  destruct (check_process_Ok _ _ _ Hp) as [Hlen Hreq].
  destruct (determine_sizes_spec _ _ Hlen _ _ _ Hd) as (_ & Los & _ & Hnth).
  destruct Hcases as [(E & -> & _) | (_ & -> & _)].
  - split; [reflexivity|]. intros i Hi Hsel.
    destruct (Hnth i Hi) as (Hpr & _ & _).
    rewrite (existsb_id_false_nth _ E), Hreq, Hsel in Hpr by exact Hi.
    simpl in Hpr. symmetry in Hpr. apply negb_false_iff, Nat.eqb_eq in Hpr.
    exact Hpr.
  - rewrite Sizes_adjust_output. split; [exact Los|]. intros i Hi Hsel.
    destruct (Hnth i Hi) as (Hpr & Hos & _).
    rewrite Hos, Hpr, Hreq, Hsel by exact Hi. simpl.
    destruct (Nat.eqb (nth i (Sizes c_in) 0%nat) 1) eqn:E1; simpl;
      [apply Nat.eqb_eq in E1; exact E1|reflexivity].
Qed.

(** X7. Projecting a result once more over the same dimensions changes
    nothing: the second call finds nothing to do and hands the result back,
    with no reducer call. *)
Theorem projection_is_idempotent
        (mem mem' : Z -> V) (mmem mmem' : Z -> bin)
        (c_in c_mask c_out c_out' : Image) (t t' : DataType)
        (process : BooleanArray) (function function' : ProjectionScanFunction)
        (o : Outcome) :
  valid_selector process c_in ->
  ProjectionScan mem mmem c_in c_mask c_out t process function = Ok o ->
  ProjectionScan mem' mmem' (c_out_final o) RawImage c_out' t' process
                 function'
    = Ok (mkOutcome (c_out_final o) []).
Proof.
  intros Hsel H. rewrite ProjectionScan_as_views in H.
  destruct (ProjectionScan_views c_in c_mask c_out t process)
    as [[out views]| |] eqn:Hv; cbn [bind] in H; try discriminate.
  injection H as <-. cbn [c_out_final fst].
  destruct (result_sizes _ _ _ _ _ _ _ Hv) as [Hlen Hone].
  assert (Hsel' : valid_selector process out).
  { destruct Hsel as [-> | Hl]; [left; reflexivity|right; congruence]. }
  destruct (check_process_valid _ _ Hsel') as [process1 Hp].
  destruct (check_process_Ok _ _ _ Hp) as [Hlen1 Hreq].
  destruct (determine_sizes (Sizes out) process1) as [[pr os] qs] eqn:Hd.
  destruct (determine_sizes_spec _ _ Hlen1 _ _ _ Hd) as (Lpr & _ & _ & Hnth).
  assert (E : existsb (fun b => b) pr = false).
  { destruct (existsb (fun b => b) pr) eqn:E; [|reflexivity].
    apply existsb_exists in E. destruct E as [b [Hin Hb]]. subst b.
    apply (In_nth _ _ false) in Hin. destruct Hin as [i [Hi Hi']].
    rewrite Lpr in Hi. destruct (Hnth i Hi) as (Hpr & _ & _).
    rewrite Hi', Hreq in Hpr by exact Hi.
    destruct (selected process i) eqn:Es; [|discriminate].
    rewrite (Hone i ltac:(lia) Es) in Hpr. discriminate. }
  unfold ProjectionScan, ProjectionScan_visit.
  rewrite Hp. cbn [bind]. unfold check_mask. cbn [IsForged RawImage Origin bind].
  rewrite Hd, E. reflexivity.
Qed.

(** X8. The output carries the input's colour space, pixel size and channel
    count, whichever path produced it. *)
Theorem metadata_passes_through
        (mem : Z -> V) (mmem : Z -> bin) (c_in c_mask c_out : Image)
        (outImageType : DataType) (process : BooleanArray)
        (function : ProjectionScanFunction) (o : Outcome) :
  ProjectionScan mem mmem c_in c_mask c_out outImageType process function
    = Ok o ->
  ColorSpace (c_out_final o) = ColorSpace c_in
  /\ PixelSize (c_out_final o) = PixelSize c_in
  /\ TensorElements (c_out_final o) = TensorElements c_in.
Proof.
  intros H. rewrite ProjectionScan_as_views in H.
  destruct (ProjectionScan_views c_in c_mask c_out outImageType process)
    as [[out views]| |] eqn:Hv; cbn [bind] in H; try discriminate.
  injection H as <-. cbn [c_out_final fst].
  destruct (ProjectionScan_views_inv _ _ _ _ _ _ _ Hv)
    as (process1 & mask & hasMask & pr & os & qs & _ & _ & _ & Hcases).
  destruct Hcases as [(_ & -> & _) | (_ & -> & _)].
  - split; [reflexivity|]. split; reflexivity.
  - split; [reflexivity|]. split; [reflexivity|].
    apply TensorElements_adjust_output.
Qed.

End Selector.

(* ================================================================== *)
(** ** Whole-image reductions *)

Section WholeImage.

Context {V : Type} {ops : SampleOps V} {lib : ImageLibrary}.

(** X9. When a single-channel image is collapsed along all its dimensions
    (none of them a singleton), the reducer is called exactly once, on the
    input image itself, and its value goes to the one sample at the origin
    of the output: as it is when the output holds the element type asked
    for, converted by [CopyBuffer] when the output holds another one. *)
Theorem whole_image_is_one_reduction
        (mem : Z -> V) (mmem : Z -> bin) (c_in c_mask c_out : Image)
        (outImageType : DataType) (process : BooleanArray)
        (function : ProjectionScanFunction) (mask : Image) (hasMask : bool) :
  (TensorElements c_in <= 1)%nat ->
  Sizes c_in <> [] ->
  valid_selector process c_in ->
  (forall i, (i < length (Sizes c_in))%nat ->
             selected process i = true /\ nth i (Sizes c_in) 0%nat <> 1%nat) ->
  check_mask c_mask (Sizes c_in) = Ok (mask, hasMask) ->
  exists o,
    ProjectionScan mem mmem c_in c_mask c_out outImageType process function
      = Ok o
    /\ written o = [(origin_address (c_out_final o),
                     stored outImageType (DataType_ (c_out_final o))
                            (Project function mem mmem c_in mask))].
Proof.
  intros HT Hne Hsel Hall Hm.
  destruct (check_process_valid _ _ Hsel) as [process1 Hp].
  destruct (check_process_Ok _ _ _ Hp) as [Hlen Hreq].
  destruct (determine_sizes (Sizes c_in) process1) as [[pr os] qs] eqn:Hd.
  destruct (determine_sizes_spec _ _ Hlen _ _ _ Hd) as (Lpr & _ & _ & Hnth).
  assert (Hpr : forall i, (i < length (Sizes c_in))%nat ->
                          nth i pr false = true).
  { intros i Hi. destruct (Hnth i Hi) as (-> & _ & _).
    destruct (Hall i Hi) as [Hs Hn]. rewrite Hreq, Hs by exact Hi.
    apply Nat.eqb_neq in Hn. rewrite Hn. reflexivity. }
  assert (Eall : forallb (fun b => b) pr = true).
  { apply forallb_forall. intros b Hin.
    apply (In_nth _ _ false) in Hin. destruct Hin as [i [Hi <-]].
    apply Hpr. rewrite <- Lpr. exact Hi. }
  assert (Eex : existsb (fun b => b) pr = true).
  { destruct pr as [|b pr]; [|simpl in Eall |- *].
    - destruct (Sizes c_in); [congruence|discriminate].
    - apply andb_true_iff in Eall. destruct Eall as [-> _]. reflexivity. }
  unfold ProjectionScan, ProjectionScan_visit.
  rewrite Hp. cbn [bind]. rewrite Hm. cbn [bind]. rewrite Hd, Eex.
  cbn [negb]. unfold tensor_to_spatial.
  apply Nat.ltb_ge in HT. rewrite HT.
  cbn [l_process l_input l_mask l_output]. rewrite Eall. cbn [bind fst snd].
  eexists. split; [reflexivity|]. cbn [written c_out_final]. f_equal.
  unfold QuickCopy. rewrite project_and_store_stored. reflexivity.
Qed.


End WholeImage.

(* ================================================================== *)
(** ** Extrema *)

Section Extrema.

Context {V : Type} {ops : SampleOps V} {ord : SampleOrder V}.

Lemma fold_smax_bounds :
  forall (xs : list V) (a : V),
    sle a (fold_left smax xs a)
    /\ (forall x, In x xs -> sle x (fold_left smax xs a))
    /\ (fold_left smax xs a = a \/ In (fold_left smax xs a) xs).
Proof.
  induction xs as [|y xs IH]; intros a; cbn [fold_left].
  - split; [apply sle_refl|]. split; [intros x []|left; reflexivity].
  - destruct (IH (smax a y)) as (Hseed & Helem & Hin).
    split; [eapply sle_trans; [apply smax_l|exact Hseed]|]. split.
    + intros x [<- | Hx]; [|apply Helem; exact Hx].
      eapply sle_trans; [apply smax_r|exact Hseed].
    + destruct Hin as [Heq | Hin]; [|right; right; exact Hin].
      rewrite Heq. destruct (smax_cases a y) as [-> | ->];
        [left; reflexivity|right; left; reflexivity].
Qed.

Lemma fold_smin_bounds :
  forall (xs : list V) (a : V),
    sle (fold_left smin xs a) a
    /\ (forall x, In x xs -> sle (fold_left smin xs a) x)
    /\ (fold_left smin xs a = a \/ In (fold_left smin xs a) xs).
Proof.
  induction xs as [|y xs IH]; intros a; cbn [fold_left].
  - split; [apply sle_refl|]. split; [intros x []|left; reflexivity].
  - destruct (IH (smin a y)) as (Hseed & Helem & Hin).
    split; [eapply sle_trans; [exact Hseed|apply smin_l]|]. split.
    + intros x [<- | Hx]; [|apply Helem; exact Hx].
      eapply sle_trans; [exact Hseed|apply smin_r].
    + destruct Hin as [Heq | Hin]; [|right; right; exact Hin].
      rewrite Heq. destruct (smin_cases a y) as [-> | ->];
        [left; reflexivity|right; left; reflexivity].
Qed.

Lemma extrema_folds (mem : Z -> V) (mmem : Z -> bin) img mask TPI :
  Project (ProjectionMaximum TPI) mem mmem img mask
    = fold_left smax (participating mem mmem img mask) (numeric_lowest TPI)
  /\ Project (ProjectionMinimum TPI) mem mmem img mask
     = fold_left smin (participating mem mmem img mask) (numeric_max TPI).
Proof.
  cbn [Project ProjectionMaximum ProjectionMinimum].
  unfold participating.
  destruct (IsForged mask); split;
    first [apply (masked_fold smax) | apply (masked_fold smin)
          | apply (unmasked_fold smax) | apply (unmasked_fold smin)].
Qed.

(** X11. On samples ordered in agreement with [std::max] and [std::min],
    the maximum reducer hands out an upper bound and the minimum reducer a
    lower bound of the participating elements, each of them one of those
    elements or else the seed of the sample type. *)
Theorem extrema_are_bounds
        (mem : Z -> V) (mmem : Z -> bin) (img mask : Image) (TPI : DataType) :
  let xs := participating mem mmem img mask in
  let max := Project (ProjectionMaximum TPI) mem mmem img mask in
  let min := Project (ProjectionMinimum TPI) mem mmem img mask in
  (forall x, In x xs -> sle min x /\ sle x max)
  /\ (max = numeric_lowest TPI \/ In max xs)
  /\ (min = numeric_max TPI \/ In min xs)
  /\ sle (numeric_lowest TPI) max
  /\ sle min (numeric_max TPI).
Proof.
  intros xs max min. subst max min.
  destruct (extrema_folds mem mmem img mask TPI) as [-> ->]. fold xs.
  destruct (fold_smax_bounds xs (numeric_lowest TPI)) as (Hs1 & He1 & Hi1).
  destruct (fold_smin_bounds xs (numeric_max TPI)) as (Hs2 & He2 & Hi2).
  repeat split; auto.
Qed.

End Extrema.

(* ================================================================== *)
(** ** Projections without a mask, position by position *)

Section Pointwise.

Context {V : Type} {ops : SampleOps V} {aops : ArithmeticOps V}
        {lib : ImageLibrary}.

Lemma collapsed_pixels_pos :
  forall sizes process,
    Forall (fun s => (1 <= s)%nat) sizes ->
    (0 < collapsed_pixels sizes process)%nat.
Proof.
  induction sizes as [|s ss IH]; intros [|p ps] Hge; simpl; try lia.
  inversion Hge; subst. specialize (IH ps ltac:(assumption)).
  destruct p; nia.
Qed.

Lemma Forall2_map_same {A B : Type} (R : B -> B -> Prop) (f g : A -> B) l :
  Forall (fun c => R (f c) (g c)) l -> Forall2 R (map f l) (map g l).
Proof.
  induction 1; simpl; constructor; assumption.
Qed.

Lemma check_mask_absent c_mask inSizes :
  IsForged c_mask = false -> check_mask c_mask inSizes = Ok (RawImage, false).
Proof.
  intros H. unfold check_mask. rewrite H. reflexivity.
Qed.

(** Without a mask every view of a projection is a forged view with as many
    pixels as the collapsed dimensions hold, and comes with no mask view. *)
Lemma unmasked_views c_in c_mask c_out t process out views :
  well_formed c_in ->
  Forall (fun s => (1 <= s)%nat) (Sizes c_in) ->
  ProjectionScan_views c_in c_mask c_out t process = Ok (out, views) ->
  Forall (fun c =>
            well_formed (tempIn c)
            /\ IsForged (tempMask c) = false
            /\ NumberOfPixels (tempIn c) = collapsed_count process c_in
            /\ (0 < NumberOfPixels (tempIn c))%nat)
         views.
Proof.
  intros Hwf Hge Hv.
  pose proof (views_well_formed _ _ _ _ _ _ _ Hwf Hv) as H1.
  pose proof (views_mask_raw _ _ _ _ _ _ _ Hv) as H2.
  pose proof (views_pixel_count _ _ _ _ _ _ _ Hwf Hv) as H3.
  rewrite Forall_forall in H1, H2, H3 |- *. intros c Hc.
  destruct (H1 c Hc) as [Hw _]. specialize (H2 c Hc). specialize (H3 c Hc).
  repeat split; try assumption; try apply Hw.
  rewrite H3. apply collapsed_pixels_pos. exact Hge.
Qed.

(** The output addresses of the views are the samples of the output, on
    the inputs whose every output dimension is stepped along. *)
Lemma views_cover_samples c_in c_mask c_out t process out views :
  Forall (fun s => (1 <= s)%nat) (Sizes c_in) ->
  something_to_do process c_in ->
  fully_scanned process c_in ->
  ProjectionScan_views c_in c_mask c_out t process = Ok (out, views) ->
  map (fun c => origin_address (tempOut c)) views = samples out.
Proof.
  intros Hge Hdo Hfull Hv.
  assert (HT : TensorElements out = TensorElements c_in).
  { destruct (ProjectionScan_views_inv _ _ _ _ _ _ _ Hv)
      as (process1 & mask & hasMask & pr & os & qs & Hp & _ & Hd & Hcases).
    pose proof (something_to_do_existsb _ _ _ _ _ _ Hp Hd Hdo) as Hex.
    destruct Hcases as [(Hno & _) | (_ & -> & _)]; [congruence|].
    apply TensorElements_adjust_output. }
  unfold samples. rewrite HT.
  destruct (Nat.ltb 1 (TensorElements c_in)) eqn:E.
  - apply Nat.ltb_lt in E.
    destruct Hfull as [Hone | Hlast]; [lia|].
    eapply views_cover_output_channels; eassumption.
  - apply Nat.ltb_ge in E. eapply views_cover_output; eassumption.
Qed.

(** A projection without a mask: it returns, and its views are as
    [unmasked_views] and [views_cover_samples] describe them. *)
Lemma unmasked_scan c_in c_mask c_out t process :
  well_formed c_in ->
  Forall (fun s => (1 <= s)%nat) (Sizes c_in) ->
  valid_selector process c_in ->
  IsForged c_mask = false ->
  exists out views,
    ProjectionScan_views c_in c_mask c_out t process = Ok (out, views)
    /\ Forall (fun c =>
                 well_formed (tempIn c)
                 /\ IsForged (tempMask c) = false
                 /\ NumberOfPixels (tempIn c) = collapsed_count process c_in
                 /\ (0 < NumberOfPixels (tempIn c))%nat)
              views
    /\ (something_to_do process c_in -> fully_scanned process c_in ->
        map (fun c => origin_address (tempOut c)) views = samples out)
    /\ (~ something_to_do process c_in -> out = c_in /\ views = []).
Proof.
  intros Hwf Hge Hsel Hno.
  destruct (ProjectionScan_views_return c_in c_mask c_out t process _ _ Hsel
              (check_mask_absent _ _ Hno)) as (out & views & Hv).
  exists out, views. split; [exact Hv|]. split; [|split].
  - eapply unmasked_views; eassumption.
  - intros Hdo Hfull. eapply views_cover_samples; eassumption.
  - intros Hnot.
    destruct (ProjectionScan_views_inv _ _ _ _ _ _ _ Hv)
      as (process1 & mask & hasMask & pr & os & qs & Hp & _ & Hd & Hcases).
    destruct Hcases as [(_ & Hout & Hnil) | (Hex & _)];
      [split; assumption|].
    exfalso. apply Hnot. eapply existsb_something_to_do; eassumption.
Qed.

Lemma map_fst_pair {A B C : Type} (f : A -> B) (g : A -> C) l :
  map fst (map (fun a => (f a, g a)) l) = map f l.
Proof. rewrite map_map. reflexivity. Qed.


(** The mean variant of a reducer against its sum variant, sample by
    sample, for two reducers that agree up to the division by the number of
    pixels of the view. *)
Lemma mean_against_sum (mem : Z -> V) (mmem : Z -> bin)
      c_in c_mask c_out t process (fsum fmean : ProjectionScanFunction)
      out views :
  well_formed c_in ->
  ProjectionScan_views c_in c_mask c_out t process = Ok (out, views) ->
  Forall (fun c =>
            Project fmean mem mmem (tempIn c) (tempMask c)
            = div_count (Project fsum mem mmem (tempIn c) (tempMask c))
                        (collapsed_count process c_in)) views ->
  exists o_sum o_mean,
    ProjectionScan mem mmem c_in c_mask c_out t process fsum = Ok o_sum
    /\ ProjectionScan mem mmem c_in c_mask c_out t process fmean = Ok o_mean
    /\ c_out_final o_sum = out
    /\ c_out_final o_mean = out
    /\ map fst (written o_sum) = map (fun c => origin_address (tempOut c)) views
    /\ Forall2 (fun wsum wmean =>
                  fst wmean = fst wsum
                  /\ exists sum,
                       snd wsum = stored t (DataType_ out) sum
                       /\ snd wmean
                          = stored t (DataType_ out)
                                   (div_count sum
                                              (collapsed_count process c_in)))
               (written o_sum) (written o_mean)
    /\ (DataType_ out = t ->
        Forall2 (fun wsum wmean =>
                   fst wmean = fst wsum
                   /\ snd wmean
                      = div_count (snd wsum) (collapsed_count process c_in))
                (written o_sum) (written o_mean)).
Proof.
  intros Hwf Hv Hrel.
  rewrite !(ProjectionScan_stored _ _ _ _ _ _ _ _ _ _ Hwf Hv).
  do 2 eexists. split; [reflexivity|]. split; [reflexivity|].
  cbn [written c_out_final]. split; [reflexivity|]. split; [reflexivity|].
  split; [apply map_fst_pair|]. split.
  - apply Forall2_map_same. eapply Forall_impl; [|exact Hrel].
    intros c Hc. cbn [fst snd]. split; [reflexivity|].
    eexists. split; [reflexivity|]. rewrite Hc. reflexivity.
  - intros ->. apply Forall2_map_same. eapply Forall_impl; [|exact Hrel].
    intros c Hc. cbn [fst snd]. split; [reflexivity|].
    rewrite !stored_same. exact Hc.
Qed.

(** X13. Without a mask, [MeanSquare] fills the same output samples as
    [SumSquare], all of them on the inputs whose every output dimension is
    stepped along: where [SumSquare] stores a sum, [MeanSquare] stores that
    sum divided by the number of elements of the collapsed dimensions. When
    the output holds the element type asked for, the sample of [MeanSquare]
    is therefore the sample of [SumSquare] divided by that number; when it
    holds another type both go through [CopyBuffer] first. This covers the
    binary images, which both functions hand to the plain mean reducer. *)
Theorem MeanSquare_is_SumSquare_over_count
        (mem : Z -> V) (mmem : Z -> bin) (c_in c_mask c_out : Image)
        (process : BooleanArray) :
  well_formed c_in ->
  Forall (fun s => (1 <= s)%nat) (Sizes c_in) ->
  valid_selector process c_in ->
  IsForged c_mask = false ->
  let count := collapsed_count process c_in in
  let t := SuggestFlex (DataType_ c_in) in
  exists o_sum o_mean,
    SumSquare mem mmem c_in c_mask c_out process = Ok o_sum
    /\ MeanSquare mem mmem c_in c_mask c_out process = Ok o_mean
    /\ c_out_final o_mean = c_out_final o_sum
    /\ (something_to_do process c_in -> fully_scanned process c_in ->
        map fst (written o_sum) = samples (c_out_final o_sum))
    /\ Forall2 (fun wsum wmean =>
                  fst wmean = fst wsum
                  /\ exists sum,
                       snd wsum
                       = stored t (DataType_ (c_out_final o_sum)) sum
                       /\ snd wmean
                          = stored t (DataType_ (c_out_final o_sum))
                                   (div_count sum count))
               (written o_sum) (written o_mean)
    /\ (DataType_ (c_out_final o_sum) = t ->
        Forall2 (fun wsum wmean =>
                   fst wmean = fst wsum
                   /\ snd wmean = div_count (snd wsum) count)
                (written o_sum) (written o_mean)).
Proof.
  intros Hwf Hge Hsel Hno count t. subst count t.
  destruct (unmasked_scan c_in c_mask c_out (SuggestFlex (DataType_ c_in))
              process Hwf Hge Hsel Hno)
    as (out & views & Hv & Hviews & Hcover & _).
  unfold SumSquare, MeanSquare, DIP_OVL_NEW_BINARY, DIP_OVL_NEW_NONBINARY.
  destruct (IsBinary (DataType_ c_in)); cbn [IsBinary bind].
  - destruct (mean_against_sum mem mmem c_in c_mask c_out _ process
                (ProjectionMean false) (ProjectionMean true) out views Hwf Hv)
      as (o_sum & o_mean & Hs & Hm & Hos & Hom & Haddr & Hrel & Hsame).
    { eapply Forall_impl; [|exact Hviews].
      intros c (_ & Hraw & Hcount & Hpos).
      cbn [Project ProjectionMean]. unfold ProjectionMean_accumulate.
      rewrite Hraw. apply Nat.ltb_lt in Hpos. rewrite Hpos, Hcount.
      reflexivity. }
    exists o_sum, o_mean. rewrite Hos.
    split; [exact Hs|]. split; [exact Hm|]. split; [exact Hom|].
    split; [|split; assumption].
    intros Hdo Hfull. rewrite Haddr. apply Hcover; assumption.
  - destruct (mean_against_sum mem mmem c_in c_mask c_out _ process
                (ProjectionMeanSquare false (DataType_ c_in))
                (ProjectionMeanSquare true (DataType_ c_in)) out views Hwf Hv)
      as (o_sum & o_mean & Hs & Hm & Hos & Hom & Haddr & Hrel & Hsame).
    { eapply Forall_impl; [|exact Hviews].
      intros c (_ & Hraw & Hcount & Hpos).
      cbn [Project ProjectionMeanSquare].
      unfold ProjectionMeanSquare_accumulate.
      rewrite Hraw. apply Nat.ltb_lt in Hpos. rewrite Hpos, Hcount.
      reflexivity. }
    exists o_sum, o_mean. rewrite Hos.
    split; [exact Hs|]. split; [exact Hm|]. split; [exact Hom|].
    split; [|split; assumption].
    intros Hdo Hfull. rewrite Haddr. apply Hcover; assumption.
Qed.

(** C9 (what the code does). For a call without a mask, [Sum] and the
    arithmetic [Mean] both return, with the same output header, and write
    the same output samples in the same order: every sample of the output
    exactly once when something is to be done and every dimension of the
    output is stepped along (one channel, or a last dimension that is
    collapsed or has one element), and none when nothing is to be done,
    both then handing back the input itself. At each sample written the
    number of participating elements is the number [count] of elements of
    the collapsed dimensions, which is positive; [Sum] stores their sum and
    [Mean] stores that sum divided by [count]. When the output holds the
    element type asked for, the value [Mean] writes is therefore the value
    [Sum] writes divided by [count]; when the output keeps another element
    type, the two values are converted by [CopyBuffer] on their way into
    it. *)
Theorem Sum_over_count_is_Mean
        (mem : Z -> V) (mmem : Z -> bin) (c_in c_mask c_out : Image)
        (mode : string) (process : BooleanArray) :
  well_formed c_in ->
  Forall (fun s => (1 <= s)%nat) (Sizes c_in) ->
  valid_selector process c_in ->
  IsForged c_mask = false ->
  mode <> directional ->
  let count := collapsed_count process c_in in
  let t := SuggestFlex (DataType_ c_in) in
  let sum := fun c : Cursor =>
    fold_left add (participating mem mmem (tempIn c) (tempMask c)) zero in
  exists o_sum o_mean views,
    Sum mem mmem c_in c_mask c_out process = Ok o_sum
    /\ Mean mem mmem c_in c_mask c_out mode process = Ok o_mean
    /\ c_out_final o_mean = c_out_final o_sum
    /\ ProjectionScan_views c_in c_mask c_out t process
       = Ok (c_out_final o_sum, views)
    /\ (something_to_do process c_in -> fully_scanned process c_in ->
        map fst (written o_sum) = samples (c_out_final o_sum))
    /\ (~ something_to_do process c_in ->
        c_out_final o_sum = c_in /\ views = [])
    /\ (0 < count)%nat
    /\ Forall (fun c =>
                 length (participating mem mmem (tempIn c) (tempMask c))
                 = count) views
    /\ written o_sum
       = map (fun c => (origin_address (tempOut c),
                        stored t (DataType_ (c_out_final o_sum)) (sum c)))
             views
    /\ written o_mean
       = map (fun c => (origin_address (tempOut c),
                        stored t (DataType_ (c_out_final o_sum))
                               (div_count (sum c) count)))
             views
    /\ (DataType_ (c_out_final o_sum) = t ->
        Forall2 (fun wsum wmean =>
                   fst wmean = fst wsum
                   /\ snd wmean = div_count (snd wsum) count)
                (written o_sum) (written o_mean)).
Proof.
  intros Hwf Hge Hsel Hno Hmode count t sum. subst count t sum.
  destruct (unmasked_scan c_in c_mask c_out (SuggestFlex (DataType_ c_in))
              process Hwf Hge Hsel Hno)
    as (out & views & Hv & Hviews & Hcover & Hnothing).
  unfold Sum, Mean, DIP_OVL_NEW_ALL.
  apply String.eqb_neq in Hmode. rewrite Hmode. cbn [bind].
  rewrite !(ProjectionScan_stored _ _ _ _ _ _ _ _ _ _ Hwf Hv).
  assert (Hsum : Forall (fun c =>
                   length (participating mem mmem (tempIn c) (tempMask c))
                   = collapsed_count process c_in
                   /\ Project (ProjectionMean false) mem mmem (tempIn c)
                              (tempMask c)
                      = fold_left add
                          (participating mem mmem (tempIn c) (tempMask c))
                          zero
                   /\ Project (ProjectionMean true) mem mmem (tempIn c)
                              (tempMask c)
                      = div_count
                          (fold_left add
                             (participating mem mmem (tempIn c) (tempMask c))
                             zero)
                          (collapsed_count process c_in)) views).
  { eapply Forall_impl; [|exact Hviews].
    intros c (Hw & Hraw & Hcount & Hpos).
    assert (Hlen : length (participating mem mmem (tempIn c) (tempMask c))
                   = collapsed_count process c_in).
    { unfold participating. rewrite Hraw, length_map.
      rewrite (length_ImageIterator _ Hw). exact Hcount. }
    split; [exact Hlen|].
    cbn [Project ProjectionMean].
    rewrite (ProjectionMean_accumulate_spec _ _ _ _ Hw), Hlen.
    rewrite <- Hcount. apply Nat.ltb_lt in Hpos. rewrite Hpos.
    split; reflexivity. }
  assert (Hcount : (0 < collapsed_count process c_in)%nat)
    by (apply collapsed_pixels_pos; exact Hge).
  do 3 eexists. split; [reflexivity|]. split; [reflexivity|].
  cbn [written c_out_final]. split; [reflexivity|]. split; [exact Hv|].
  split; [intros Hdo Hfull; rewrite map_fst_pair; apply Hcover; assumption|].
  split; [exact Hnothing|]. split; [exact Hcount|].
  split; [eapply Forall_impl; [|exact Hsum]; intros c Hc; apply Hc|].
  split; [|split].
  - apply map_ext_in. intros c Hc. rewrite Forall_forall in Hsum.
    destruct (Hsum c Hc) as (_ & -> & _). reflexivity.
  - apply map_ext_in. intros c Hc. rewrite Forall_forall in Hsum.
    destruct (Hsum c Hc) as (_ & _ & ->). reflexivity.
  - intros ->. apply Forall2_map_same. eapply Forall_impl; [|exact Hsum].
    intros c (_ & Hs & Hm). cbn [fst snd]. split; [reflexivity|].
    rewrite !stored_same, Hs, Hm. reflexivity.
Qed.

End Pointwise.

(* ================================================================== *)
(** ** Directional dispersion, continued *)

Section DirectionalProperties.

Local Open Scope R_scope.

Lemma directional_masked_fold (mem : Z -> R) (mmem : Z -> bin) :
  forall (its : list (Z * Z)) (sum : R * R) (n : nat),
    fold_left (fun (acc : (R * R) * nat) (it : Z * Z) =>
                 if mmem (snd it)
                 then (Directional.cadd (fst acc)
                         (Directional.AngleToVector (mem (fst it))),
                       S (snd acc))
                 else acc) its (sum, n)
    = (fold_left (fun sum theta =>
                    Directional.cadd sum (Directional.AngleToVector theta))
                 (map (fun it : Z * Z => mem (fst it))
                      (filter (fun it : Z * Z => mmem (snd it)) its)) sum,
       (n + length (filter (fun it : Z * Z => mmem (snd it)) its))%nat).
Proof.
  induction its as [|it its IH]; intros sum n; simpl.
  - f_equal. lia.
  - destruct (mmem (snd it)); simpl; rewrite IH; f_equal; lia.
Qed.

(** The vector sum and the count, over the participating angles. *)
Lemma directional_accumulate_spec (mem : Z -> R) (mmem : Z -> bin) img mask :
  Directional.accumulate mem mmem img mask
    = (fold_left (fun sum theta =>
                    Directional.cadd sum (Directional.AngleToVector theta))
                 (participating mem mmem img mask) (0, 0),
       if IsForged mask then length (participating mem mmem img mask)
       else NumberOfPixels img).
Proof.
  unfold Directional.accumulate, participating. destruct (IsForged mask).
  - rewrite directional_masked_fold, length_map. reflexivity.
  - f_equal. generalize (ImageIterator img) (0, 0).
    induction l as [|it its IH]; intros sum; simpl; [reflexivity|apply IH].
Qed.

(** X15. With a mask view that selects nothing the vector sum is zero: the
    directional variance is 1 and the standard deviation, the square root
    of [-2 log 0], is not a finite number. *)
Theorem directional_dispersion_of_nothing
        (mem : Z -> R) (mmem : Z -> bin) (img mask : Image) :
  IsForged mask = true ->
  (forall it, In it (JointImageIterator img mask) -> mmem (snd it) = false) ->
  Directional.Project false mem mmem img mask = Some 1
  /\ Directional.Project true mem mmem img mask = None.
Proof.
  intros Hf Hall.
  assert (Hxs : participating mem mmem img mask = []).
  { unfold participating. rewrite Hf.
    induction (JointImageIterator img mask) as [|it its IH]; [reflexivity|].
    simpl. rewrite (Hall it) by (left; reflexivity).
    apply IH. intros it' Hit. apply Hall. right. exact Hit. }
  unfold Directional.Project. rewrite directional_accumulate_spec, Hxs.
  cbn [fold_left]. unfold Directional.cabs. cbn [fst snd].
  replace (0 * 0 + 0 * 0) with 0 by ring. rewrite sqrt_0.
  split; [f_equal; ring|].
  unfold Directional.std_log. destruct (Rlt_dec 0 0); [lra|reflexivity].
Qed.

End DirectionalProperties.

(* ================================================================== *)
(** ** Which input samples are read *)

Section Partition.

Context {V : Type} {ops : SampleOps V} {lib : ImageLibrary}.

Lemma flat_map_flat_map {A B C : Type} (f : B -> list C) (g : A -> list B) l :
  flat_map f (flat_map g l) = flat_map (fun a => flat_map f (g a)) l.
Proof.
  induction l as [|a l IH]; simpl; [reflexivity|].
  rewrite flat_map_app, IH. reflexivity.
Qed.

Lemma map_flat_map {A B C : Type} (f : B -> C) (g : A -> list B) l :
  map f (flat_map g l) = flat_map (fun a => map f (g a)) l.
Proof.
  induction l as [|a l IH]; simpl; [reflexivity|].
  rewrite map_app, IH. reflexivity.
Qed.

Lemma Permutation_flat_map_pointwise {A B : Type} (f g : A -> list B) l :
  (forall a, Permutation (f a) (g a)) ->
  Permutation (flat_map f l) (flat_map g l).
Proof.
  intros Hfg. induction l as [|a l IH]; simpl; [constructor|].
  apply Permutation_app; [apply Hfg|exact IH].
Qed.

Lemma Permutation_cons_flat_map {A B : Type} (g : A -> B)
      (h : A -> list B) l :
  Permutation (map g l ++ flat_map h l) (flat_map (fun b => g b :: h b) l).
Proof.
  induction l as [|b l IH]; simpl; [constructor|].
  constructor. rewrite Permutation_app_swap_app.
  apply Permutation_app_head. exact IH.
Qed.

(** Two nested loops may be swapped. *)
Lemma flat_map_swap {A B C : Type} (f : A -> B -> C) l1 l2 :
  Permutation (flat_map (fun a => map (f a) l2) l1)
              (flat_map (fun b => map (fun a => f a b) l1) l2).
Proof.
  induction l1 as [|a l1 IH]; cbn [flat_map map].
  - induction l2; simpl; [constructor|assumption].
  - rewrite IH. apply Permutation_cons_flat_map.
Qed.

Lemma offsets_squeeze :
  forall sizes strides,
    length strides = length sizes ->
    offsets (fst (squeeze sizes strides)) (snd (squeeze sizes strides))
      = offsets sizes strides.
Proof.
  induction sizes as [|s ss IH]; intros [|t ts] Hlen; simpl in Hlen;
    try discriminate; [reflexivity|].
  injection Hlen as Hlen. cbn [squeeze].
  destruct (Nat.eqb s 1) eqn:Es; cbn [fst snd offsets]; rewrite (IH ts Hlen).
  - apply Nat.eqb_eq in Es. subst s. cbn [seq map].
    rewrite flat_map_singleton. symmetry. apply map_id.
  - reflexivity.
Qed.

(** The offsets of the input are, up to their order, the sums of an offset
    along the kept dimensions and an offset along the collapsed ones. *)
Lemma offsets_split :
  forall inSizes process pr os qs strides,
    length process = length inSizes ->
    determine_sizes inSizes process = (pr, os, qs) ->
    Permutation
      (flat_map (fun a => map (fun d => a + d) (offsets qs strides))
                (offsets os strides))
      (offsets inSizes strides).
Proof.
  induction inSizes as [|s ss IH]; intros [|p ps] pr os qs strides Hlen Hd;
    simpl in Hlen; try discriminate.
  - simpl in Hd. injection Hd as <- <- <-. simpl. apply Permutation_refl.
  - injection Hlen as Hlen. cbn [determine_sizes] in Hd.
    destruct (determine_sizes ss ps) as [[pr1 os1] qs1] eqn:Hrec.
    destruct strides as [|t ts].
    { destruct (if Nat.eqb s 1 then false else p);
        injection Hd as <- <- <-; simpl; apply Permutation_refl. }
    specialize (IH ps _ _ _ ts Hlen Hrec).
    set (block := fun r => map (fun i => Z.of_nat i * t + r) (seq 0 s)).
    assert (Hone : forall X,
               flat_map (fun r => map (fun i => Z.of_nat i * t + r) (seq 0 1))
                        X = X).
    { intros X. cbn [seq map]. rewrite flat_map_singleton. apply map_id. }
    destruct (if Nat.eqb s 1 then false else p);
      injection Hd as <- <- <-; cbn [offsets]; fold block; rewrite Hone.
    + (* processed: the blocks run along the collapsed side *)
      rewrite <- IH, flat_map_flat_map.
      apply Permutation_flat_map_pointwise. intros a.
      rewrite map_flat_map, flat_map_map.
      apply Permutation_flat_map_pointwise. intros b. subst block.
      cbv beta. rewrite map_map.
      erewrite map_ext; [apply Permutation_refl|]. intros i. cbv beta. lia.
    + (* kept: the blocks run along the output side *)
      rewrite <- IH, !flat_map_flat_map.
      apply Permutation_flat_map_pointwise. intros a.
      rewrite flat_map_map. subst block. cbv beta.
      rewrite flat_map_map.
      rewrite (flat_map_swap (fun i b => Z.of_nat i * t + a + b)).
      apply Permutation_flat_map_pointwise. intros b.
      erewrite map_ext; [apply Permutation_refl|]. intros i. cbv beta. lia.
Qed.

Lemma flat_map_ext_In {A B : Type} (f g : A -> list B) l :
  (forall a, In a l -> f a = g a) -> flat_map f l = flat_map g l.
Proof.
  induction l as [|a l IH]; intros H; simpl; [reflexivity|].
  rewrite (H a) by (left; reflexivity).
  rewrite IH by (intros b Hb; apply H; right; exact Hb). reflexivity.
Qed.

Lemma ImageIterator_ShiftOrigin img o z :
  Origin img = Some o ->
  ImageIterator (dip__ShiftOrigin img z)
    = map (fun d => o + z + d) (offsets (Sizes img) (Strides img)).
Proof.
  intros H. unfold ImageIterator, dip__ShiftOrigin. simpl. rewrite H.
  reflexivity.
Qed.

(** X18. In a projection of a single-channel image that has something to
    do, the sub-views handed to the reducer share out the input: taken
    together they hold every pixel of the input exactly once. *)
Theorem every_input_pixel_is_read_once
        (c_in c_mask c_out : Image) (t : DataType) (process : BooleanArray)
        (out : Image) (views : list Cursor) :
  well_formed c_in ->
  Forall (fun s => (1 <= s)%nat) (Sizes c_in) ->
  (TensorElements c_in <= 1)%nat ->
  something_to_do process c_in ->
  ProjectionScan_views c_in c_mask c_out t process = Ok (out, views) ->
  Permutation (flat_map (fun c => ImageIterator (tempIn c)) views)
              (ImageIterator c_in).
Proof.
  intros Hwf Hge HT Hdo H.
  destruct (ProjectionScan_views_inv _ _ _ _ _ _ _ H)
    as (process1 & mask & hasMask & pr & os & qs & Hp & _ & Hd & Hcases).
  pose proof (something_to_do_existsb _ _ _ _ _ _ Hp Hd Hdo) as Hex.
  destruct Hcases as [(Hno & _) | (_ & Hout & Hloop)]; [congruence|].
  destruct (check_process_Ok _ _ _ Hp) as [Hlen _].
  destruct (determine_sizes_coords _ _ _ _ _ Hlen Hge Hd)
    as (Hos & Lo & Lq & _).
  destruct Hwf as [Hf Hst].
  unfold IsForged in Hf. destruct (Origin c_in) as [o|] eqn:Ho;
    [|discriminate].
  cbv zeta in Hloop. unfold tensor_to_spatial in Hloop.
  apply Nat.ltb_ge in HT. rewrite HT in Hloop.
  cbn [l_process l_input l_mask l_output l_outSizes l_procSizes] in Hloop.
  destruct Hloop as [(_ & ->) | (_ & Hs)].
  - cbn [flat_map tempIn]. rewrite app_nil_r. apply Permutation_refl.
  - unfold scan_start, scan_axes in Hs. cbv zeta in Hs.
    cbn [l_process l_input l_mask l_output l_outSizes l_procSizes] in Hs.
    rewrite <- Lo in Hs.
    match type of Hs with
    | context [compact _ _ _ ?m ?a] =>
        set (ms := m) in Hs; set (aout := a) in Hs
    end.
    set (axes := compact (length os) os (Strides c_in) ms aout) in Hs.
    set (Ti := Squeeze _) in Hs.
    assert (Hax : Forall (fun a => (0 < axSize a)%nat) axes).
    { eapply Forall_impl; [|apply compact_sizes]. simpl. intros; lia. }
    pose proof (scan_loop_views _ _ _ _ _ Hax _ _ Hs) as Hviews.
    pose proof (scan_loop_offsets _ _ _ _ _ (map axIn axes) Hax
                  (length_map _ _) _ _ Hs) as Hoff.
    pose proof (offsets_compact_in os (Strides c_in) ms aout Hos
                  ltac:(congruence)) as Hcomp.
    cbv zeta in Hcomp. fold axes in Hcomp. rewrite Hcomp in Hoff.
    assert (HTi : Origin Ti = Some o) by (subst Ti; exact Ho).
    assert (Hpix : offsets (Sizes Ti) (Strides Ti)
                   = offsets qs (Strides c_in)).
    { subst Ti. cbn [Squeeze Sizes Strides dip__SetOrigin SetSizes
                     CopyProperties].
      apply offsets_squeeze. congruence. }
    rewrite (flat_map_ext_In
               (fun c => ImageIterator (tempIn c))
               (fun c => map (fun d => o + dot (position c) (map axIn axes) + d)
                             (offsets qs (Strides c_in))) views).
    2:{ intros c Hc. rewrite Forall_forall in Hviews.
        destruct (Hviews c Hc) as (_ & -> & _).
        rewrite (ImageIterator_ShiftOrigin _ _ _ HTi), Hpix. reflexivity. }
    rewrite <- (flat_map_map
                  (fun z => map (fun d => o + z + d)
                                (offsets qs (Strides c_in)))
                  (fun c => dot (position c) (map axIn axes))).
    rewrite Hoff. unfold ImageIterator. rewrite Ho.
    rewrite <- (offsets_split _ _ _ _ _ (Strides c_in) Hlen Hd).
    rewrite map_flat_map.
    apply Permutation_flat_map_pointwise. intros a. rewrite map_map.
    erewrite map_ext; [apply Permutation_refl|]. intros d. cbv beta. lia.
Qed.

End Partition.

(* ================================================================== *)
(** * The further properties on concrete inputs *)

Lemma mean_variants_divide_by_count_witness :
  well_formed Runs.row
  /\ Project (ProjectionMeanAbs true) Runs.row_mem Runs.first_only_mem
             Runs.row Runs.first_only = 1%Q
  /\ Project (ProjectionMeanSquare true DT_SFLOAT) Runs.row_mem
             (fun a => Z.ltb a 2) Runs.row Runs.first_only = (5 # 2)%Q
  /\ Project (ProjectionMeanAbs true) Runs.row_mem (fun _ => false)
             Runs.row Runs.first_only = 0%Q.
Proof.
  assert (Hwf : well_formed Runs.row) by (split; reflexivity).
  split; [exact Hwf|].
  destruct (mean_variants_divide_by_count Runs.row_mem Runs.first_only_mem
              Runs.row Runs.first_only DT_SFLOAT Hwf) as [H1 _].
  destruct (mean_variants_divide_by_count Runs.row_mem
              (fun a => Z.ltb a 2) Runs.row Runs.first_only DT_SFLOAT Hwf)
    as [H2 _].
  destruct (mean_variants_divide_by_count Runs.row_mem (fun _ => false)
              Runs.row Runs.first_only DT_SFLOAT Hwf) as [_ H3].
  destruct H1 as [H1 _]; [vm_compute; lia|].
  destruct H2 as [_ H2]; [vm_compute; lia|].
  destruct H3 as [H3 _]; [reflexivity|].
  rewrite H1, H2, H3. repeat split.
Defined.

Lemma reducers_on_empty_selection_witness :
  Project (ProjectionMean false) Runs.row_mem (fun _ => false) Runs.row
          Runs.first_only = 0%Q
  /\ Project ProjectionProduct Runs.row_mem (fun _ => false) Runs.row
             Runs.first_only = 1%Q
  /\ Project (ProjectionMaximum DT_UINT8) Runs.row_mem (fun _ => false)
             Runs.row Runs.first_only = 0%Q
  /\ Project (ProjectionMinimum DT_UINT8) Runs.row_mem (fun _ => false)
             Runs.row Runs.first_only = inject_Z 255.
Proof.
  exact (reducers_on_empty_selection Runs.row_mem (fun _ => false) Runs.row
           Runs.first_only DT_UINT8 eq_refl (fun it _ => eq_refl)).
Defined.

Lemma output_pixels_written_once_witness :
  something_to_do [false; true] MoreRuns.grid
  /\ exists o,
       ProjectionScan MoreRuns.grid_mem Runs.no_mask_mem MoreRuns.grid
                      Runs.no_mask RawImage DT_SFLOAT [false; true]
                      (ProjectionMean false) = Ok o
       /\ map fst (written o) = ImageIterator (c_out_final o).
Proof.
  assert (Hdo : something_to_do [false; true] MoreRuns.grid).
  { exists 1%nat. repeat split; simpl; [lia|discriminate]. }
  split; [exact Hdo|].
  apply (output_pixels_written_once MoreRuns.grid_mem Runs.no_mask_mem
           MoreRuns.grid Runs.no_mask RawImage DT_SFLOAT [false; true]
           (ProjectionMean false) (RawImage, false)).
  - simpl. lia.
  - repeat constructor.
  - right. reflexivity.
  - exact Hdo.
  - reflexivity.
Defined.

Lemma output_samples_written_once_witness :
  exists o,
    ProjectionScan Runs.img_mem Runs.no_mask_mem Runs.img Runs.no_mask
                   RawImage DT_UINT8 [false; true; true]
                   (ProjectionMaximum DT_UINT8) = Ok o
    /\ map fst (written o) = ImageIterator (TensorToSpatial0 (c_out_final o)).
Proof.
  apply (output_samples_written_once Runs.img_mem Runs.no_mask_mem Runs.img
           Runs.no_mask RawImage DT_UINT8 [false; true; true]
           (ProjectionMaximum DT_UINT8) (RawImage, false)).
  - simpl. lia.
  - repeat constructor.
  - right. reflexivity.
  - exists 1%nat. repeat split; simpl; [lia|discriminate].
  - left. reflexivity.
  - reflexivity.
Defined.

Lemma selectors_agreeing_on_proper_dimensions_witness :
  ProjectionScan Runs.row_mem Runs.no_mask_mem Runs.flat Runs.no_mask
                 RawImage DT_SFLOAT [] (ProjectionMean true)
    = ProjectionScan Runs.row_mem Runs.no_mask_mem Runs.flat Runs.no_mask
                     RawImage DT_SFLOAT [false; true] (ProjectionMean true).
Proof.
  apply (selectors_agreeing_on_proper_dimensions Runs.row_mem
           Runs.no_mask_mem Runs.flat Runs.no_mask RawImage DT_SFLOAT
           [] [false; true] (ProjectionMean true)).
  - left. reflexivity.
  - right. reflexivity.
  - intros [|[|i]] Hi Hne; simpl in *; try reflexivity; try lia;
      try congruence.
Defined.

Lemma projection_is_idempotent_witness :
  exists o,
    ProjectionScan MoreRuns.grid_mem Runs.no_mask_mem MoreRuns.grid
                   Runs.no_mask RawImage DT_SFLOAT [false; true]
                   (ProjectionMean false) = Ok o
    /\ ProjectionScan MoreRuns.grid_mem Runs.no_mask_mem (c_out_final o)
                      RawImage RawImage DT_SFLOAT [false; true]
                      (ProjectionMean true)
       = Ok (mkOutcome (c_out_final o) []).
Proof.
  eexists. split; [reflexivity|].
  eapply (projection_is_idempotent MoreRuns.grid_mem MoreRuns.grid_mem
            Runs.no_mask_mem Runs.no_mask_mem MoreRuns.grid Runs.no_mask
            RawImage RawImage DT_SFLOAT DT_SFLOAT [false; true]
            (ProjectionMean false) (ProjectionMean true)).
  - right. reflexivity.
  - reflexivity.
Defined.

Lemma metadata_passes_through_witness :
  exists o,
    ProjectionScan Runs.img_mem Runs.no_mask_mem Runs.img Runs.no_mask
                   RawImage DT_UINT8 [] (ProjectionMaximum DT_UINT8) = Ok o
    /\ ColorSpace (c_out_final o) = ColorSpace Runs.img
    /\ PixelSize (c_out_final o) = PixelSize Runs.img
    /\ TensorElements (c_out_final o) = TensorElements Runs.img.
Proof.
  eexists. split; [reflexivity|].
  eapply (metadata_passes_through Runs.img_mem Runs.no_mask_mem Runs.img
            Runs.no_mask RawImage DT_UINT8 [] (ProjectionMaximum DT_UINT8)).
  reflexivity.
Defined.

Lemma whole_image_is_one_reduction_witness :
  exists o,
    Product MoreRuns.grid_mem Runs.no_mask_mem MoreRuns.grid Runs.no_mask
            RawImage [] = Ok o
    /\ written o
       = [(origin_address (c_out_final o),
           stored (SuggestFlex (DataType_ MoreRuns.grid))
                  (DataType_ (c_out_final o))
                  (Project ProjectionProduct MoreRuns.grid_mem
                           Runs.no_mask_mem MoreRuns.grid RawImage))]
    /\ Project ProjectionProduct MoreRuns.grid_mem Runs.no_mask_mem
               MoreRuns.grid RawImage = inject_Z 720.
Proof.
  destruct (whole_image_is_one_reduction MoreRuns.grid_mem Runs.no_mask_mem
              MoreRuns.grid Runs.no_mask RawImage
              (SuggestFlex (DataType_ MoreRuns.grid)) [] ProjectionProduct
              RawImage false) as (o & Ho & Hw).
  - simpl. lia.
  - discriminate.
  - left. reflexivity.
  - intros [|[|i]] Hi; simpl in *; try lia; split; try reflexivity;
      discriminate.
  - reflexivity.
  - exists o. split; [exact Ho|]. split; [exact Hw|reflexivity].
Defined.


Lemma extrema_are_bounds_witness :
  let xs := participating Runs.row_mem Runs.first_only_mem Runs.row
                          Runs.no_mask in
  let max := Project (ProjectionMaximum DT_UINT8) Runs.row_mem
                     Runs.first_only_mem Runs.row Runs.no_mask in
  let min := Project (ProjectionMinimum DT_UINT8) Runs.row_mem
                     Runs.first_only_mem Runs.row Runs.no_mask in
  (max = 0%Q \/ In max xs)
  /\ (min = inject_Z 255 \/ In min xs)
  /\ (0 <= max)%Q
  /\ (min <= inject_Z 255)%Q.
Proof.
  exact (proj2 (extrema_are_bounds Runs.row_mem Runs.first_only_mem Runs.row
                  Runs.no_mask DT_UINT8)).
Defined.


Lemma MeanSquare_is_SumSquare_over_count_witness :
  something_to_do [true; false] MoreRuns.grid
  /\ fully_scanned [true; false] MoreRuns.grid
  /\ exists o_sum o_mean,
       SumSquare MoreRuns.grid_mem Runs.no_mask_mem MoreRuns.grid
                 Runs.no_mask RawImage [true; false] = Ok o_sum
       /\ MeanSquare MoreRuns.grid_mem Runs.no_mask_mem MoreRuns.grid
                     Runs.no_mask RawImage [true; false] = Ok o_mean
       /\ c_out_final o_mean = c_out_final o_sum
       /\ map fst (written o_sum) = samples (c_out_final o_sum)
       /\ written o_sum = [(0, inject_Z 5); (1, inject_Z 25); (2, inject_Z 61)]
       /\ Forall2 (fun wsum wmean =>
                     fst wmean = fst wsum
                     /\ snd wmean = div_count (snd wsum) 2)
                  (written o_sum) (written o_mean).
Proof.
  assert (Hdo : something_to_do [true; false] MoreRuns.grid).
  { exists 0%nat. repeat split; simpl; [lia|discriminate]. }
  assert (Hfull : fully_scanned [true; false] MoreRuns.grid).
  { left. simpl. lia. }
  split; [exact Hdo|]. split; [exact Hfull|].
  destruct (MeanSquare_is_SumSquare_over_count MoreRuns.grid_mem
              Runs.no_mask_mem MoreRuns.grid Runs.no_mask RawImage
              [true; false] (conj eq_refl eq_refl) ltac:(repeat constructor)
              (or_intror eq_refl) eq_refl)
    as (o_sum & o_mean & Hs & Hm & Hout & Hcover & _ & Hrel).
  exists o_sum, o_mean.
  split; [exact Hs|]. split; [exact Hm|]. split; [exact Hout|].
  split; [exact (Hcover Hdo Hfull)|].
  vm_compute in Hs. injection Hs as <-.
  split; [reflexivity|]. apply Hrel. reflexivity.
Defined.

(** [Sum] and [Mean] over dimension 1 of the 2x3 grid: two output pixels,
    each with three participating elements. *)
Lemma Sum_over_count_is_Mean_witness :
  something_to_do [false; true] MoreRuns.grid
  /\ fully_scanned [false; true] MoreRuns.grid
  /\ exists o_sum o_mean,
       Sum MoreRuns.grid_mem Runs.no_mask_mem MoreRuns.grid Runs.no_mask
           RawImage [false; true] = Ok o_sum
       /\ Mean MoreRuns.grid_mem Runs.no_mask_mem MoreRuns.grid Runs.no_mask
               RawImage EmptyString [false; true] = Ok o_mean
       /\ c_out_final o_mean = c_out_final o_sum
       /\ map fst (written o_sum) = samples (c_out_final o_sum)
       /\ written o_sum = [(0, inject_Z 9); (1, inject_Z 12)]
       /\ Forall2 (fun wsum wmean =>
                     fst wmean = fst wsum
                     /\ snd wmean = div_count (snd wsum) 3)
                  (written o_sum) (written o_mean).
Proof.
  assert (Hdo : something_to_do [false; true] MoreRuns.grid).
  { exists 1%nat. repeat split; simpl; [lia|discriminate]. }
  assert (Hfull : fully_scanned [false; true] MoreRuns.grid).
  { left. simpl. lia. }
  split; [exact Hdo|]. split; [exact Hfull|].
  destruct (Sum_over_count_is_Mean MoreRuns.grid_mem Runs.no_mask_mem
              MoreRuns.grid Runs.no_mask RawImage EmptyString [false; true]
              (conj eq_refl eq_refl) ltac:(repeat constructor)
              (or_intror eq_refl) eq_refl ltac:(discriminate))
    as (o_sum & o_mean & views & Hs & Hm & Hout & _ & Hcover & _ & _ & _ & _
        & _ & Hrel).
  exists o_sum, o_mean.
  split; [exact Hs|]. split; [exact Hm|]. split; [exact Hout|].
  split; [exact (Hcover Hdo Hfull)|].
  vm_compute in Hs. injection Hs as <-.
  split; [reflexivity|]. apply Hrel. reflexivity.
Defined.

(** C9 as the specification states it fails where the output keeps an
    element type of its own. Into a protected 8-bit output, [Sum] over 200,
    201 and 202 stores 603 saturated to 255 and [Mean] stores 201, which is
    not 255 divided by the count 3. The three samples, their sum and their
    mean are exact in single precision. *)
Lemma Sum_over_count_is_Mean_counterexample :
  Sum (lib := MoreRuns.Protecting) MoreRuns.bright_mem Runs.no_mask_mem
      Runs.row Runs.no_mask MoreRuns.bytes []
    = Ok (mkOutcome MoreRuns.bytes [(0, inject_Z 255)])
  /\ Mean (lib := MoreRuns.Protecting) MoreRuns.bright_mem Runs.no_mask_mem
          Runs.row Runs.no_mask MoreRuns.bytes EmptyString []
     = Ok (mkOutcome MoreRuns.bytes [(0, inject_Z 201)])
  /\ length (participating MoreRuns.bright_mem Runs.no_mask_mem Runs.row
                           Runs.no_mask) = 3%nat
  /\ div_count (inject_Z 255) 3 <> inject_Z 201.
Proof.
  split; [reflexivity|]. split; [reflexivity|]. split; [reflexivity|].
  vm_compute. discriminate.
Qed.

Lemma directional_dispersion_of_nothing_witness :
  Directional.Project false Runs.angles_mem (fun _ => false) Runs.angles
                      MoreRuns.angles_mask = Some 1%R
  /\ Directional.Project true Runs.angles_mem (fun _ => false) Runs.angles
                         MoreRuns.angles_mask = None.
Proof.
  apply (directional_dispersion_of_nothing Runs.angles_mem (fun _ => false)
           Runs.angles MoreRuns.angles_mask).
  - reflexivity.
  - intros it _. reflexivity.
Defined.

Lemma every_input_pixel_is_read_once_witness :
  exists out views,
    ProjectionScan_views MoreRuns.grid Runs.no_mask RawImage DT_SFLOAT
                         [false; true] = Ok (out, views)
    /\ Permutation (flat_map (fun c => ImageIterator (tempIn c)) views)
                   (ImageIterator MoreRuns.grid).
Proof.
  do 2 eexists. split; [reflexivity|].
  eapply (every_input_pixel_is_read_once MoreRuns.grid Runs.no_mask RawImage
            DT_SFLOAT [false; true]).
  - split; reflexivity.
  - repeat constructor.
  - simpl. lia.
  - exists 1%nat. repeat split; simpl; [lia|discriminate].
  - reflexivity.
Defined.
